(** * LineIntersection: a sweep-line intersection finder over an AVL tree

    A shallow embedding of [AVLTree.py] and [LineIntersection.py].

    The Python objects live in explicit stores: the nodes of a tree are
    records in a list owned by the tree, and a reference to a node is its
    index in that list.  [None] is [None] of [option].  Methods that
    mutate take the store and return the new one; methods that only read
    return their result.  Recursion over references is bounded by a
    recursion budget, and Python's exceptions are results of their own. *)

From Stdlib Require Import ZArith QArith Qcanon Floats List Bool Lia Permutation.
From stdpp Require Import base list sets sorting.

Set Warnings "-inexact-float".

(** ** Results of Python code *)

Inductive exn : Type :=
| AttributeError   (* an attribute of [None] was read *)
| TypeError.       (* [None] was called, or compared with a number *)

(** [Return a]: the call returned [a].  [Raise e]: it raised [e].
    [Undefined]: the model gives it no behaviour (the recursion budget
    ran out, or a reference points outside the store). *)
Inductive outcome (A : Type) : Type :=
| Return (a : A)
| Raise (e : exn)
| Undefined.
Arguments Return {A} a.
Arguments Raise {A} e.
Arguments Undefined {A}.

Definition bind {A B : Type} (m : outcome A) (k : A -> outcome B) : outcome B :=
  match m with
  | Return a => k a
  | Raise e => Raise e
  | Undefined => Undefined
  end.

Notation "'let*' x := m 'in' k" := (bind m (fun x => k))
  (at level 10, x name, m at level 100, k at level 200, only parsing).
Notation "'let*' ' pat := m 'in' k" :=
  (bind m (fun x => match x with pat => k end))
  (at level 10, pat pattern, m at level 100, k at level 200, only parsing).

(** [try: m except AttributeError: h]. *)
Definition except_AttributeError {A} (m : outcome A) (h : outcome A) : outcome A :=
  match m with
  | Raise AttributeError => h
  | _ => m
  end.

(** Reading an attribute through a reference that may be [None]. *)
Definition attr_of {A} (o : option A) : outcome A :=
  match o with
  | Some a => Return a
  | None => Raise AttributeError
  end.

(** Calling something that may be [None]. *)
Definition callable {A} (o : option A) : outcome A :=
  match o with
  | Some a => Return a
  | None => Raise TypeError
  end.

(** ** Python operators on keys and values *)

(** [<], [==] and [!=] on keys. *)
Class PyKey (K : Type) : Type := {
  py_lt : K -> K -> bool;
  py_eq : K -> K -> bool;
  py_ne : K -> K -> bool
}.

(** [is] on values. *)
Class PyObj (V : Type) : Type := {
  py_is : V -> V -> bool
}.

(** Python integers as keys. *)
#[export] Instance PyKey_Z : PyKey Z := {
  py_lt := Z.ltb;
  py_eq := Z.eqb;
  py_ne := fun a b => negb (Z.eqb a b)
}.

(** Objects named by their allocation number. *)
#[export] Instance PyObj_nat : PyObj nat := {
  py_is := Nat.eqb
}.

(** ** The store of a tree *)

Definition ref := nat.

Definition is_ref (o : option ref) (p : ref) : bool :=
  match o with
  | Some q => Nat.eqb q p
  | None => false
  end.

Definition is_None {A} (o : option A) : bool :=
  match o with
  | Some _ => false
  | None => true
  end.

(** A node.  [self.tree] is the tree whose store holds the node. *)
Record TreeObject (K V : Type) : Type := mkTreeObject {
  key : K;
  value : V;
  left_child : option ref;
  right_child : option ref;
  parent : option ref;
  comparator : option (K -> K -> bool);
  equals : option (K -> K -> bool)
}.
Arguments mkTreeObject {K V}.
Arguments key {K V}.
Arguments value {K V}.
Arguments left_child {K V}.
Arguments right_child {K V}.
Arguments parent {K V}.
Arguments comparator {K V}.
Arguments equals {K V}.

(** The tree object together with the nodes made for it. *)
Record AvlTree (K V : Type) : Type := mkAvlTree {
  root : option ref;
  tree_comparator : K -> K -> bool;
  tree_equals : K -> K -> bool;
  objects : list (TreeObject K V)
}.
Arguments mkAvlTree {K V}.
Arguments root {K V}.
Arguments tree_comparator {K V}.
Arguments tree_equals {K V}.
Arguments objects {K V}.

Section Store.
Context {K V : Type}.
Implicit Types (t : AvlTree K V) (n : TreeObject K V) (p : ref).

Definition node t p : outcome (TreeObject K V) :=
  match objects t !! p with
  | Some n => Return n
  | None => Undefined
  end.

Definition update t p (f : TreeObject K V -> TreeObject K V) : AvlTree K V :=
  mkAvlTree (root t) (tree_comparator t) (tree_equals t) (alter f p (objects t)).

Definition set_root t (o : option ref) : AvlTree K V :=
  mkAvlTree o (tree_comparator t) (tree_equals t) (objects t).

(** A node with one of its references changed. *)
Definition with_left_child (o : option ref) n : TreeObject K V :=
  mkTreeObject (key n) (value n) o (right_child n) (parent n) (comparator n) (equals n).

Definition with_right_child (o : option ref) n : TreeObject K V :=
  mkTreeObject (key n) (value n) (left_child n) o (parent n) (comparator n) (equals n).

Definition with_parent (o : option ref) n : TreeObject K V :=
  mkTreeObject (key n) (value n) (left_child n) (right_child n) o (comparator n) (equals n).

(** [p.left_child = o], [p.right_child = o], [p.parent = o] *)
Definition set_left_child t p (o : option ref) : AvlTree K V :=
  update t p (with_left_child o).

Definition set_right_child t p (o : option ref) : AvlTree K V :=
  update t p (with_right_child o).

Definition set_parent t p (o : option ref) : AvlTree K V :=
  update t p (with_parent o).

(** [TreeObject(value, key, tree, comparator, equals)]: a new node, with no
    children and no parent. *)
Definition new_TreeObject t (k : K) (v : V)
    (cmp eq : option (K -> K -> bool)) : ref * AvlTree K V :=
  (length (objects t),
   mkAvlTree (root t) (tree_comparator t) (tree_equals t)
             (objects t ++ [mkTreeObject k v None None None cmp eq])).

End Store.

(** ** [class TreeObject] *)

Module TreeObject.
Section Methods.
Context {K V : Type} `{PyKey K} `{PyObj V}.
Implicit Types (t : AvlTree K V) (self : ref) (fuel : nat).

(** [find_rightmost] *)
Fixpoint find_rightmost fuel self t : outcome ref :=
  match fuel with
  | O => Undefined
  | S fuel =>
    let* s := node t self in
    match right_child s with
    | None => Return self
    | Some r => find_rightmost fuel r t
    end
  end.

(** [find_leftmost] *)
Fixpoint find_leftmost fuel self t : outcome ref :=
  match fuel with
  | O => Undefined
  | S fuel =>
    let* s := node t self in
    match left_child s with
    | None => Return self
    | Some l => find_leftmost fuel l t
    end
  end.

(** The body shared by [height_left] and [height_right]: one more than the
    child's [check_height], or 0 when there is no child. *)
Definition height_of (check : ref -> outcome Z) (child : option ref) : outcome Z :=
  match child with
  | Some c => let* h := check c in Return (1 + h)%Z
  | None => Return 0%Z
  end.

(** [check_height] *)
Fixpoint check_height fuel self t : outcome Z :=
  match fuel with
  | O => Undefined
  | S fuel =>
    let* s := node t self in
    let* hl := height_of (fun c => check_height fuel c t) (left_child s) in
    let* hr := height_of (fun c => check_height fuel c t) (right_child s) in
    Return (Z.max hl hr)
  end.

(** [height_left] *)
Definition height_left fuel self t : outcome Z :=
  let* s := node t self in
  height_of (fun c => check_height fuel c t) (left_child s).

(** [height_right] *)
Definition height_right fuel self t : outcome Z :=
  let* s := node t self in
  height_of (fun c => check_height fuel c t) (right_child s).

(** [check_balance] *)
Definition check_balance fuel self t : outcome Z :=
  let* hr := height_right fuel self t in
  let* hl := height_left fuel self t in
  Return (hr - hl)%Z.

(** [simple_rot_right] *)
Definition simple_rot_right self t : outcome (AvlTree K V) :=
  let* s := node t self in
  let t := if is_None (parent s) then set_root t (left_child s) else t in
  let* l := attr_of (left_child s) in
  let* ln := node t l in
  let new_left := right_child ln in
  let t := set_parent t l (parent s) in
  let* t := match parent s with
      | Some p =>
        let* pn := node t p in
        Return (if is_ref (right_child pn) self
                then set_right_child t p (left_child s)
                else set_left_child t p (left_child s))
      | None => Return t
      end in
  let t := set_right_child t l (Some self) in
  let t := set_parent t self (left_child s) in
  let t := set_left_child t self new_left in
  Return (match new_left with
          | Some nl => set_parent t nl (Some self)
          | None => t
          end).

(** [simple_rot_left] *)
Definition simple_rot_left self t : outcome (AvlTree K V) :=
  let* s := node t self in
  let t := if is_None (parent s) then set_root t (right_child s) else t in
  let* r := attr_of (right_child s) in
  let* rn := node t r in
  let new_right := left_child rn in
  let t := set_parent t r (parent s) in
  let* t := match parent s with
      | Some p =>
        let* pn := node t p in
        Return (if is_ref (right_child pn) self
                then set_right_child t p (right_child s)
                else set_left_child t p (right_child s))
      | None => Return t
      end in
  let t := set_left_child t r (Some self) in
  let t := set_parent t self (right_child s) in
  let t := set_right_child t self new_right in
  Return (match new_right with
          | Some nr => set_parent t nr (Some self)
          | None => t
          end).

(** The last lines of [insert]:
    [if balance < -1: rot_right  elif balance > 1: rot_left]. *)
Definition rebalance fuel self t : outcome (AvlTree K V) :=
  let* balance := check_balance fuel self t in
  if (balance <? -1)%Z then simple_rot_right self t
  else if (balance >? 1)%Z then simple_rot_left self t
  else Return t.

(** [insert]: [obj] is a node already made, with no children. *)
Fixpoint insert fuel self (obj : ref) t : outcome (AvlTree K V) :=
  match fuel with
  | O => Undefined
  | S fuel =>
    let* s := node t self in
    let* o := node t obj in
    let* cmp := callable (comparator s) in
    if cmp (key o) (key s) then
      let* eq := callable (equals s) in
      if eq (key o) (key s) then
        if py_is (value o) (value s) then Return t
        else rebalance (S fuel) self t
      else
        match left_child s with
        | None =>
          let t := set_left_child t self (Some obj) in
          let t := set_parent t obj (Some self) in
          rebalance (S fuel) self t
        | Some l =>
          let* t := insert fuel l obj t in
          rebalance (S fuel) self t
        end
    else
      match right_child s with
      | None =>
        let t := set_right_child t self (Some obj) in
        let t := set_parent t obj (Some self) in
        rebalance (S fuel) self t
      | Some r =>
        let* t := insert fuel r obj t in
        rebalance (S fuel) self t
      end
  end.

(** [replace_self]; [substitute] may be [None]. *)
Definition replace_self self (substitute : option ref) t : outcome (AvlTree K V) :=
  let* s := node t self in
  let t := match substitute with
           | Some sub => set_parent t sub (parent s)
           | None => t
           end in
  let t := if is_None (parent s) then set_root t substitute else t in
  (* if self.left_child is not None and self.left_child.key != substitute.key *)
  let* t := match left_child s with
      | Some l =>
        let* ln := node t l in
        let* sub := attr_of substitute in
        let* subn := node t sub in
        if py_ne (key ln) (key subn)
        then Return (set_parent (set_left_child t sub (Some l)) l (Some sub))
        else Return t
      | None => Return t
      end in
  (* if self.right_child is not None and self.right_child.key != substitute.key *)
  let* t := match right_child s with
      | Some r =>
        let* rn := node t r in
        let* sub := attr_of substitute in
        let* subn := node t sub in
        if py_ne (key rn) (key subn)
        then Return (set_parent (set_right_child t sub (Some r)) r (Some sub))
        else Return t
      | None => Return t
      end in
  (* self was not written to above unless it is its own substitute *)
  let* s := node t self in
  match parent s with
  | Some p =>
    let* first := (if is_None (left_child s) then Return false
             else let* pn := node t p in
                  let* pl := attr_of (left_child pn) in
                  let* pln := node t pl in
                  let* eq := callable (equals s) in
                  Return (eq (key pln) (key s))) in
    if first then Return (set_left_child t p substitute)
    else
      let* pn := node t p in
      if is_ref (right_child pn) self
      then Return (set_right_child t p substitute)
      else Return (set_left_child t p substitute)
  | None => Return t
  end.

(** [substitute_right] *)
Definition substitute_right self t : outcome (AvlTree K V) :=
  let* s := node t self in
  let* p := attr_of (parent s) in
  let* pn := node t p in
  if is_ref (right_child pn) self then
    match left_child s with
    | Some l => Return (set_right_child (set_parent t l (Some p)) p (Some l))
    | None => Return (set_right_child t p None)
    end
  else Return t.

(** [substitute_left] *)
Definition substitute_left self t : outcome (AvlTree K V) :=
  let* s := node t self in
  let* p := attr_of (parent s) in
  let* pn := node t p in
  if is_ref (left_child pn) self then
    match right_child s with
    | Some r => Return (set_left_child (set_parent t r (Some p)) p (Some r))
    | None => Return (set_left_child t p None)
    end
  else Return t.

(** The branch of [remove] and [remove_pair] taken when [self] is the node
    to remove. *)
Definition unlink fuel self t : outcome (AvlTree K V) :=
  let* s := node t self in
  if is_None (right_child s) && is_None (left_child s) then
    if is_None (parent s) then Return (set_root t None)
    else replace_self self None t
  else
    match left_child s with
    | Some l =>
      let* substitute := find_rightmost fuel l t in
      let* t := substitute_right substitute t in
      replace_self self (Some substitute) t
    | None =>
      let* r := attr_of (right_child s) in
      let* substitute := find_leftmost fuel r t in
      let* t := substitute_left substitute t in
      replace_self self (Some substitute) t
    end.

(** The last lines of [remove] and [remove_pair]:
    [if balance < -1: rot_right] and then [if balance > 1: rot_left], on
    the balance read once before. *)
Definition rebalance_after_remove fuel self t : outcome (AvlTree K V) :=
  let* balance := check_balance fuel self t in
  let* t := (if (balance <? -1)%Z then simple_rot_right self t else Return t) in
  if (balance >? 1)%Z then simple_rot_left self t else Return t.

(** [remove] *)
Fixpoint remove fuel self (k : K) t : outcome (AvlTree K V) :=
  match fuel with
  | O => Undefined
  | S fuel =>
    let* s := node t self in
    let* eq := callable (equals s) in
    let* t := (if eq (key s) k then unlink (S fuel) self t
         else
           let* cmp := callable (comparator s) in
           if cmp (key s) k then
             match left_child s with
             | Some l => remove fuel l k t
             | None => Return t
             end
           else
             match right_child s with
             | Some r => remove fuel r k t
             | None => Return t
             end) in
    rebalance_after_remove (S fuel) self t
  end.

(** [remove_pair]: below [self] the search goes on with [remove]. *)
Definition remove_pair fuel self (k : K) (v : V) t : outcome (AvlTree K V) :=
  let* s := node t self in
  let* eq := callable (equals s) in
  let* t := (if eq (key s) k && py_is (value s) v then unlink fuel self t
       else
         let* cmp := callable (comparator s) in
         if cmp (key s) k then
           match left_child s with
           | Some l => remove fuel l k t
           | None => Return t
           end
         else
           match right_child s with
           | Some r => remove fuel r k t
           | None => Return t
           end) in
  rebalance_after_remove fuel self t.

(** [find_highest] *)
Fixpoint find_highest fuel self t : outcome V :=
  match fuel with
  | O => Undefined
  | S fuel =>
    let* s := node t self in
    match right_child s with
    | None => Return (value s)
    | Some r => find_highest fuel r t
    end
  end.

(** [pop_highest]: returns the node. *)
Fixpoint pop_highest fuel self t : outcome (ref * AvlTree K V) :=
  match fuel with
  | O => Undefined
  | S fuel =>
    let* s := node t self in
    match right_child s with
    | None =>
      match parent s with
      | Some p => Return (self, set_right_child t p (left_child s))
      | None => Return (self, set_root t None)
      end
    | Some r => pop_highest fuel r t
    end
  end.

(** [find_lowest] *)
Fixpoint find_lowest fuel self t : outcome V :=
  match fuel with
  | O => Undefined
  | S fuel =>
    let* s := node t self in
    match left_child s with
    | None => Return (value s)
    | Some l => find_lowest fuel l t
    end
  end.

(** [pop_lowest]: returns the value. *)
Fixpoint pop_lowest fuel self t : outcome (V * AvlTree K V) :=
  match fuel with
  | O => Undefined
  | S fuel =>
    let* s := node t self in
    match left_child s with
    | None =>
      let t := match parent s with
               | Some p => set_left_child t p (right_child s)
               | None => set_root t (right_child s)
               end in
      let t := match right_child s with
               | Some r => set_parent t r (parent s)
               | None => t
               end in
      Return (value s, t)
    | Some l => pop_lowest fuel l t
    end
  end.

(** What [find_left_neighbor] and [find_left_neighbor_by_pair] return at
    the node they were looking for. *)
Definition left_neighbor_here fuel self t : outcome (option ref) :=
  let* s := node t self in
  match left_child s with
  | Some l => let* r := find_rightmost fuel l t in Return (Some r)
  | None =>
    match parent s with
    | None => Return None
    | Some p =>
      let* pn := node t p in
      if is_ref (right_child pn) self then Return (Some p)
      else if is_ref (left_child pn) self then
        match parent pn with
        | None => Return None
        | Some g =>
          let* gn := node t g in
          if is_ref (right_child gn) p then Return (Some g) else Return None
        end
      else Return None
    end
  end.

(** The same for [find_right_neighbor] and [find_right_neighbor_by_pair]. *)
Definition right_neighbor_here fuel self t : outcome (option ref) :=
  let* s := node t self in
  match right_child s with
  | Some r => let* l := find_leftmost fuel r t in Return (Some l)
  | None =>
    match parent s with
    | None => Return None
    | Some p =>
      let* pn := node t p in
      if is_ref (left_child pn) self then Return (Some p)
      else if is_ref (right_child pn) self then
        match parent pn with
        | None => Return None
        | Some g =>
          let* gn := node t g in
          if is_ref (left_child gn) p then Return (Some g) else Return None
        end
      else Return None
    end
  end.

(** [find_left_neighbor] *)
Fixpoint find_left_neighbor fuel self (k : K) t : outcome (option ref) :=
  match fuel with
  | O => Undefined
  | S fuel =>
    let* s := node t self in
    let* eq := callable (equals s) in
    if eq k (key s) then left_neighbor_here (S fuel) self t
    else
      let* cmp := callable (comparator s) in
      if cmp k (key s) then
        match left_child s with
        | Some l => find_left_neighbor fuel l k t
        | None => Return None
        end
      else if negb (cmp k (key s)) then
        match right_child s with
        | Some r => find_left_neighbor fuel r k t
        | None => Return None
        end
      else Return None
  end.

(** [find_right_neighbor] *)
Fixpoint find_right_neighbor fuel self (k : K) t : outcome (option ref) :=
  match fuel with
  | O => Undefined
  | S fuel =>
    let* s := node t self in
    let* eq := callable (equals s) in
    if eq k (key s) then right_neighbor_here (S fuel) self t
    else
      let* cmp := callable (comparator s) in
      if cmp k (key s) then
        match left_child s with
        | Some l => find_right_neighbor fuel l k t
        | None => Return None
        end
      else if negb (cmp k (key s)) then
        match right_child s with
        | Some r => find_right_neighbor fuel r k t
        | None => Return None
        end
      else Return None
  end.

(** [.value] of what a neighbour search returned. *)
Definition value_of (o : option ref) t : outcome V :=
  let* p := attr_of o in
  let* n := node t p in
  Return (value n).

(** [find_neighbors]: [None] stands for a side where the search returned
    [None] or raised [AttributeError]. *)
Definition find_neighbors fuel self (k : K) t : outcome (option V * option V) :=
  let* left := except_AttributeError
                 (let* o := find_left_neighbor fuel self k t in
                  let* v := value_of o t in Return (Some v))
                 (Return None) in
  let* right := except_AttributeError
                  (let* o := find_right_neighbor fuel self k t in
                   let* v := value_of o t in Return (Some v))
                  (Return None) in
  Return (left, right).

(** [find_left_neighbor_by_pair] *)
Fixpoint find_left_neighbor_by_pair fuel self (k : K) (v : V) t : outcome (option ref) :=
  match fuel with
  | O => Undefined
  | S fuel =>
    let* s := node t self in
    let* eq := callable (equals s) in
    if eq k (key s) && py_is v (value s) then left_neighbor_here (S fuel) self t
    else
      let* cmp := callable (comparator s) in
      if cmp k (key s) then
        match left_child s with
        | Some l => find_left_neighbor_by_pair fuel l k v t
        | None => Return None
        end
      else if negb (cmp k (key s)) then
        match right_child s with
        | Some r => find_left_neighbor_by_pair fuel r k v t
        | None => Return None
        end
      else Return None
  end.

(** [find_right_neighbor_by_pair] *)
Fixpoint find_right_neighbor_by_pair fuel self (k : K) (v : V) t : outcome (option ref) :=
  match fuel with
  | O => Undefined
  | S fuel =>
    let* s := node t self in
    let* eq := callable (equals s) in
    if eq k (key s) && py_is v (value s) then right_neighbor_here (S fuel) self t
    else
      let* cmp := callable (comparator s) in
      if cmp k (key s) then
        match left_child s with
        | Some l => find_right_neighbor_by_pair fuel l k v t
        | None => Return None
        end
      else if negb (cmp k (key s)) then
        match right_child s with
        | Some r => find_right_neighbor_by_pair fuel r k v t
        | None => Return None
        end
      else Return None
  end.

(** [is_in] *)
Fixpoint is_in fuel self (k : K) t : outcome bool :=
  match fuel with
  | O => Undefined
  | S fuel =>
    let* s := node t self in
    let* eq := callable (equals s) in
    if eq k (key s) then Return true
    else
      let* cmp := callable (comparator s) in
      if cmp k (key s) then
        match left_child s with
        | Some l => is_in fuel l k t
        | None => Return false
        end
      else
        match right_child s with
        | Some r => is_in fuel r k t
        | None => Return false
        end
  end.

End Methods.
End TreeObject.

(** ** [class AvlTree] *)

Module AvlTree.
Section Methods.
Context {K V : Type} `{PyKey K} `{PyObj V}.
Implicit Types (t : AvlTree K V) (fuel : nat).

(** [default_comparator] *)
Definition default_comparator (key1 key2 : K) : bool := py_lt key1 key2.

(** [default_equals] *)
Definition default_equals (key1 key2 : K) : bool := py_eq key1 key2.

(** [insert] *)
Definition insert fuel (element : K * V) t : outcome (AvlTree K V) :=
  match root t with
  | None =>
    let '(p, t) := new_TreeObject t (fst element) (snd element)
                     (Some (tree_comparator t)) (Some (tree_equals t)) in
    Return (set_root t (Some p))
  | Some r =>
    let '(p, t) := new_TreeObject t (fst element) (snd element)
                     (Some (tree_comparator t)) (Some (tree_equals t)) in
    let* t := TreeObject.insert fuel r p t in
    (* self.check_balance() *)
    let* r := attr_of (root t) in
    let* _ := TreeObject.check_balance fuel r t in
    Return t
  end.

(** [for element in elements: self.insert(element)] *)
Fixpoint insert_each fuel (elements : list (K * V)) t : outcome (AvlTree K V) :=
  match elements with
  | [] => Return t
  | element :: elements =>
    let* t := insert fuel element t in
    insert_each fuel elements t
  end.

(** [insert_list].  The first component is what the caller's list holds
    when the call ends, whether it returns or raises: the list is passed
    by reference and [elements.pop(0)] removes its first element. *)
Fixpoint insert_list fuel (elements : list (K * V)) t
    : list (K * V) * outcome (AvlTree K V) :=
  match elements with
  | [] => (elements, Return t)
  | element :: rest =>
    match root t with
    | None =>
      let '(p, t) := new_TreeObject t (fst element) (snd element)
                       (Some (tree_comparator t)) (Some (tree_equals t)) in
      let t := set_root t (Some p) in
      let elements := rest in
      if negb (Nat.eqb (length elements) 0) then
        match fuel with
        | O => (elements, Undefined)
        | S fuel => insert_list fuel elements t
        end
      else (elements, Return t)
    | Some _ => (elements, insert_each fuel elements t)
    end
  end.

(** [__init__]: the root node is made with the arguments [comparator] and
    [equals] as they were passed, the tree keeps the defaults in their
    place when they are [None]. *)
Definition init fuel (elements : list (K * V))
    (comparator equals : option (K -> K -> bool))
    : list (K * V) * outcome (AvlTree K V) :=
  let t := mkAvlTree None
             (match comparator with Some c => c | None => default_comparator end)
             (match equals with Some e => e | None => default_equals end)
             [] in
  match elements with
  | [] => (elements, Return t)
  | element :: rest =>
    let '(p, t) := new_TreeObject t (fst element) (snd element) comparator equals in
    let t := set_root t (Some p) in
    let elements := rest in
    if Nat.ltb 0 (length elements) then insert_list fuel elements t
    else (elements, Return t)
  end.

(** [check_balance] *)
Definition check_balance fuel t : outcome Z :=
  let* r := attr_of (root t) in
  TreeObject.check_balance fuel r t.

(** [check_height] *)
Definition check_height fuel t : outcome Z :=
  let* r := attr_of (root t) in
  TreeObject.check_height fuel r t.

(** [remove] *)
Definition remove fuel (k : K) t : outcome (AvlTree K V) :=
  let* r := attr_of (root t) in
  TreeObject.remove fuel r k t.

(** [remove_pair] *)
Definition remove_pair fuel (k : K) (v : V) t : outcome (AvlTree K V) :=
  match root t with
  | Some r => TreeObject.remove_pair fuel r k v t
  | None => Return t
  end.

(** [delete_root] *)
Definition delete_root t : AvlTree K V := set_root t None.

(** [find_highest] *)
Definition find_highest fuel t : outcome V :=
  let* r := attr_of (root t) in
  TreeObject.find_highest fuel r t.

(** [pop_highest] *)
Definition pop_highest fuel t : outcome (option V * AvlTree K V) :=
  match root t with
  | None => Return (None, t)
  | Some r =>
    let* '(p, t) := TreeObject.pop_highest fuel r t in
    let* n := node t p in
    Return (Some (value n), t)
  end.

(** [find_lowest] *)
Definition find_lowest fuel t : outcome V :=
  let* r := attr_of (root t) in
  TreeObject.find_lowest fuel r t.

(** [pop_lowest] *)
Definition pop_lowest fuel t : outcome (option V * AvlTree K V) :=
  match root t with
  | None => Return (None, t)
  | Some r =>
    let* '(v, t) := TreeObject.pop_lowest fuel r t in
    Return (Some v, t)
  end.

(** [pop_all]: every turn of the [while] loop takes one unit of [fuel]. *)
Fixpoint pop_all_loop (turns : nat) fuel (ordered_tree : list V) t
    : outcome (list V * AvlTree K V) :=
  match root t with
  | None => Return (ordered_tree, t)
  | Some r =>
    match turns with
    | O => Undefined
    | S turns =>
      let* '(v, t) := TreeObject.pop_lowest fuel r t in
      pop_all_loop turns fuel (ordered_tree ++ [v]) t
    end
  end.

Definition pop_all fuel t : outcome (list V * AvlTree K V) :=
  pop_all_loop fuel fuel [] t.

(** [find_neighbors] *)
Definition find_neighbors fuel (k : K) t : outcome (option V * option V) :=
  match root t with
  | None => Return (None, None)
  | Some r => TreeObject.find_neighbors fuel r k t
  end.

(** [find_left_neighbor_by_pair] *)
Definition find_left_neighbor_by_pair fuel (k : K) (v : V) t : outcome (option V) :=
  match root t with
  | Some r =>
    except_AttributeError
      (let* o := TreeObject.find_left_neighbor_by_pair fuel r k v t in
       let* w := TreeObject.value_of o t in Return (Some w))
      (Return None)
  | None => Return None
  end.

(** [find_right_neighbor_by_pair] *)
Definition find_right_neighbor_by_pair fuel (k : K) (v : V) t : outcome (option V) :=
  match root t with
  | Some r =>
    except_AttributeError
      (let* o := TreeObject.find_right_neighbor_by_pair fuel r k v t in
       let* w := TreeObject.value_of o t in Return (Some w))
      (Return None)
  | None => Return None
  end.

(** [is_in] *)
Definition is_in fuel (k : K) t : outcome bool :=
  match root t with
  | Some r => TreeObject.is_in fuel r k t
  | None => Return false
  end.

End Methods.
End AvlTree.

(** ** Numbers

    The coordinates are Python numbers.  The code is written once over the
    operations it uses.  It computes in [float] (binary64, as CPython
    and numpy compute); [Qc] (exact rationals) are numbers whose
    comparisons form an order, for the properties that ask for one. *)

Class Number (F : Type) : Type := {
  n_add : F -> F -> F;
  n_sub : F -> F -> F;
  n_mul : F -> F -> F;
  n_div : F -> F -> F;
  n_abs : F -> F;
  n_ltb : F -> F -> bool;
  n_leb : F -> F -> bool;
  n_eqb : F -> F -> bool;
  n_isinf : F -> bool;
  n_zero : F;            (* 0 and 0.0 *)
  n_minus_one : F;       (* -1 *)
  n_hundredth : F;       (* 0.01 *)
  n_rel_tol : F          (* 1e-09 *)
}.

Declare Scope num_scope.
Delimit Scope num_scope with num.
Infix "+" := n_add : num_scope.
Infix "-" := n_sub : num_scope.
Infix "*" := n_mul : num_scope.
Infix "/" := n_div : num_scope.
Infix "<?" := n_ltb : num_scope.
Infix "<=?" := n_leb : num_scope.
Infix "=?" := n_eqb : num_scope.
Notation "a >? b" := (n_ltb b a) : num_scope.

#[export] Instance Number_float : Number float := {
  n_add := PrimFloat.add;
  n_sub := PrimFloat.sub;
  n_mul := PrimFloat.mul;
  n_div := PrimFloat.div;
  n_abs := PrimFloat.abs;
  n_ltb := PrimFloat.ltb;
  n_leb := PrimFloat.leb;
  n_eqb := PrimFloat.eqb;
  n_isinf := fun a => PrimFloat.eqb (PrimFloat.abs a) infinity;
  n_zero := 0%float;
  n_minus_one := (-1)%float;
  n_hundredth := 0.01%float;
  n_rel_tol := 1e-09%float
}.

Definition Qc_ltb (a b : Qc) : bool :=
  match (a ?= b)%Qc with Lt => true | _ => false end.

Definition Qc_leb (a b : Qc) : bool :=
  match (a ?= b)%Qc with Gt => false | _ => true end.

Definition Qc_eqb (a b : Qc) : bool := Qeq_bool a b.

#[export] Instance Number_Qc : Number Qc := {
  n_add := Qcplus;
  n_sub := Qcminus;
  n_mul := Qcmult;
  n_div := Qcdiv;
  n_abs := fun a => if Qc_ltb a (Q2Qc 0) then Qcopp a else a;
  n_ltb := Qc_ltb;
  n_leb := Qc_leb;
  n_eqb := Qc_eqb;
  n_isinf := fun _ => false;
  n_zero := Q2Qc 0;
  n_minus_one := Q2Qc (-1);
  n_hundredth := Q2Qc (1 # 100);
  n_rel_tol := Q2Qc (1 # 1000000000)
}.

(** Numbers as keys of a tree with the default comparator. *)
#[export] Instance PyKey_Number {F : Type} `{Number F} : PyKey F := {
  py_lt := n_ltb;
  py_eq := n_eqb;
  py_ne := fun a b => negb (n_eqb a b)
}.

(** ** What the code takes from numpy and math *)

Section Libraries.
Context {F : Type} `{Number F}.
Local Open Scope num_scope.

(** [math.isclose(a, b)] with the default tolerances
    ([rel_tol=1e-09], [abs_tol=0.0]). *)
Definition isclose (a b : F) : bool :=
  if a =? b then true
  else if n_isinf a || n_isinf b then false
  else
    let diff := n_abs (b - a) in
    (diff <=? n_abs (n_rel_tol * b)) || (diff <=? n_abs (n_rel_tol * a))
    || (diff <=? n_zero).

(** [np.linalg.solve] of the system [[a b] [c d]] (t, s) = (e, f): Gaussian
    elimination with a row exchange when the second row has the larger
    head.  [None] is [LinAlgError] (a pivot is zero).  The routine is not
    code of the repository, and the order in which a build of it rounds
    is not fixed by the source: what is proved below either runs it
    where no step rounds, or holds of whatever it returns. *)
Definition linalg_solve (a b c d e f : F) : option (F * F) :=
  let '(a, b, e, c, d, f) :=
    if n_abs a <? n_abs c then (c, d, f, a, b, e) else (a, b, e, c, d, f) in
  if a =? n_zero then None
  else
    let l := c / a in
    let u := d - l * b in
    if u =? n_zero then None
    else
      let s := (f - l * e) / u in
      let t := (e - b * s) / a in
      Some (t, s).

End Libraries.

(** ** [class Point], [class Line] *)

(** A point object: its coordinates, and the number under which it was
    allocated ([Point] defines no [__eq__], so [==], [!=] and [is] compare
    objects).  The attribute [line_segment] is written once and never
    read; it is left out. *)
Record Point (F : Type) : Type := mkPoint {
  x : F;
  y : F;
  oid : nat
}.
Arguments mkPoint {F}.
Arguments x {F}.
Arguments y {F}.
Arguments oid {F}.

(** A line object.  Its attribute [sweepline] is the one sweepline of the
    run, kept in the state of [FindIntersections] below. *)
Record Line (F : Type) : Type := mkLine {
  upper : Point F;
  lower : Point F;
  order : F
}.
Arguments mkLine {F}.
Arguments upper {F}.
Arguments lower {F}.
Arguments order {F}.

(** [is] on points.  [<] is not defined on points; the queue of events is
    always given [compare_events], so the default comparator is never
    called on them. *)
#[export] Instance PyObj_Point {F : Type} : PyObj (Point F) := {
  py_is := fun p q => Nat.eqb (oid p) (oid q)
}.

#[export] Instance PyKey_Point {F : Type} : PyKey (Point F) := {
  py_lt := fun _ _ => false;
  py_eq := fun p q => Nat.eqb (oid p) (oid q);
  py_ne := fun p q => negb (Nat.eqb (oid p) (oid q))
}.

Module Point.
Section Methods.
Context {F : Type} `{Number F}.
Local Open Scope num_scope.

(** [compare] *)
Definition compare (self point : Point F) : bool :=
  (x self =? x point) && (y self =? y point).

End Methods.
End Point.

Module Line.
Section Methods.
Context {F : Type} `{Number F}.
Local Open Scope num_scope.

(** [__init__] *)
Definition init (point1 point2 : Point F) : Line F :=
  if y point1 >? y point2 then mkLine point1 point2 n_zero
  else if y point1 <? y point2 then mkLine point2 point1 n_zero
  else if x point1 <? x point2 then mkLine point1 point2 n_zero
  else mkLine point2 point1 n_zero.

End Methods.
End Line.

(** ** Iteration over a Python set

    [list(s)] lists a set in an order the language does not fix.  The
    order is a parameter of the model. *)
Class SetOrder (F : Type) : Type := {
  list_of_points : list (F * F) -> list (F * F);
  list_of_segments : list nat -> list nat
}.

(** The order in which the elements were first met. *)
Definition SetOrder_first_met (F : Type) : SetOrder F := {|
  list_of_points := fun l => l;
  list_of_segments := fun l => l
|}.

(** What [line_intersection] returns: [None], a pair of coordinates, or
    the pair [(None, None)]. *)
Inductive intersection_result (F : Type) : Type :=
| NoIntersection
| IntersectionAt (ix iy : F)
| NonePair.
Arguments NoIntersection {F}.
Arguments IntersectionAt {F} ix iy.
Arguments NonePair {F}.

(** The object of class [FindIntersections] with what it reaches: the
    two trees, the sweepline, the line objects of the run (a segment is
    named by its index in [line_store]) and the number of points made so
    far. *)
Record FindIntersections (F : Type) : Type := mkFindIntersections {
  status_structure : AvlTree F nat;
  event_queue : AvlTree (Point F) (Point F);
  sweepline_position : F;
  line_store : list (Line F);
  points_made : nat
}.
Arguments mkFindIntersections {F}.
Arguments status_structure {F}.
Arguments event_queue {F}.
Arguments sweepline_position {F}.
Arguments line_store {F}.
Arguments points_made {F}.

(** Lists read and built by the loops of the driver. *)
Section Lists.
Context {A B : Type}.

Fixpoint for_each (f : A -> B -> outcome B) (l : list A) (b : B) : outcome B :=
  match l with
  | [] => Return b
  | a :: l => let* b := f a b in for_each f l b
  end.

Fixpoint map_each (f : A -> outcome B) (l : list A) : outcome (list B) :=
  match l with
  | [] => Return []
  | a :: l => let* b := f a in let* bs := map_each f l in Return (b :: bs)
  end.

End Lists.

(** [set(l)], listed in the order of first occurrence. *)
Fixpoint distinct {A : Type} (eqb : A -> A -> bool) (l : list A) : list A :=
  match l with
  | [] => []
  | a :: l => a :: List.filter (fun b => negb (eqb a b)) (distinct eqb l)
  end.

(** [l.sort(key=...)]: stable, comparing keys with [<]. *)
Section Sort.
Context {F : Type} `{Number F} {A : Type} (sort_key : A -> F).
Local Open Scope num_scope.

Fixpoint sort_insert (a : A) (sorted : list A) : list A :=
  match sorted with
  | [] => [a]
  | b :: rest =>
    if sort_key b <? sort_key a then b :: sort_insert a rest
    else a :: b :: rest
  end.

Fixpoint sort (l : list A) : list A :=
  match l with
  | [] => []
  | a :: l => sort_insert a (sort l)
  end.

End Sort.

(** ** [class FindIntersections] *)

Module FindIntersections.
Section Methods.
Context {F : Type} `{Number F} `{SetOrder F}.
Local Open Scope num_scope.
Implicit Types (st : FindIntersections F) (fuel : nat).

Definition set_status_structure st (s : AvlTree F nat) : FindIntersections F :=
  mkFindIntersections s (event_queue st) (sweepline_position st) (line_store st)
                      (points_made st).

Definition set_event_queue st (q : AvlTree (Point F) (Point F)) : FindIntersections F :=
  mkFindIntersections (status_structure st) q (sweepline_position st) (line_store st)
                      (points_made st).

Definition set_sweepline_position st (position : F) : FindIntersections F :=
  mkFindIntersections (status_structure st) (event_queue st) position (line_store st)
                      (points_made st).

(** [segment.order = value] *)
Definition set_order (segment : nat) (value : F) st : FindIntersections F :=
  mkFindIntersections (status_structure st) (event_queue st) (sweepline_position st)
    (alter (fun l => mkLine (upper l) (lower l) value) segment (line_store st))
    (points_made st).

(** [Point(x_position, y_position)] *)
Definition new_Point (x_position y_position : F) st : Point F * FindIntersections F :=
  (mkPoint x_position y_position (points_made st),
   mkFindIntersections (status_structure st) (event_queue st) (sweepline_position st)
                       (line_store st) (S (points_made st))).

(** The line object behind a segment. *)
Definition line_of st (segment : nat) : outcome (Line F) :=
  match line_store st !! segment with
  | Some l => Return l
  | None => Undefined
  end.

(** [compare_events] *)
Definition compare_events (key1 key2 : Point F) : bool :=
  if y key1 =? y key2 then x key1 <? x key2
  else y key1 >? y key2.

(** [event_equals] *)
Definition event_equals (key1 key2 : Point F) : bool :=
  (x key1 =? x key2) && (y key1 =? y key2).

(** [calculate_line_status_key]; [position] is
    [line.sweepline.sweepline_position]. *)
Definition calculate_line_status_key (position : F) (line : Line F) : F :=
  if x (lower line) =? x (upper line) then x (upper line)
  else if y (lower line) =? y (upper line) then x (upper line)
  else
    let m := (y (upper line) - y (lower line)) / (x (upper line) - x (lower line)) in
    let b := y (upper line) - x (upper line) * m in
    (position - b) / m.

(** [calculate_line_status] *)
Definition calculate_line_status (line : Line F) (position : F) : F :=
  let m := (y (upper line) - y (lower line)) / (x (upper line) - x (lower line)) in
  let b := y (upper line) - x (upper line) * m in
  (position - b) / m.

(** [lies_on_segment] *)
Definition lies_on_segment (segment : Line F) (point : Point F) : bool :=
  if (y point <? y (lower segment)) || (y point >? y (upper segment)) then false
  else
    let '(rightmost_point, leftmost_point) :=
      if x (lower segment) >? x (upper segment)
      then (lower segment, upper segment)
      else (upper segment, lower segment) in
    if (x point <? x leftmost_point) || (x point >? x rightmost_point) then false
    else
      let direction_x := x (upper segment) - x (lower segment) in
      let direction_y := y (upper segment) - y (lower segment) in
      let point_vector_x := x point - x (lower segment) in
      let point_vector_y := y point - y (lower segment) in
      if (direction_x =? n_zero) && (direction_y =? n_zero) then false
      else if direction_x =? n_zero then point_vector_x =? n_zero
      else if direction_y =? n_zero then point_vector_y =? n_zero
      else isclose (point_vector_x / direction_x) (point_vector_y / direction_y).

(** [line_intersection] *)
Definition line_intersection (segment1 segment2 : Line F) st
    : intersection_result F * FindIntersections F :=
  let p1 := (x (lower segment1), y (lower segment1)) in
  let v1 := (x (upper segment1) - x (lower segment1),
             y (upper segment1) - y (lower segment1)) in
  let p2 := (x (lower segment2), y (lower segment2)) in
  let v2 := (x (upper segment2) - x (lower segment2),
             y (upper segment2) - y (lower segment2)) in
  let v2 := (fst v2 * n_minus_one, snd v2 * n_minus_one) in
  (* matrix = transpose([v1, v2]), rhs = p2 - p1 *)
  match linalg_solve (fst v1) (fst v2) (snd v1) (snd v2)
                     (fst p2 - fst p1) (snd p2 - snd p1) with
  | Some (t, _) =>
    let intersection_point := (fst p1 + t * fst v1, snd p1 + t * snd v1) in
    let '(point, st) := new_Point (fst intersection_point) (snd intersection_point) st in
    if lies_on_segment segment1 point && lies_on_segment segment2 point
    then (IntersectionAt (fst intersection_point) (snd intersection_point), st)
    else (NoIntersection, st)
  | None => (NonePair, st)
  end.

(** [find_new_event] *)
Definition find_new_event fuel (left_segment right_segment : nat) (point : Point F) st
    : outcome (FindIntersections F) :=
  let* l := line_of st left_segment in
  let* r := line_of st right_segment in
  let '(intersection, st) := line_intersection l r st in
  match intersection with
  | NoIntersection => Return st
  | NonePair => Raise TypeError        (* None < point.y *)
  | IntersectionAt ix iy =>
    if (iy <? y point) || ((iy =? y point) && (ix >? x point)) then
      let '(intersection_point, st) := new_Point ix iy st in
      let* found := AvlTree.is_in fuel intersection_point (event_queue st) in
      if negb found then
        let* q := AvlTree.insert fuel (intersection_point, intersection_point)
                                 (event_queue st) in
        Return (set_event_queue st q)
      else Return st
    else Return st
  end.

(** [sort_by_sweepline_order] *)
Definition sort_by_sweepline_order (segments : list nat) st
    : outcome (list nat * FindIntersections F) :=
  match segments with
  | [] => Return (segments, st)
  | _ :: _ =>
    let sweepline_y := sweepline_position st in
    let* lines := map_each (line_of st) segments in
    let is_horizontal := fun l : Line F => y (upper l) =? y (lower l) in
    let is_vertical := fun l : Line F => x (upper l) =? x (lower l) in
    let horizontals :=
      map fst (List.filter (fun sl => is_horizontal (snd sl)) (zip segments lines)) in
    let segments :=
      list_of_segments
        (List.filter (fun s => negb (existsb (Nat.eqb s) horizontals))
                     (distinct Nat.eqb segments)) in
    let* lines := map_each (line_of st) segments in
    let verticals :=
      map fst (List.filter (fun sl => is_vertical (snd sl)) (zip segments lines)) in
    let segments :=
      list_of_segments
        (List.filter (fun s => negb (existsb (Nat.eqb s) verticals))
                     (distinct Nat.eqb segments)) in
    let* st := for_each (fun segment st =>
                 let* l := line_of st segment in
                 Return (set_order segment (x (upper l)) st)) verticals st in
    let* st := for_each (fun segment st =>
                 let* l := line_of st segment in
                 Return (set_order segment (calculate_line_status l sweepline_y) st))
                 segments st in
    let segments := segments ++ verticals in
    let* lines := map_each (line_of st) segments in
    let segments := map fst (sort (fun sl => order (snd sl)) (zip segments lines)) in
    let* st := for_each (fun segment st =>
                 match last segments with
                 | Some greatest =>
                   let* g := line_of st greatest in
                   Return (set_order segment (order g + n_hundredth) st)
                 | None =>
                   let* l := line_of st segment in
                   Return (set_order segment (x (upper l)) st)
                 end) horizontals st in
    Return (segments ++ horizontals, st)
  end.

(** The three lists filled by the first loop of [handle_event_points]. *)
Record classification : Type := mkClassification {
  lower_p : list nat;
  upper_p : list nat;
  contains_p : list nat
}.

(** One turn of [for segment in line_segments] in [handle_event_points]. *)
Definition classify fuel (event_point : Point F) (segment : nat)
    (acc : classification * FindIntersections F)
    : outcome (classification * FindIntersections F) :=
  let '(c, st) := acc in
  let* l := line_of st segment in
  if Point.compare (upper l) event_point then
    Return (mkClassification (lower_p c) (upper_p c ++ [segment]) (contains_p c), st)
  else if Point.compare (lower l) event_point then
    let c := mkClassification (lower_p c ++ [segment]) (upper_p c) (contains_p c) in
    let* s := AvlTree.remove_pair fuel
                (calculate_line_status_key (sweepline_position st) l) segment
                (status_structure st) in
    Return (c, set_status_structure st s)
  else if lies_on_segment l event_point then
    let c := mkClassification (lower_p c) (upper_p c) (contains_p c ++ [segment]) in
    let* s := AvlTree.remove_pair fuel
                (calculate_line_status_key (sweepline_position st) l) segment
                (status_structure st) in
    Return (c, set_status_structure st s)
  else Return (c, st).

(** The two loops of [handle_event_points] that look for the leftmost and
    the rightmost segment; [extreme] holds [leftmost_segment],
    [leftmost_point], [rightmost_segment] and [rightmost_point]. *)
Definition extreme : Type := (nat * F) * (nat * F).

Definition widen (segment : nat) (at_x : F) (e : extreme) : extreme :=
  let '((leftmost_segment, leftmost_point), (rightmost_segment, rightmost_point)) := e in
  let '(leftmost_segment, leftmost_point) :=
    if at_x <? leftmost_point then (segment, at_x)
    else (leftmost_segment, leftmost_point) in
  let '(rightmost_segment, rightmost_point) :=
    if at_x >? rightmost_point then (segment, at_x)
    else (rightmost_segment, rightmost_point) in
  ((leftmost_segment, leftmost_point), (rightmost_segment, rightmost_point)).

(** [handle_event_points], lines 269 to 271: the status structure is
    emptied and filled again with the keys of the new sweepline. *)
Definition rekey fuel st : outcome (FindIntersections F) :=
  let* '(ordered_segments, s) := AvlTree.pop_all fuel (status_structure st) in
  let* keyed := map_each (fun segment =>
                  let* l := line_of st segment in
                  Return (calculate_line_status_key (sweepline_position st) l, segment))
                  ordered_segments in
  let* s := snd (AvlTree.insert_list fuel keyed s) in
  Return (set_status_structure st s).

(** [handle_event_points], lines 286 and 287. *)
Definition insert_ordered fuel (upper_contains_p : list nat) st
    : outcome (FindIntersections F) :=
  let* keyed := map_each (fun segment =>
                  let* l := line_of st segment in Return (order l, segment))
                  upper_contains_p in
  let* s := snd (AvlTree.insert_list fuel keyed (status_structure st)) in
  Return (set_status_structure st s).

(** [handle_event_points], lines 291 to 322: the neighbours are tested
    for new events. *)
Definition test_neighbors fuel (event_point : Point F) (c : classification)
    (upper_contains_p : list nat) st : outcome (FindIntersections F) :=
  if Nat.eqb (length (upper_p c ++ contains_p c)) 0 then
    let* '(left_segment, right_segment) :=
      AvlTree.find_neighbors fuel (x event_point) (status_structure st) in
    match left_segment, right_segment with
    | Some left_segment, Some right_segment =>
      find_new_event fuel left_segment right_segment event_point st
    | _, _ => Return st
    end
  else
    match upper_contains_p with
    | [] => Undefined            (* upper_contains_p[0] *)
    | first :: _ =>
      let* fl := line_of st first in
      let e : extreme := ((first, x (upper fl)), (first, x (upper fl))) in
      let* e := for_each (fun segment e =>
                  let* l := line_of st segment in
                  Return (widen segment (x (upper l)) e)) (upper_p c) e in
      let* e := for_each (fun segment e =>
                  let* l := line_of st segment in
                  Return (widen segment
                            (calculate_line_status_key (sweepline_position st) l) e))
                  (contains_p c) e in
      let leftmost_segment := fst (fst e) in
      let rightmost_segment := fst (snd e) in
      let* ll := line_of st leftmost_segment in
      let* left_neighbor :=
        AvlTree.find_left_neighbor_by_pair fuel
          (calculate_line_status_key (sweepline_position st) ll) leftmost_segment
          (status_structure st) in
      let* st :=
        match left_neighbor with
        | Some left_neighbor =>
          if negb (Nat.eqb left_neighbor leftmost_segment)
          then find_new_event fuel left_neighbor leftmost_segment event_point st
          else Return st
        | None => Return st
        end in
      let* rl := line_of st rightmost_segment in
      let* right_neighbor :=
        AvlTree.find_right_neighbor_by_pair fuel
          (calculate_line_status_key (sweepline_position st) rl) rightmost_segment
          (status_structure st) in
      match right_neighbor with
      | Some right_neighbor =>
        if negb (Nat.eqb right_neighbor rightmost_segment)
        then find_new_event fuel right_neighbor rightmost_segment event_point st
        else Return st
      | None => Return st
      end
    end.

(** [handle_event_points]; [intersection_list] is the list the caller
    passed, returned with what was appended to it. *)
Definition handle_event_points fuel (event_point : Point F) (line_segments : list nat)
    (intersection_list : list (Point F * list nat)) st
    : outcome (list (Point F * list nat) * FindIntersections F) :=
  let st := set_sweepline_position st (y event_point) in
  let* st := rekey fuel st in
  let* '(c, st) := for_each (classify fuel event_point) line_segments
                            (mkClassification [] [] [], st) in
  let st := set_sweepline_position st (sweepline_position st - n_hundredth) in
  let* '(upper_contains_p, st) :=
    sort_by_sweepline_order (upper_p c ++ contains_p c) st in
  let* st := insert_ordered fuel upper_contains_p st in
  let potential_segments := upper_contains_p ++ lower_p c in
  let intersection_list :=
    if Nat.ltb 1 (length potential_segments)
    then intersection_list ++ [(event_point, potential_segments)]
    else intersection_list in
  let* st := test_neighbors fuel event_point c upper_contains_p st in
  Return (intersection_list, set_sweepline_position st (y event_point)).

(** [find_intersections]: the [while] loop, one unit of [turns] a turn. *)
Fixpoint find_intersections_loop (turns : nat) fuel (line_segments : list nat)
    (intersections : list (Point F * list nat)) st
    : outcome (list (Point F * list nat)) :=
  match root (event_queue st) with
  | None => Return intersections
  | Some _ =>
    match turns with
    | O => Undefined
    | S turns =>
      let* '(next_event_point, q) := AvlTree.pop_lowest fuel (event_queue st) in
      let* next_event_point := attr_of next_event_point in
      let st := set_event_queue st q in
      let* '(intersections, st) :=
        handle_event_points fuel next_event_point line_segments intersections st in
      find_intersections_loop turns fuel line_segments intersections st
    end
  end.

Definition find_intersections fuel (line_segments : list nat) (event_points : list (Point F))
    st : outcome (list (Point F * list nat)) :=
  let intersections := [] in
  let* q := snd (AvlTree.init fuel (map (fun event_point => (event_point, event_point))
                                        event_points)
                              (Some compare_events) (Some event_equals)) in
  let st := set_event_queue st q in
  let* s := snd (AvlTree.init fuel [] None None) in
  let st := set_status_structure st s in
  find_intersections_loop fuel fuel line_segments intersections st.

(** [line_factory]: makes the line objects and stores them; returns the
    list of the segments. *)
Fixpoint line_factory (lines : list ((F * F) * (F * F))) st : list nat * FindIntersections F :=
  match lines with
  | [] => ([], st)
  | line :: lines =>
    let '(p1, st) := new_Point (fst (fst line)) (snd (fst line)) st in
    let '(p2, st) := new_Point (fst (snd line)) (snd (snd line)) st in
    let segment := length (line_store st) in
    let st := mkFindIntersections (status_structure st) (event_queue st)
                (sweepline_position st) (line_store st ++ [Line.init p1 p2])
                (points_made st) in
    let '(line_segments, st) := line_factory lines st in
    (segment :: line_segments, st)
  end.

(** [event_point_factory] *)
Definition event_point_factory (lines : list ((F * F) * (F * F))) st
    : list (Point F) * FindIntersections F :=
  let same := fun p q : F * F => (fst p =? fst q) && (snd p =? snd q) in
  let event_points :=
    list_of_points (distinct same (map fst lines ++ map snd lines)) in
  fold_left (fun acc event_point =>
               let '(p, st) := new_Point (fst event_point) (snd event_point) (snd acc) in
               (fst acc ++ [p], st))
            event_points ([], st).

(** The object when [search_intersections] has made the sweepline: no
    line and no point yet.  Its two trees are replaced by
    [find_intersections] before they are used. *)
Definition fresh : FindIntersections F :=
  mkFindIntersections
    (mkAvlTree None AvlTree.default_comparator AvlTree.default_equals [])
    (mkAvlTree None compare_events event_equals [])
    n_zero [] 0.

(** [search_intersections] *)
Definition search_intersections fuel (lines : list ((F * F) * (F * F)))
    : outcome (list (Point F * list nat)) :=
  let st := fresh in
  let '(line_segments, st) := line_factory lines st in
  let '(event_points, st) := event_point_factory lines st in
  find_intersections fuel line_segments event_points st.

End Methods.
End FindIntersections.

(** ** What a tree stores

    The pairs reachable from the root, in order (left subtree, node,
    right subtree).  The statements below speak about trees through it. *)

Section Stored.
Context {K V : Type}.

Fixpoint stored_below (fuel : nat) (o : option ref) (t : AvlTree K V)
    : outcome (list (K * V)) :=
  match o with
  | None => Return []
  | Some p =>
    match fuel with
    | O => Undefined
    | S fuel =>
      let* n := node t p in
      let* l := stored_below fuel (left_child n) t in
      let* r := stored_below fuel (right_child n) t in
      Return (l ++ (key n, value n) :: r)
    end
  end.

Definition stored (fuel : nat) (t : AvlTree K V) : outcome (list (K * V)) :=
  stored_below fuel (root t) t.

End Stored.

(** The tree [AvlTree(elements=[], comparator=None, equals=None)]. *)
Definition empty_tree {K V : Type} `{PyKey K} : AvlTree K V :=
  mkAvlTree None AvlTree.default_comparator AvlTree.default_equals [].

(** The tree with integer keys obtained from the empty tree by
    [insert_list(elements)]; values are named by numbers. *)
Definition tree_of (elements : list (Z * nat)) : outcome (AvlTree Z nat) :=
  snd (AvlTree.insert_list 20 elements empty_tree).

(** The system that [line_intersection] hands to [np.linalg.solve]; [None]
    when it is found singular. *)
Definition system_of {F : Type} `{Number F} (segment1 segment2 : Line F) : option (F * F) :=
  linalg_solve (x (upper segment1) - x (lower segment1))%num
               ((x (upper segment2) - x (lower segment2)) * n_minus_one)%num
               (y (upper segment1) - y (lower segment1))%num
               ((y (upper segment2) - y (lower segment2)) * n_minus_one)%num
               (x (lower segment2) - x (lower segment1))%num
               (y (lower segment2) - y (lower segment1))%num.

(** Two vertical segments, side by side. *)
Definition two_verticals : list ((float * float) * (float * float)) :=
  [((0, 0), (0, 2)); ((1, 0), (1, 2))]%float.

(** ** Trees in the store *)

(** A tree of nodes: which node is where, with its key and its value. *)
Inductive tree (K V : Type) : Type :=
| Leaf
| Node (l : tree K V) (p : ref) (k : K) (v : V) (r : tree K V).
Arguments Leaf {K V}.
Arguments Node {K V} l p k v r.

Section Shape.
Context {K V : Type}.

Definition top (T : tree K V) : option ref :=
  match T with
  | Leaf => None
  | Node _ p _ _ _ => Some p
  end.

Fixpoint refs (T : tree K V) : list ref :=
  match T with
  | Leaf => []
  | Node l p _ _ r => refs l ++ p :: refs r
  end.

(** The pairs of [T], in order. *)
Fixpoint items (T : tree K V) : list (K * V) :=
  match T with
  | Leaf => []
  | Node l _ k v r => items l ++ (k, v) :: items r
  end.

Definition keys (T : tree K V) : list K := map fst (items T).

Fixpoint height (T : tree K V) : nat :=
  match T with
  | Leaf => 0
  | Node l _ _ _ r => S (Nat.max (height l) (height r))
  end.

(** The nodes of [T] are in the store with the keys, the values, the
    children and the parents that [T] gives them; [up] is the parent of
    the top node. *)
Fixpoint shape (h : list (TreeObject K V)) (up : option ref) (T : tree K V) : Prop :=
  match T with
  | Leaf => True
  | Node l p k v r =>
    exists n, h !! p = Some n /\ key n = k /\ value n = v /\ parent n = up /\
              left_child n = top l /\ right_child n = top r /\
              shape h (Some p) l /\ shape h (Some p) r
  end.

(** [t] is the tree [T]: its root is the top of [T], and no node occurs
    twice. *)
Definition rooted (t : AvlTree K V) (T : tree K V) : Prop :=
  root t = top T /\ shape (objects t) None T /\ NoDup (refs T).

(** Every node of [T] holds the comparator and the equals of the tree. *)
Definition uniform (t : AvlTree K V) (T : tree K V) : Prop :=
  forall p n, p ∈ refs T -> objects t !! p = Some n ->
    comparator n = Some (tree_comparator t) /\ equals n = Some (tree_equals t).

(** No node of [T] has a key equal to [k]. *)
Definition absent (t : AvlTree K V) (T : tree K V) (k : K) : Prop :=
  forall k', k' ∈ keys T -> tree_equals t k k' = false.

(** The values next to the place of [k] among [items], which are in
    order: the last item that [k] is not below and the first item that
    [k] is below. *)
Definition neighbors_in_order (less : K -> K -> bool) (k : K) (items : list (K * V))
    : option V * option V :=
  (last (map snd (List.filter (fun kv => negb (less k (fst kv))) items)),
   head (map snd (List.filter (fun kv => less k (fst kv)) items))).
End Shape.

(** The tree made by [insert_list([(2, a), (1, b), (4, c)])] on the empty
    tree. *)
Definition three_nodes : AvlTree Z nat :=
  mkAvlTree (Some 0%nat) AvlTree.default_comparator AvlTree.default_equals
    [mkTreeObject 2%Z 20%nat (Some 1%nat) (Some 2%nat) None
       (Some AvlTree.default_comparator) (Some AvlTree.default_equals);
     mkTreeObject 1%Z 10%nat None None (Some 0%nat)
       (Some AvlTree.default_comparator) (Some AvlTree.default_equals);
     mkTreeObject 4%Z 30%nat None None (Some 0%nat)
       (Some AvlTree.default_comparator) (Some AvlTree.default_equals)].


(** What the model asks of the order of a set: it lists the elements it
    was given, each once. *)
Class SetOrderLaws {F : Type} (O : SetOrder F) : Prop := {
  list_of_points_perm : forall l, list_of_points l ≡ₚ l;
  list_of_segments_perm : forall l, list_of_segments l ≡ₚ l
}.

(** Two segments that cross at (1, 1). *)
Definition crossing : list ((float * float) * (float * float)) :=
  [((0, 0), (2, 2)); ((0, 2), (2, 0))]%float.

(** ** Partial correctness

    [on_return m Q]: if [m] returns, what it returns satisfies [Q]. *)
Definition on_return {A : Type} (m : outcome A) (Q : A -> Prop) : Prop :=
  forall a, m = Return a -> Q a.

(** ** Trees under an order of the keys *)

(** The laws of a comparator and an equals that order the keys: [less] is
    a strict order, total up to [same], and [same] respects it. *)
Record strict_total_order {K : Type} (less same : K -> K -> bool) : Prop := {
  less_trans : forall a b c, less a b = true -> less b c = true -> less a c = true;
  less_total : forall a b, less a b = false -> same a b = false -> less b a = true;
  less_asym : forall a b, less a b = true -> less b a = false;
  same_less_l : forall a b c, same a b = true -> less a c = less b c;
  same_less_r : forall a b c, same a b = true -> less c a = less c b
}.

Section Invariants.
Context {K V : Type}.
Implicit Types (t : AvlTree K V) (n : TreeObject K V) (p q : ref).

(** The node [n'] is [n] up to its three references. *)
Definition same_node n n' : Prop :=
  key n' = key n /\ value n' = value n /\
  comparator n' = comparator n /\ equals n' = equals n.

(** [t'] has the nodes of [t], each up to its references, and the
    comparator and equals of [t]. *)
Definition same_data t t' : Prop :=
  tree_comparator t' = tree_comparator t /\ tree_equals t' = tree_equals t /\
  length (objects t') = length (objects t) /\
  forall q n, objects t !! q = Some n ->
    exists n', objects t' !! q = Some n' /\ same_node n n'.

(** What [simple_rot_right] and [simple_rot_left] write into the parent of
    [self]. *)
Definition replace_child (self : ref) (o : option ref) n : TreeObject K V :=
  if is_ref (right_child n) self then with_right_child o n else with_left_child o n.

(** [o.parent = v] when [o] is not [None]. *)
Definition set_parent_of t (o : option ref) (v : option ref) : AvlTree K V :=
  match o with
  | Some q => set_parent t q v
  | None => t
  end.

(** The assignment to [self.parent.right_child] or [self.parent.left_child]
    in the rotations. *)
Definition set_child_of t (u : ref) (self : ref) (o : option ref) : outcome (AvlTree K V) :=
  let* pn := node t u in
  Return (if is_ref (right_child pn) self
          then set_right_child t u o else set_left_child t u o).

(** [p] is a child of the node [up], which is outside [T]. *)
Definition hangs t (up : option ref) (p : ref) (T : tree K V) : Prop :=
  forall u, up = Some u ->
    (u ∉ refs T) /\
    exists un, objects t !! u = Some un /\
               (left_child un = Some p \/ right_child un = Some p).

Section Keys.
Context (less same : K -> K -> bool).

(** Every node of [T] holds [less] and [same]. *)
Definition holds t (T : tree K V) : Prop :=
  forall q n, q ∈ refs T -> objects t !! q = Some n ->
    comparator n = Some less /\ equals n = Some same.

(** Every node of the store holds [less] and [same]. *)
Definition holds_all t : Prop :=
  forall q n, objects t !! q = Some n ->
    comparator n = Some less /\ equals n = Some same.

(** [t] is the search tree [T] for [less] and [same]. *)
Definition ordered t (T : tree K V) : Prop :=
  rooted t T /\ holds_all t /\ tree_comparator t = less /\ tree_equals t = same /\
  StronglySorted (fun a b => less a b = true) (keys T).

(** Each key of [ks] differs from the keys before it and from those of
    [existing]. *)
Fixpoint fresh_each (ks existing : list K) : Prop :=
  match ks with
  | [] => True
  | k :: ks =>
    (forall k', k' ∈ existing -> same k k' = false) /\ fresh_each ks (k :: existing)
  end.

End Keys.
End Invariants.

(** ** The order of the sweep *)

(** The comparisons of the numbers order them: [<] is a strict order,
    total up to [==], and [==] is an equivalence that [<] respects. *)
Class NumberOrder (F : Type) `{Number F} : Prop := {
  n_eqb_refl : forall a : F, n_eqb a a = true;
  n_eqb_sym : forall a b : F, n_eqb a b = n_eqb b a;
  n_eqb_trans : forall a b c : F, n_eqb a b = true -> n_eqb b c = true -> n_eqb a c = true;
  n_ltb_trans : forall a b c : F, n_ltb a b = true -> n_ltb b c = true -> n_ltb a c = true;
  n_ltb_total : forall a b : F, n_ltb a b = false -> n_eqb a b = false -> n_ltb b a = true;
  n_ltb_asym : forall a b : F, n_ltb a b = true -> n_ltb b a = false;
  n_eqb_ltb_l : forall a b c : F, n_eqb a b = true -> n_ltb a c = n_ltb b c;
  n_eqb_ltb_r : forall a b c : F, n_eqb a b = true -> n_ltb c a = n_ltb c b
}.

(** [p] comes before [q] in the order of the sweep: [p] is higher, or as
    high and further left. *)
Definition sweep_before {F : Type} `{Number F} (p q : Point F) : Prop :=
  n_ltb (y q) (y p) = true \/ (n_eqb (y p) (y q) = true /\ n_ltb (x p) (x q) = true).

Section Events.
Context {F : Type} `{Number F}.
Implicit Types (p : Point F) (q : AvlTree (Point F) (Point F)).

(** [q] is an ordered tree of events, each stored under itself, all of
    which satisfy [P]. *)
Definition queue_of (P : Point F -> Prop) q : Prop :=
  exists T, ordered FindIntersections.compare_events FindIntersections.event_equals q T /\
    Forall (fun kv => snd kv = fst kv) (items T) /\
    Forall P (keys T).

(** The events after [p]. *)
Definition after p : Point F -> Prop :=
  fun k => FindIntersections.compare_events p k = true.

(** What holds when a turn of the loop of [find_intersections] begins:
    the records are in the order of the sweep and every event of the
    queue comes after each of them. *)
Definition loop_inv (recs : list (Point F * list nat)) q : Prop :=
  StronglySorted (fun r1 r2 : Point F * list nat => sweep_before (fst r1) (fst r2)) recs /\
  queue_of (fun k => forall r, r ∈ recs ->
                     FindIntersections.compare_events (fst r) k = true) q.

Definition coordinates p : F * F := (x p, y p).

End Events.

(** Three segments in exact arithmetic: two diagonals of a square and a
    horizontal that crosses them. *)
Definition three_segments : list ((Qc * Qc) * (Qc * Qc)) :=
  let q := fun n : Z => Q2Qc (inject_Z n) in
  [((q 0, q 0), (q 4, q 4)); ((q 0, q 4), (q 4, q 0)); ((q 0, q 1), (q 4, q 1))]%Z.

(** ** Trees and segments of the properties below *)

(** The tree [three_nodes] as a tree of pairs. *)
Definition three_nodes_tree : tree Z nat :=
  Node (Node Leaf 1%nat 1%Z 10%nat Leaf) 0%nat 2%Z 20%nat (Node Leaf 2%nat 4%Z 30%nat Leaf).

(** The tree made by [insert_list([(2, a), (1, b)])] on the empty tree:
    the root has a left child and no right child. *)
Definition two_nodes : AvlTree Z nat :=
  mkAvlTree (Some 0%nat) AvlTree.default_comparator AvlTree.default_equals
    [mkTreeObject 2%Z 20%nat (Some 1%nat) None None
       (Some AvlTree.default_comparator) (Some AvlTree.default_equals);
     mkTreeObject 1%Z 10%nat None None (Some 0%nat)
       (Some AvlTree.default_comparator) (Some AvlTree.default_equals)].

Section Misses.
Context {K V : Type} (less same : K -> K -> bool).

(** The search of [remove] for [k0] in [T] goes to the left at every node
    ([dir] is [true]) or to the right at every node, and finds [k0] at
    none. *)
Fixpoint misses (dir : bool) (k0 : K) (T : tree K V) : Prop :=
  match T with
  | Leaf => True
  | Node l _ k _ r =>
    same k k0 = false /\ less k k0 = dir /\ misses dir k0 (if dir then l else r)
  end.

End Misses.

(** A segment in exact arithmetic, from (0, 0) to (4, 4). *)
Definition rising : Line Qc :=
  let q := fun n : Z => Q2Qc (inject_Z n) in
  mkLine (mkPoint (q 4%Z) (q 4%Z) 1) (mkPoint (q 0%Z) (q 0%Z) 0) (q 0%Z).

(** The point [(px, py)] is in the box of the endpoints of [segment], by
    the comparisons of the code: not below the lower endpoint, not above
    the upper one, not to the left of both endpoints and not to the right
    of both. *)
Definition inside_box {F : Type} `{Number F} (segment : Line F) (px py : F) : Prop :=
  n_ltb py (y (lower segment)) = false /\
  n_ltb (y (upper segment)) py = false /\
  n_ltb px (x (lower segment)) && n_ltb px (x (upper segment)) = false /\
  n_ltb (x (lower segment)) px && n_ltb (x (upper segment)) px = false.

(** The two segments of [crossing] as line objects. *)
Definition rising_float : Line float :=
  (mkLine (mkPoint 2 2 1) (mkPoint 0 0 0) 0)%float.

Definition falling_float : Line float :=
  (mkLine (mkPoint 0 2 2) (mkPoint 2 0 3) 0)%float.

(** Two segments that cross at (5, 5), and a vertical one above the
    crossing. *)
Definition lost_crossing : list ((float * float) * (float * float)) :=
  [((0, 10), (10, 0)); ((10, 10), (0, 0)); ((5, 12), (5, 7))]%float.


(** The endpoints of the line objects of a run. *)
Definition endpoints {F : Type} (store : list (Line F)) : list (Point F * Point F) :=
  map (fun l => (upper l, lower l)) store.

(** The tests by which [handle_event_points] sorts the segments at an
    event point: the point is the upper endpoint of the segment; or else
    its lower endpoint; or else it lies on the segment. *)
Definition is_upper {F : Type} `{Number F} (l : Line F) (p : Point F) : bool :=
  Point.compare (upper l) p.

Definition is_lower {F : Type} `{Number F} (l : Line F) (p : Point F) : bool :=
  negb (Point.compare (upper l) p) && Point.compare (lower l) p.

Definition is_inner {F : Type} `{Number F} (l : Line F) (p : Point F) : bool :=
  negb (Point.compare (upper l) p) && negb (Point.compare (lower l) p)
  && FindIntersections.lies_on_segment l p.

(** One of the three holds. *)
Definition touches {F : Type} `{Number F} (l : Line F) (p : Point F) : bool :=
  Point.compare (upper l) p
  || (Point.compare (lower l) p || FindIntersections.lies_on_segment l p).

(** A test on the segment of number [s] among the line objects [store]. *)
Definition pick {F : Type} (test : Line F -> Point F -> bool) (store : list (Line F))
    (p : Point F) (s : nat) : bool :=
  match store !! s with
  | Some l => test l p
  | None => false
  end.

Definition touching {F : Type} `{Number F} (store : list (Line F)) (p : Point F)
    (s : nat) : bool :=
  pick touches store p s.

(** What [handle_event_points] records at the point [p] when the
    segments are [line_segments]: two segments or more, those that touch
    [p]. *)
Definition recorded {F : Type} `{Number F} (store : list (Line F))
    (line_segments : list nat) (r : Point F * list nat) : Prop :=
  2 <= length (snd r) /\
  snd r ≡ₚ List.filter (touching store (fst r)) line_segments.

(** What the first loop of [handle_event_points] has made when it has
    looked at the segments [done]: the three lists hold the segments of
    [done] of the three kinds, in the order of [done]. *)
Definition classified {F : Type} `{Number F} (store : list (Line F)) (p : Point F)
    (done : list nat) (res : FindIntersections.classification * FindIntersections F)
    : Prop :=
  endpoints (line_store (snd res)) = endpoints store /\
  FindIntersections.upper_p (fst res) = List.filter (pick is_upper store p) done /\
  FindIntersections.lower_p (fst res) = List.filter (pick is_lower store p) done /\
  FindIntersections.contains_p (fst res) = List.filter (pick is_inner store p) done.

(** * Properties *)

(** ** Equality of rationals *)

Lemma Qc_eqb_true (a b : Qc) : Qc_eqb a b = true <-> a = b.
Proof.
  unfold Qc_eqb. rewrite Qeq_bool_iff. split.
  - apply Qc_is_canon.
  - now intros ->.
Qed.

Lemma Qc_eqb_false (a b : Qc) : Qc_eqb a b = false <-> a <> b.
Proof.
  rewrite <- Qc_eqb_true. destruct (Qc_eqb a b); split; congruence.
Qed.

(** ** The key of a segment in the status structure *)



(** In exact arithmetic the value that the code computes is the formula
    [upper.x + (y_sweep - upper.y) * (upper.x - lower.x) / (upper.y - lower.y)]:
    the two differ by the rounding alone. *)
Lemma calculate_line_status_key_value (position : Qc) (line : Line Qc) :
  let ux := x (upper line) in
  let uy := y (upper line) in
  let lx := x (lower line) in
  let ly := y (lower line) in
  let k := FindIntersections.calculate_line_status_key position line in
  (ux = lx -> k = ux) /\
  (uy = ly -> k = ux) /\
  (ux <> lx -> uy <> ly ->
   k = (ux + (position - uy) * (ux - lx) / (uy - ly))%Qc).
Proof.
  intros ux uy lx ly k. subst k.
  unfold FindIntersections.calculate_line_status_key.
  cbn [n_eqb n_sub n_div n_mul Number_Qc].
  fold ux uy lx ly.
  destruct (Qc_eqb lx ux) eqn:Ex.
  { apply Qc_eqb_true in Ex. repeat split; congruence. }
  apply Qc_eqb_false in Ex.
  destruct (Qc_eqb ly uy) eqn:Ey.
  { apply Qc_eqb_true in Ey. repeat split; congruence. }
  apply Qc_eqb_false in Ey.
  repeat split; try congruence.
  intros _ _.
  field. split; intros E.
  - apply Ey. symmetry. transitivity ((uy - ly) + ly)%Qc; [ring | rewrite E; ring].
  - apply Ex. symmetry. transitivity ((ux - lx) + lx)%Qc; [ring | rewrite E; ring].
Qed.

(** ** The caller's list *)

Section CallerList.
Context {K V : Type} `{PyKey K} `{PyObj V}.

Lemma insert_list_with_root fuel (elements : list (K * V)) (t : AvlTree K V) r :
  root t = Some r ->
  fst (AvlTree.insert_list fuel elements t) = elements.
Proof.
  intros Hr. destruct fuel, elements; simpl; try reflexivity; rewrite Hr; reflexivity.
Qed.

(** C10.  The constructor called with a non-empty list, and [insert_list]
    called with a non-empty list on a tree without root, leave the
    caller's list without its first element, whatever else the call
    does. *)
Theorem elements_lose_their_first fuel (element : K * V) (rest : list (K * V))
    (comparator equals : option (K -> K -> bool)) :
  fst (AvlTree.init fuel (element :: rest) comparator equals) = rest /\
  (forall t : AvlTree K V, root t = None ->
     fst (AvlTree.insert_list fuel (element :: rest) t) = rest).
Proof.
  split.
  - unfold AvlTree.init. cbn [new_TreeObject objects length app].
    destruct rest as [|e' rest]; [reflexivity|].
    cbn [length Nat.ltb Nat.leb].
    now apply insert_list_with_root with (r := 0%nat).
  - intros t Ht. destruct fuel; cbn [AvlTree.insert_list]; rewrite Ht;
      cbn [new_TreeObject];
      destruct rest as [|e' rest]; try reflexivity; cbn [length Nat.eqb negb].
    now apply insert_list_with_root with (r := length (objects t)).
Qed.

End CallerList.

(** ** Removal and insertion on small trees *)

(** C5.  [remove] on the tree without root raises [AttributeError]:
    [AvlTree.remove] reads [self.root.remove] without the test that
    [remove_pair] makes. *)
Theorem remove_on_empty_tree_raises {K V : Type} `{PyKey K} `{PyObj V}
    (fuel : nat) (k : K) :
  AvlTree.remove fuel k (empty_tree : AvlTree K V) = Raise AttributeError.
Proof. reflexivity. Qed.

Section SmallTrees.
Local Open Scope Z_scope.

(** C6.  After [insert] of the pair (1, v) into the tree that holds
    exactly (1, v), with the same object v, the tree holds the pair
    twice. *)
Theorem insert_same_pair_twice :
  bind (tree_of [(1, 10%nat)]) (stored 20) = Return [(1, 10%nat)] /\
  bind (bind (tree_of [(1, 10%nat)]) (AvlTree.insert 20 (1, 10%nat))) (stored 20)
  = Return [(1, 10%nat); (1, 10%nat)].
Proof. split; reflexivity. Qed.

(** C4.  In the tree made of (1, a), (1, b), (1, c), [remove_pair(1, a)]
    leaves the node of a in place and removes the node of c. *)
Theorem remove_pair_removes_another_node :
  bind (tree_of [(1, 10%nat); (1, 11%nat); (1, 12%nat)]) (stored 20)
  = Return [(1, 10%nat); (1, 11%nat); (1, 12%nat)] /\
  bind (bind (tree_of [(1, 10%nat); (1, 11%nat); (1, 12%nat)])
             (AvlTree.remove_pair 20 1 10%nat)) (stored 20)
  = Return [(1, 10%nat); (1, 11%nat)].
Proof. split; reflexivity. Qed.

(** C9.  In the tree made of (2, b), (1, a), (3, c), [remove_pair(1, a)]
    removes nothing, and the [insert] of (1, a) that follows stores the
    pair a second time. *)
Theorem remove_pair_then_insert_duplicates :
  bind (tree_of [(2, 20%nat); (1, 10%nat); (3, 30%nat)]) (stored 20)
  = Return [(1, 10%nat); (2, 20%nat); (3, 30%nat)] /\
  bind (bind (tree_of [(2, 20%nat); (1, 10%nat); (3, 30%nat)])
             (AvlTree.remove_pair 20 1 10%nat)) (stored 20)
  = Return [(1, 10%nat); (2, 20%nat); (3, 30%nat)] /\
  bind (bind (bind (tree_of [(2, 20%nat); (1, 10%nat); (3, 30%nat)])
                   (AvlTree.remove_pair 20 1 10%nat))
             (AvlTree.insert 20 (1, 10%nat))) (stored 20)
  = Return [(1, 10%nat); (1, 10%nat); (2, 20%nat); (3, 30%nat)].
Proof. repeat split; reflexivity. Qed.

End SmallTrees.

(** ** Parallel segments *)

Section Singular.
Context {F : Type} `{Number F}.

Lemma line_intersection_singular (segment1 segment2 : Line F) st :
  system_of segment1 segment2 = None ->
  FindIntersections.line_intersection segment1 segment2 st = (NonePair, st).
Proof.
  unfold system_of, FindIntersections.line_intersection. cbn [fst snd].
  now intros ->.
Qed.

Lemma find_new_event_singular fuel (l r : nat) (segment1 segment2 : Line F)
    (point : Point F) st :
  line_store st !! l = Some segment1 ->
  line_store st !! r = Some segment2 ->
  system_of segment1 segment2 = None ->
  FindIntersections.find_new_event fuel l r point st = Raise TypeError.
Proof.
  intros Hl Hr Hs. unfold FindIntersections.find_new_event, FindIntersections.line_of.
  rewrite Hl, Hr. cbn [bind].
  now rewrite (line_intersection_singular _ _ _ Hs).
Qed.

End Singular.

(** C3.  For the two vertical segments from (0, 0) to (0, 2) and from
    (1, 0) to (1, 2), [line_intersection] returns the pair (None, None),
    [find_new_event] raises [TypeError], and so does
    [search_intersections] on the two segments. *)
Theorem parallel_segments_raise :
  let st := snd (FindIntersections.line_factory two_verticals FindIntersections.fresh) in
  line_store st !! 0%nat = Some (mkLine (mkPoint 0 2 1) (mkPoint 0 0 0) 0)%float /\
  line_store st !! 1%nat = Some (mkLine (mkPoint 1 2 3) (mkPoint 1 0 2) 0)%float /\
  fst (FindIntersections.line_intersection
         (mkLine (mkPoint 0 2 1) (mkPoint 0 0 0) 0)%float
         (mkLine (mkPoint 1 2 3) (mkPoint 1 0 2) 0)%float st) = NonePair /\
  FindIntersections.find_new_event 50 0 1 (mkPoint 1 2 5)%float st = Raise TypeError /\
  @FindIntersections.search_intersections float _ (SetOrder_first_met float) 50
     two_verticals
  = Raise TypeError.
Proof. repeat split; vm_compute; reflexivity. Qed.

Section TreeFacts.
Context {K V : Type}.
Implicit Types (T l r : tree K V).

Lemma refs_Node l p k v r q :
  q ∈ refs (Node l p k v r) <-> q ∈ refs l \/ q = p \/ q ∈ refs r.
Proof. cbn. rewrite elem_of_app, elem_of_cons. tauto. Qed.

Lemma keys_Node l p k v r k' :
  k' ∈ keys (Node l p k v r) <-> k' ∈ keys l \/ k' = k \/ k' ∈ keys r.
Proof.
  unfold keys. cbn. rewrite map_app. cbn. rewrite elem_of_app, elem_of_cons. tauto.
Qed.

Lemma uniform_Node (t : AvlTree K V) l p k v r :
  uniform t (Node l p k v r) -> uniform t l /\ uniform t r.
Proof.
  intros Hu. split; intros q n Hq; apply Hu; apply refs_Node; auto.
Qed.

Lemma absent_Node (t : AvlTree K V) l p k v r k0 :
  absent t (Node l p k v r) k0 ->
  absent t l k0 /\ tree_equals t k0 k = false /\ absent t r k0.
Proof.
  intros Ha. repeat split; try intros q Hq; apply Ha; apply keys_Node; auto.
Qed.

End TreeFacts.

(** ** Neighbours of a key that is not in the tree *)

Section Absent.
Context {K V : Type} `{PyKey K} `{PyObj V}.
Implicit Types (t : AvlTree K V) (T : tree K V).

Lemma find_left_neighbor_absent t T k0 : forall up fuel p,
  top T = Some p ->
  shape (objects t) up T -> uniform t T -> absent t T k0 ->
  height T <= fuel ->
  TreeObject.find_left_neighbor fuel p k0 t = Return None.
Proof.
  induction T as [|l IHl q k v r IHr]; intros up fuel p Htop Hs Hu Ha Hf; [discriminate|].
  cbn in Htop. injection Htop as ->.
  destruct Hs as (n & Hn & Hk & Hv & Hpar & Hl & Hr & Hsl & Hsr).
  destruct fuel as [|fuel]; [cbn in Hf; lia|].
  cbn [TreeObject.find_left_neighbor]. unfold node. rewrite Hn. cbn [bind].
  destruct (Hu p n) as [Hc He]; [apply refs_Node; auto | exact Hn |].
  rewrite He, Hc. cbn [callable bind].
  apply uniform_Node in Hu as [Hul Hur]. apply absent_Node in Ha as (Hal & Hak & Har).
  rewrite Hk, Hak.
  cbn in Hf.
  destruct (tree_comparator t k0 k); cbn [negb].
  - rewrite Hl. destruct l as [|ll lp lk lv lr]; [reflexivity|].
    apply (IHl (Some p)); try reflexivity; try assumption. lia.
  - rewrite Hr. destruct r as [|rl rp rk rv rr]; [reflexivity|].
    apply (IHr (Some p)); try reflexivity; try assumption. lia.
Qed.

Lemma find_right_neighbor_absent t T k0 : forall up fuel p,
  top T = Some p ->
  shape (objects t) up T -> uniform t T -> absent t T k0 ->
  height T <= fuel ->
  TreeObject.find_right_neighbor fuel p k0 t = Return None.
Proof.
  induction T as [|l IHl q k v r IHr]; intros up fuel p Htop Hs Hu Ha Hf; [discriminate|].
  cbn in Htop. injection Htop as ->.
  destruct Hs as (n & Hn & Hk & Hv & Hpar & Hl & Hr & Hsl & Hsr).
  destruct fuel as [|fuel]; [cbn in Hf; lia|].
  cbn [TreeObject.find_right_neighbor]. unfold node. rewrite Hn. cbn [bind].
  destruct (Hu p n) as [Hc He]; [apply refs_Node; auto | exact Hn |].
  rewrite He, Hc. cbn [callable bind].
  apply uniform_Node in Hu as [Hul Hur]. apply absent_Node in Ha as (Hal & Hak & Har).
  rewrite Hk, Hak.
  cbn in Hf.
  destruct (tree_comparator t k0 k); cbn [negb].
  - rewrite Hl. destruct l as [|ll lp lk lv lr]; [reflexivity|].
    apply (IHl (Some p)); try reflexivity; try assumption. lia.
  - rewrite Hr. destruct r as [|rl rp rk rv rr]; [reflexivity|].
    apply (IHr (Some p)); try reflexivity; try assumption. lia.
Qed.

(** The defect is general: in a tree whose nodes hold the comparator and
    the equals of the tree, [find_neighbors(k)] returns (None, None)
    whenever no node has a key equal to [k], whatever lies on either side
    of [k]. *)
Lemma find_neighbors_of_absent_key t T k0 fuel :
  rooted t T -> uniform t T -> absent t T k0 -> height T <= fuel ->
  AvlTree.find_neighbors fuel k0 t = Return (None, None).
Proof.
  intros (Hroot & Hs & _) Hu Ha Hf. unfold AvlTree.find_neighbors.
  rewrite Hroot. destruct T as [|l p k v r]; [reflexivity|]. cbn [top].
  unfold TreeObject.find_neighbors.
  rewrite (find_left_neighbor_absent t (Node l p k v r) k0 None fuel p); auto.
  rewrite (find_right_neighbor_absent t (Node l p k v r) k0 None fuel p); auto.
Qed.
End Absent.

Lemma three_nodes_built :
  tree_of [(2, 20%nat); (1, 10%nat); (4, 30%nat)]%Z = Return three_nodes.
Proof. reflexivity. Qed.

Lemma find_neighbors_of_absent_key_witness :
  AvlTree.find_neighbors 2 3%Z three_nodes = Return (None, None).
Proof.
  apply (find_neighbors_of_absent_key three_nodes
           (Node (Node Leaf 1%nat 1%Z 10%nat Leaf) 0%nat 2%Z 20%nat
                 (Node Leaf 2%nat 4%Z 30%nat Leaf))).
  - split; [reflexivity|]. split.
    + cbn. eexists; repeat split; cbn; try reflexivity; eexists; repeat split; reflexivity.
    + apply (bool_decide_unpack _). vm_compute. exact I.
  - intros p n Hp Hn. cbn in Hp.
    repeat (apply elem_of_cons in Hp as [->|Hp]); try (now apply elem_of_nil in Hp);
      injection Hn as <-; split; reflexivity.
  - intros k' Hk. cbn in Hk.
    repeat (apply elem_of_cons in Hk as [->|Hk]); try (now apply elem_of_nil in Hk);
      reflexivity.
  - cbn. lia.
Defined.

Lemma bind_Return {A B} (a : A) (k : A -> outcome B) : bind (Return a) k = k a.
Proof. reflexivity. Qed.

(** ** Running the sweep event by event *)

Section Run.
Context {F : Type} `{Number F} `{SetOrder F}.
Implicit Types (st : FindIntersections F).

Lemma handle_event_points_eq fuel ep segs recs st st1 c st2 ucp st3 st4 st5 :
  FindIntersections.rekey fuel (FindIntersections.set_sweepline_position st (y ep)) = Return st1 ->
  for_each (FindIntersections.classify fuel ep) segs
    (FindIntersections.mkClassification [] [] [], st1) = Return (c, st2) ->
  FindIntersections.sort_by_sweepline_order
    (FindIntersections.upper_p c ++ FindIntersections.contains_p c)
    (FindIntersections.set_sweepline_position st2
       (n_sub (sweepline_position st2) n_hundredth)) = Return (ucp, st3) ->
  FindIntersections.insert_ordered fuel ucp st3 = Return st4 ->
  FindIntersections.test_neighbors fuel ep c ucp st4 = Return st5 ->
  FindIntersections.handle_event_points fuel ep segs recs st
  = Return (if Nat.ltb 1 (length (ucp ++ FindIntersections.lower_p c))
            then recs ++ [(ep, ucp ++ FindIntersections.lower_p c)] else recs,
            FindIntersections.set_sweepline_position st5 (y ep)).
Proof.
  intros H1 H2 H3 H4 H5. unfold FindIntersections.handle_event_points.
  rewrite H1. cbn [bind]. rewrite H2. cbn [bind]. rewrite H3. cbn [bind].
  rewrite H4. cbn [bind]. rewrite H5. reflexivity.
Qed.

Lemma loop_step turns fuel segs recs st ep q recs' st' :
  AvlTree.pop_lowest fuel (event_queue st) = Return (Some ep, q) ->
  FindIntersections.handle_event_points fuel ep segs recs
    (FindIntersections.set_event_queue st q) = Return (recs', st') ->
  FindIntersections.find_intersections_loop (S turns) fuel segs recs st
  = FindIntersections.find_intersections_loop turns fuel segs recs' st'.
Proof.
  intros Hp Hh. cbn [FindIntersections.find_intersections_loop].
  destruct (root (event_queue st)) eqn:Hr.
  - rewrite Hp. cbn [bind attr_of]. rewrite Hh. reflexivity.
  - unfold AvlTree.pop_lowest in Hp. rewrite Hr in Hp. discriminate.
Qed.

Lemma loop_done turns fuel segs recs st :
  root (event_queue st) = None ->
  FindIntersections.find_intersections_loop turns fuel segs recs st = Return recs.
Proof. intros Hr. destruct turns; cbn; rewrite Hr; reflexivity. Qed.

Context `{!SetOrderLaws _}.

Lemma list_of_segments_nil : list_of_segments [] = [].
Proof. apply Permutation_nil_r. apply list_of_segments_perm. Qed.

Lemma list_of_segments_one a : list_of_segments [a] = [a].
Proof. apply Permutation_singleton_r. apply list_of_segments_perm. Qed.

Lemma list_of_segments_two a b :
  list_of_segments [a; b] = [a; b] \/ list_of_segments [a; b] = [b; a].
Proof.
  assert (list_of_segments [a; b] ∈ permutations [a; b]) as Hp
    by (apply permutations_Permutation; symmetry; apply list_of_segments_perm).
  cbn in Hp.
  apply elem_of_cons in Hp as [Hp|Hp]; [now left|].
  apply elem_of_cons in Hp as [Hp|Hp]; [now right|].
  now apply elem_of_nil in Hp.
Qed.
End Run.

Lemma SetOrder_first_met_laws (F : Type) : SetOrderLaws (SetOrder_first_met F).
Proof. split; reflexivity. Qed.

(** ** The neighbours that the sweep does not find *)

(** C7.  [find_neighbors] misses the neighbours of a key that is not in
    the tree, which is the key its one caller asks for.  In the tree that
    holds (3, L) and (7, R), the key 5 lies between the two pairs and
    [find_neighbors(5)] returns (None, None).  The sweep asks for the
    neighbours of the x of an event point: on the segments from (0, 10)
    to (10, 0), from (10, 10) to (0, 0) and from (5, 12) to (5, 7), the
    first two of which cross at (5, 5), it returns no record, while on
    the first two alone it returns the crossing. *)
Theorem absent_neighbors_lose_a_crossing :
  bind (tree_of [(3, 0%nat); (7, 1%nat)]%Z) (stored 20)
    = Return [(3%Z, 0%nat); (7%Z, 1%nat)] /\
  neighbors_in_order Z.ltb 5%Z [(3%Z, 0%nat); (7%Z, 1%nat)] = (Some 0%nat, Some 1%nat) /\
  bind (tree_of [(3, 0%nat); (7, 1%nat)]%Z) (AvlTree.find_neighbors 20 5%Z)
    = Return (None, None) /\
  @FindIntersections.search_intersections float _ (SetOrder_first_met float) 50
     lost_crossing = Return [] /\
  @FindIntersections.search_intersections float _ (SetOrder_first_met float) 50
     (take 2 lost_crossing) = Return [(mkPoint 5 5 9, [1%nat; 0%nat])]%float.
Proof. repeat split; vm_compute; reflexivity. Qed.

(** ** Two crossing segments *)

Section Crossing.
Context (O : SetOrder float) `{!SetOrderLaws O}.
Open Scope float_scope.

Lemma points_cases (l : list (float * float)) :
  list_of_points l ∈ permutations l.
Proof. apply permutations_Permutation. symmetry. apply list_of_points_perm. Qed.

Ltac closed m :=
  lazymatch m with
  | context [@list_of_segments] => fail
  | context [@list_of_points] => fail
  | _ => idtac
  end.

Ltac compute_closed m :=
  closed m;
  let v := eval vm_compute in m in
  replace m with v by (vm_compute; reflexivity).


Ltac oracle_step :=
  match goal with
  | |- context [@list_of_segments _ _ []] => rewrite list_of_segments_nil
  | |- context [@list_of_segments _ _ [?a]] => rewrite (list_of_segments_one a)
  | |- context [@list_of_segments _ _ [?a; ?b]] =>
    let E := fresh "E" in
    destruct (list_of_segments_two a b) as [E|E]; rewrite !E; clear E
  | |- context [@list_of_segments _ _ ?l] => compute_closed l
  end.

Ltac bind_step :=
  lazymatch goal with
  | |- bind ?m ?k = _ => compute_closed m; rewrite bind_Return; cbv beta iota zeta
  end.

Ltac sort_run :=
  lazymatch goal with
  | |- FindIntersections.sort_by_sweepline_order ?a ?b = _ =>
    compute_closed a; compute_closed b
  end;
  unfold FindIntersections.sort_by_sweepline_order; cbv beta iota zeta;
  repeat first [oracle_step | bind_step];
  vm_compute; reflexivity.

Ltac closed_goal := vm_compute; reflexivity.

Ltac event_step :=
  erewrite loop_step;
  [ | closed_goal
    | eapply handle_event_points_eq;
      [ closed_goal | closed_goal | sort_run | closed_goal | closed_goal ] ];
  lazymatch goal with
  | |- FindIntersections.find_intersections_loop _ _ _ ?recs ?st = _ =>
    compute_closed recs; compute_closed st
  end.

Ltac run_events :=
  lazymatch goal with
  | |- (let '(a, b) := ?m in _) = _ => compute_closed m
  end;
  cbv beta iota;
  unfold FindIntersections.find_intersections; cbv beta iota zeta;
  bind_step; bind_step;
  repeat event_step;
  apply loop_done; reflexivity.

(** C1.  On the input [((0,0),(2,2)), ((0,2),(2,0))], whatever the order
    in which the sets are listed, [search_intersections] returns exactly
    one record: the point (1.0, 1.0) with the segments 0 and 1, the two
    segments of the input. *)
Theorem crossing_segments_meet :
  @FindIntersections.search_intersections float _ O 50 crossing
  = Return [(mkPoint 1 1 9, [0%nat; 1%nat])].
Proof.
  unfold FindIntersections.search_intersections.
  compute_closed (FindIntersections.line_factory crossing (FindIntersections.fresh (F:=float))).
  cbv beta iota.
  unfold FindIntersections.event_point_factory. cbv beta iota zeta.
  match goal with |- context [list_of_points ?l] => compute_closed l end.
  match goal with |- context [list_of_points ?l] => pose proof (points_cases l) as Hp end.
  vm_compute permutations in Hp.
  repeat (apply elem_of_cons in Hp as [Hp|Hp]); try (now apply elem_of_nil in Hp);
    rewrite Hp; clear Hp; run_events.
Qed.
End Crossing.

Lemma crossing_segments_meet_witness :
  @FindIntersections.search_intersections float _ (SetOrder_first_met float) 50 crossing
  = Return [(mkPoint 1 1 9, [0%nat; 1%nat])]%float.
Proof.
  exact (@crossing_segments_meet (SetOrder_first_met float)
           (SetOrder_first_met_laws float)).
Defined.

(** ** The trees refine ordered lists

    A tree whose nodes lie in the store as [shape] says, with keys in
    the order of its comparator, behaves as the list of its pairs:
    [insert] adds a pair whose key is new, [pop_lowest] takes the first
    pair away and [is_in] tells whether a key is there.  The rotations
    keep the pairs and their order.  What a method does is stated of
    what it returns, with [on_return]: the methods raise on stores
    that are not trees. *)

Section OnReturn.
Context {A B : Type}.

Lemma on_return_Return (a : A) (Q : A -> Prop) : Q a -> on_return (Return a) Q.
Proof. intros HQ b [= <-]. exact HQ. Qed.

Lemma on_return_Raise e (Q : A -> Prop) : on_return (Raise e) Q.
Proof. intros a [=]. Qed.

Lemma on_return_Undefined (Q : A -> Prop) : on_return Undefined Q.
Proof. intros a [=]. Qed.

Lemma on_return_bind (m : outcome A) (k : A -> outcome B) (P : A -> Prop)
    (Q : B -> Prop) :
  on_return m P -> (forall a, P a -> on_return (k a) Q) -> on_return (bind m k) Q.
Proof.
  intros Hm Hk b Hb. destruct m as [a| |]; try discriminate.
  exact (Hk a (Hm a eq_refl) b Hb).
Qed.

Lemma on_return_weaken (m : outcome A) (P Q : A -> Prop) :
  on_return m P -> (forall a, P a -> Q a) -> on_return m Q.
Proof. intros Hm HPQ a Ha. auto. Qed.

Lemma on_return_eq (m : outcome A) (a : A) (Q : A -> Prop) :
  m = Return a -> Q a -> on_return m Q.
Proof. intros -> HQ. now apply on_return_Return. Qed.

End OnReturn.

Ltac on_return_trivial :=
  lazymatch goal with
  | |- on_return (Raise _) _ => apply on_return_Raise
  | |- on_return Undefined _ => apply on_return_Undefined
  | _ => idtac
  end.

(** ** The store under the assignments *)

Section Store.
Context {K V : Type}.
Implicit Types (t : AvlTree K V) (n : TreeObject K V) (p q : ref)
  (T l r : tree K V) (h : list (TreeObject K V)).

Lemma node_Return t p n : objects t !! p = Some n -> node t p = Return n.
Proof. unfold node. now intros ->. Qed.

Lemma node_inv t p n : node t p = Return n -> objects t !! p = Some n.
Proof. unfold node. destruct (objects t !! p); congruence. Qed.

Lemma lookup_update_eq t p f :
  objects (update t p f) !! p = f <$> objects t !! p.
Proof. apply list_lookup_alter_eq. Qed.

Lemma lookup_update_ne t p q f :
  p <> q -> objects (update t p f) !! q = objects t !! q.
Proof. apply list_lookup_alter_ne. Qed.

Lemma lookup_set_root t o q : objects (set_root t o) !! q = objects t !! q.
Proof. reflexivity. Qed.

Lemma NoDup_Node l p k v r :
  NoDup (refs (Node l p k v r)) <->
  NoDup (refs l) /\ NoDup (refs r) /\ (p ∉ refs l) /\ (p ∉ refs r) /\
  (forall q, q ∈ refs l -> q ∉ refs r).
Proof.
  cbn. rewrite NoDup_app, NoDup_cons. split.
  - intros (Hl & Hd & Hp & Hr). repeat split; auto.
    + intros Hq. apply (Hd p Hq). left.
    + intros q Hq Hq'. apply (Hd q Hq). now right.
  - intros (Hl & Hr & Hpl & Hpr & Hd). repeat split; auto.
    intros q Hq [->|Hq']%elem_of_cons; [auto | exact (Hd q Hq Hq')].
Qed.

Lemma top_refs T p : top T = Some p -> p ∈ refs T.
Proof. destruct T; [discriminate|]. intros [= ->]. apply refs_Node. auto. Qed.

(** A tree only depends on its own nodes. *)
Lemma shape_frame h h' T : forall up,
  (forall q, q ∈ refs T -> h' !! q = h !! q) ->
  shape h up T -> shape h' up T.
Proof.
  induction T as [|l IHl p k v r IHr]; intros up Hf Hs; [exact I|].
  destruct Hs as (n & Hn & Hk & Hv & Hpar & Hl & Hr & Hsl & Hsr).
  exists n. rewrite Hf by (apply refs_Node; auto).
  repeat split; auto.
  - apply IHl; auto. intros q Hq. apply Hf, refs_Node. auto.
  - apply IHr; auto. intros q Hq. apply Hf, refs_Node. auto.
Qed.

(** The top node takes another parent. *)
Lemma shape_reparent h h' T up up' :
  NoDup (refs T) ->
  (forall q, q ∈ refs T -> Some q <> top T -> h' !! q = h !! q) ->
  (forall p, top T = Some p -> h' !! p = with_parent up' <$> h !! p) ->
  shape h up T -> shape h' up' T.
Proof.
  destruct T as [|l p k v r]; intros Hnd Hf Ht Hs; [exact I|].
  apply NoDup_Node in Hnd as (Hndl & Hndr & Hpl & Hpr & Hd).
  destruct Hs as (n & Hn & Hk & Hv & Hpar & Hl & Hr & Hsl & Hsr).
  exists (with_parent up' n). rewrite (Ht p eq_refl), Hn. cbn.
  repeat split; auto.
  - apply (shape_frame h); auto. intros q Hq. apply Hf; [apply refs_Node; auto|].
    cbn. intros [= ->]. contradiction.
  - apply (shape_frame h); auto. intros q Hq. apply Hf; [apply refs_Node; auto|].
    cbn. intros [= ->]. contradiction.
Qed.

Lemma shape_lookup h up T p :
  shape h up T -> p ∈ refs T -> is_Some (h !! p).
Proof.
  revert up. induction T as [|l IHl q k v r IHr]; intros up Hs Hp.
  - now apply elem_of_nil in Hp.
  - destruct Hs as (n & Hn & _ & _ & _ & _ & _ & Hsl & Hsr).
    apply refs_Node in Hp as [Hp|[->|Hp]]; eauto.
Qed.

End Store.

(** ** Data that no assignment changes *)

Section SameData.
Context {K V : Type}.
Implicit Types (t : AvlTree K V) (n : TreeObject K V) (p q : ref).

Lemma same_node_refl n : same_node n n.
Proof. repeat split. Qed.

Lemma same_node_trans n1 n2 n3 : same_node n1 n2 -> same_node n2 n3 -> same_node n1 n3.
Proof.
  intros (?&?&?&?) (?&?&?&?). repeat split; congruence.
Qed.

Lemma same_data_refl t : same_data t t.
Proof. repeat split. intros q n Hn. exists n. split; [exact Hn | apply same_node_refl]. Qed.

Lemma same_data_trans t1 t2 t3 : same_data t1 t2 -> same_data t2 t3 -> same_data t1 t3.
Proof.
  intros (?&?&?&H12) (?&?&?&H23). repeat split; try congruence.
  intros q n Hn. destruct (H12 q n Hn) as (n2 & Hn2 & Hs2).
  destruct (H23 q n2 Hn2) as (n3 & Hn3 & Hs3).
  exists n3. split; [exact Hn3 | eapply same_node_trans; eauto].
Qed.

Lemma same_data_update t p f :
  (forall n, same_node n (f n)) -> same_data t (update t p f).
Proof.
  intros Hf. split; [reflexivity|]. split; [reflexivity|]. split.
  - apply length_alter.
  - intros q n Hn. destruct (decide (p = q)) as [->|Hne].
    + exists (f n). rewrite lookup_update_eq, Hn. split; [reflexivity | apply Hf].
    + exists n. rewrite lookup_update_ne by exact Hne.
      split; [exact Hn | apply same_node_refl].
Qed.

Lemma same_data_set_root t o : same_data t (set_root t o).
Proof. repeat split. intros q n Hn. exists n. split; [exact Hn | apply same_node_refl]. Qed.

Lemma same_data_set_left_child t p o : same_data t (set_left_child t p o).
Proof. apply same_data_update. intros n. repeat split. Qed.

Lemma same_data_set_right_child t p o : same_data t (set_right_child t p o).
Proof. apply same_data_update. intros n. repeat split. Qed.

Lemma same_data_set_parent t p o : same_data t (set_parent t p o).
Proof. apply same_data_update. intros n. repeat split. Qed.

End SameData.

Create HintDb same_data discriminated.

Ltac same_data_pure :=
  cbv zeta;
  lazymatch goal with
  | |- same_data ?t (set_root ?t' _) =>
    apply (same_data_trans t t'); [same_data_pure | apply same_data_set_root]
  | |- same_data ?t (set_left_child ?t' _ _) =>
    apply (same_data_trans t t'); [same_data_pure | apply same_data_set_left_child]
  | |- same_data ?t (set_right_child ?t' _ _) =>
    apply (same_data_trans t t'); [same_data_pure | apply same_data_set_right_child]
  | |- same_data ?t (set_parent ?t' _ _) =>
    apply (same_data_trans t t'); [same_data_pure | apply same_data_set_parent]
  | |- same_data ?t (if ?b then _ else _) => destruct b; same_data_pure
  | |- same_data ?t (match ?o with Some _ => _ | None => _ end) =>
    destruct o; same_data_pure
  | |- same_data ?t ?t => apply same_data_refl
  | |- same_data _ _ => assumption
  end.

#[export] Hint Extern 1 (same_data _ _) => same_data_pure : same_data.

Ltac same_data_run :=
  cbv zeta;
  lazymatch goal with
  | |- on_return (Return _) _ => apply on_return_Return; same_data_pure
  | |- on_return (Raise _) _ => apply on_return_Raise
  | |- on_return Undefined _ => apply on_return_Undefined
  | |- on_return (bind ?m ?k) (same_data ?t0) =>
    let ty := type of m in
    lazymatch ty with
    | outcome (AvlTree _ _) =>
      apply (on_return_bind m k (same_data t0)); [same_data_run | intros ? ?; same_data_run]
    | _ =>
      apply (on_return_bind m k (fun _ => True)); [intros ? _; exact I | intros ? _; same_data_run]
    end
  | |- on_return (match ?o with Some _ => _ | None => _ end) _ =>
    destruct o; same_data_run
  | |- on_return (if ?b then _ else _) _ => destruct b; same_data_run
  | |- on_return _ _ => solve [eauto with same_data]
  end.

Section Rotations.
Context {K V : Type} `{PyKey K} `{PyObj V}.
Implicit Types (t : AvlTree K V) (n : TreeObject K V) (p q : ref)
  (T l r : tree K V).

Lemma simple_rot_right_same_data t0 y t :
  same_data t0 t -> on_return (TreeObject.simple_rot_right y t) (same_data t0).
Proof. intros Ht. unfold TreeObject.simple_rot_right. same_data_run. Qed.

Lemma simple_rot_left_same_data t0 y t :
  same_data t0 t -> on_return (TreeObject.simple_rot_left y t) (same_data t0).
Proof. intros Ht. unfold TreeObject.simple_rot_left. same_data_run. Qed.

#[local] Hint Resolve simple_rot_right_same_data simple_rot_left_same_data : same_data.

Lemma rebalance_same_data t0 fuel p t :
  same_data t0 t -> on_return (TreeObject.rebalance fuel p t) (same_data t0).
Proof. intros Ht. unfold TreeObject.rebalance. same_data_run. Qed.

#[local] Hint Resolve rebalance_same_data : same_data.

Lemma insert_same_data t0 fuel : forall p obj t,
  same_data t0 t -> on_return (TreeObject.insert fuel p obj t) (same_data t0).
Proof.
  induction fuel as [|fuel IH]; intros p obj t Ht; cbn [TreeObject.insert];
    same_data_run.
Qed.

Ltac store_simpl :=
  unfold set_parent, set_left_child, set_right_child;
  repeat first
    [ rewrite lookup_set_root
    | rewrite lookup_update_eq
    | rewrite lookup_update_ne by (first [assumption | apply not_eq_sym; assumption | congruence]) ].

Lemma shape_update t p f up T :
  p ∉ refs T -> shape (objects t) up T -> shape (objects (update t p f)) up T.
Proof.
  intros Hp. apply shape_frame. intros q Hq. apply lookup_update_ne.
  intros ->. contradiction.
Qed.

Lemma shape_set_parent t p o up T :
  p ∉ refs T -> shape (objects t) up T -> shape (objects (set_parent t p o)) up T.
Proof. apply shape_update. Qed.

Lemma shape_set_left_child t p o up T :
  p ∉ refs T -> shape (objects t) up T -> shape (objects (set_left_child t p o)) up T.
Proof. apply shape_update. Qed.

Lemma shape_set_right_child t p o up T :
  p ∉ refs T -> shape (objects t) up T -> shape (objects (set_right_child t p o)) up T.
Proof. apply shape_update. Qed.

Lemma shape_set_parent_top t p o up T :
  top T = Some p -> NoDup (refs T) ->
  shape (objects t) up T -> shape (objects (set_parent t p o)) o T.
Proof.
  intros Ht Hnd. apply shape_reparent; auto.
  - intros q Hq Hqt. apply lookup_update_ne. congruence.
  - intros p' Hp'. rewrite Ht in Hp'. injection Hp' as <-. apply lookup_update_eq.
Qed.

Ltac frame_shape :=
  repeat first
    [ assumption
    | apply shape_set_parent; [assumption|]
    | apply shape_set_left_child; [assumption|]
    | apply shape_set_right_child; [assumption|] ].

Lemma lookup_set_parent_of_ne t o v q :
  Some q <> o -> objects (set_parent_of t o v) !! q = objects t !! q.
Proof.
  destruct o as [p|]; [|reflexivity]. intros Hq. apply lookup_update_ne. congruence.
Qed.

Lemma shape_set_parent_of t o v up T :
  (forall q, o = Some q -> q ∉ refs T) ->
  shape (objects t) up T -> shape (objects (set_parent_of t o v)) up T.
Proof.
  destruct o as [p|]; [|auto]. intros Hq. apply shape_set_parent. now apply Hq.
Qed.

Lemma shape_set_parent_of_top t v up T :
  NoDup (refs T) ->
  shape (objects t) up T -> shape (objects (set_parent_of t (top T) v)) v T.
Proof.
  destruct (top T) as [p|] eqn:Ht; cbn.
  - now apply shape_set_parent_top.
  - destruct T; [auto | discriminate].
Qed.

Lemma root_set_parent_of t o v : root (set_parent_of t o v) = root t.
Proof. now destruct o. Qed.

Lemma set_child_of_Return t u self o un :
  objects t !! u = Some un ->
  exists t', set_child_of t u self o = Return t' /\
    root t' = root t /\
    objects t' !! u = Some (replace_child self o un) /\
    (forall q, q <> u -> objects t' !! q = objects t !! q).
Proof.
  intros Hu. unfold set_child_of. rewrite (node_Return t u un Hu). cbn [bind].
  eexists. split; [reflexivity|]. unfold replace_child.
  destruct (is_ref (right_child un) self); repeat split.
  - store_simpl. now rewrite Hu.
  - intros q Hq. now store_simpl.
  - store_simpl. now rewrite Hu.
  - intros q Hq. now store_simpl.
Qed.

Lemma simple_rot_right_shape t a x kx vx b y ky vy c up :
  let T := Node (Node a x kx vx b) y ky vy c in
  shape (objects t) up T ->
  NoDup (refs T) ->
  (forall u, up = Some u -> (u ∉ refs T) /\ is_Some (objects t !! u)) ->
  exists t', TreeObject.simple_rot_right y t = Return t' /\
    shape (objects t') up (Node a x kx vx (Node b y ky vy c)) /\
    root t' = match up with None => Some x | Some _ => root t end /\
    (forall q, q ∉ refs T -> Some q <> up -> objects t' !! q = objects t !! q) /\
    (forall u, up = Some u ->
       objects t' !! u = replace_child y (Some x) <$> objects t !! u).
Proof.
  intros T Hs Hnd Hup.
  destruct Hs as (ny & Hy & Hky & Hvy & Hpy & Hly & Hry & Hsx & Hsc).
  destruct Hsx as (nx & Hx & Hkx & Hvx & Hpx & Hlx & Hrx & Hsa & Hsb).
  cbn [top] in Hly.
  apply NoDup_Node in Hnd as (Hndx & Hndc & Hyx & Hyc & Hxc).
  pose proof Hndx as Hndx'.
  apply NoDup_Node in Hndx' as (Hnda & Hndb & Hxa & Hxb & Hab).
  assert (x <> y) as Hxy by (intros ->; apply Hyx, refs_Node; auto).
  assert (y ∉ refs a) as Hya by (intros ?; apply Hyx, refs_Node; auto).
  assert (y ∉ refs b) as Hyb by (intros ?; apply Hyx, refs_Node; auto).
  assert (x ∉ refs c) as Hxc' by (apply Hxc, refs_Node; auto).
  assert (forall tb, top b = Some tb ->
            tb <> x /\ tb <> y /\ (tb ∉ refs a) /\ (tb ∉ refs c) /\ Some tb <> up) as Htb.
  { intros tb Hb. apply top_refs in Hb. repeat split.
    - intros ->. contradiction.
    - intros ->. contradiction.
    - intros Ha. exact (Hab tb Ha Hb).
    - apply Hxc, refs_Node. auto.
    - intros E. destruct (Hup tb) as [Hc _]; [now symmetry|].
      apply Hc, refs_Node. left. apply refs_Node. auto. }
  assert (forall u, up = Some u ->
            u <> x /\ u <> y /\ (u ∉ refs a) /\ (u ∉ refs b) /\ (u ∉ refs c)) as Hu.
  { intros u Eu. destruct (Hup u Eu) as [Hc _]. unfold T in Hc.
    repeat split; intros E; apply Hc; try subst u; apply refs_Node; auto;
      left; apply refs_Node; auto. }
  (* the state after the assignments to the root, to [x.parent] and to the
     parent of [y] *)
  assert (exists t1,
    (let t0 := if is_None up then set_root t (Some x) else t in
     match up with
     | Some p => set_child_of (set_parent t0 x up) p y (Some x)
     | None => Return (set_parent t0 x up)
     end) = Return t1 /\
    root t1 = match up with None => Some x | Some _ => root t end /\
    objects t1 !! x = Some (with_parent up nx) /\
    (forall q, q <> x -> Some q <> up -> objects t1 !! q = objects t !! q) /\
    (forall u, up = Some u -> objects t1 !! u = replace_child y (Some x) <$> objects t !! u))
    as (t1 & Ht1 & Hroot1 & Hx1 & Hf1 & Hu1).
  { destruct up as [u|]; cbn [is_None]; cbv zeta.
    - destruct (Hup u eq_refl) as [_ [un Hun]].
      destruct (Hu u eq_refl) as (Hux & Huy & _).
      destruct (set_child_of_Return (set_parent t x (Some u)) u y (Some x) un)
        as (t1 & E1 & Hr1 & Hu1 & Hf1).
      { now store_simpl. }
      exists t1. split; [exact E1|]. repeat split.
      + exact Hr1.
      + rewrite Hf1 by (apply not_eq_sym; exact Hux). store_simpl. now rewrite Hx.
      + intros q Hqx Hqu. rewrite Hf1 by congruence. now store_simpl.
      + intros ? [= <-]. now rewrite Hu1, Hun.
    - eexists. split; [reflexivity|]. repeat split.
      + store_simpl. now rewrite Hx.
      + intros q Hqx _. now store_simpl.
      + intros ? [=]. }
  assert (objects t1 !! y = Some ny) as Hy1.
  { rewrite Hf1; auto. intros E. destruct (Hu y) as (_ & Hc & _); [now symmetry|].
    now apply Hc. }
  set (t' := set_parent_of
               (set_left_child (set_parent (set_right_child t1 x (Some y)) y (Some x))
                               y (top b))
               (top b) (Some y)).
  exists t'. split.
  { unfold TreeObject.simple_rot_right.
    rewrite (node_Return t y ny Hy). cbn [bind]. rewrite Hly, Hpy. cbn [attr_of bind].
    replace (node (if is_None up then set_root t (Some x) else t) x) with (Return nx)
      by (symmetry; apply node_Return; now destruct up).
    cbn [bind]. rewrite Hrx. cbv zeta in Ht1. fold (@set_child_of K V) in Ht1.
    unfold set_child_of in Ht1. rewrite Ht1. cbn [bind]. unfold t'.
    now destruct (top b). }
  assert (objects t' !! x = Some (with_right_child (Some y) (with_parent up nx))) as Hx'.
  { unfold t'. rewrite lookup_set_parent_of_ne.
    - store_simpl. now rewrite Hx1.
    - intros E. symmetry in E. now destruct (Htb x E). }
  assert (objects t' !! y = Some (with_left_child (top b) (with_parent (Some x) ny)))
    as Hy'.
  { unfold t'. rewrite lookup_set_parent_of_ne.
    - store_simpl. now rewrite Hy1.
    - intros E. symmetry in E. now destruct (Htb y E) as (_ & ? & _). }
  assert (forall q, q <> x -> q <> y -> Some q <> top b -> Some q <> up ->
            objects t' !! q = objects t !! q) as Hframe.
  { intros q Hqx Hqy Hqb Hqu. unfold t'. rewrite lookup_set_parent_of_ne by exact Hqb.
    store_simpl. now apply Hf1. }
  assert (forall S up', (forall q, q ∈ refs S -> q ∈ refs T /\ q <> x /\ q <> y /\ Some q <> top b) ->
            shape (objects t) up' S -> shape (objects t') up' S) as Hkeep.
  { intros S up' HS. apply shape_frame. intros q Hq.
    destruct (HS q Hq) as (HqT & ? & ? & ?). apply Hframe; auto.
    intros E. destruct (Hup q) as [Hc _]; [now symmetry|]. contradiction. }
  split; [|split; [|split]].
  - cbn [shape]. exists (with_right_child (Some y) (with_parent up nx)).
    split; [exact Hx'|]. cbn. repeat split; auto.
    + apply Hkeep; [|exact Hsa]. intros q Hq. repeat split.
      * apply refs_Node. left. apply refs_Node. auto.
      * intros ->. contradiction.
      * intros ->. contradiction.
      * intros E. symmetry in E. apply top_refs in E. exact (Hab q Hq E).
    + exists (with_left_child (top b) (with_parent (Some x) ny)).
      split; [exact Hy'|]. cbn. repeat split; auto.
      * unfold t'. apply (shape_set_parent_of_top _ _ (Some x)); [exact Hndb|].
        frame_shape.
        apply (shape_frame (objects t)); [|exact Hsb].
        intros q Hq. apply Hf1.
        -- intros ->. contradiction.
        -- intros E. destruct (Hu q) as (_ & _ & _ & Hc & _); [now symmetry|].
           contradiction.
      * apply Hkeep; [|exact Hsc]. intros q Hq. repeat split.
        -- apply refs_Node. auto.
        -- intros ->. contradiction.
        -- intros ->. contradiction.
        -- intros E. symmetry in E. apply top_refs in E.
           apply (Hxc q); [apply refs_Node; auto | exact Hq].
  - unfold t'. rewrite root_set_parent_of. exact Hroot1.
  - intros q Hq Hqu. apply Hframe; auto.
    + intros ->. apply Hq, refs_Node. left. apply refs_Node. auto.
    + intros ->. apply Hq, refs_Node. auto.
    + intros E. symmetry in E. apply top_refs in E.
      apply Hq, refs_Node. left. apply refs_Node. auto.
  - intros u Eu. destruct (Hu u Eu) as (Hux & Huy & _ & Hub & _).
    unfold t'. rewrite lookup_set_parent_of_ne.
    + store_simpl. now apply Hu1.
    + intros E. symmetry in E. apply top_refs in E. contradiction.
Qed.

Lemma simple_rot_left_shape t a x kx vx b y ky vy c up :
  let T := Node a x kx vx (Node b y ky vy c) in
  shape (objects t) up T ->
  NoDup (refs T) ->
  (forall u, up = Some u -> (u ∉ refs T) /\ is_Some (objects t !! u)) ->
  exists t', TreeObject.simple_rot_left x t = Return t' /\
    shape (objects t') up (Node (Node a x kx vx b) y ky vy c) /\
    root t' = match up with None => Some y | Some _ => root t end /\
    (forall q, q ∉ refs T -> Some q <> up -> objects t' !! q = objects t !! q) /\
    (forall u, up = Some u ->
       objects t' !! u = replace_child x (Some y) <$> objects t !! u).
Proof.
  intros T Hs Hnd Hup.
  destruct Hs as (nx & Hx & Hkx & Hvx & Hpx & Hlx & Hrx & Hsa & Hsy).
  destruct Hsy as (ny & Hy & Hky & Hvy & Hpy & Hly & Hry & Hsb & Hsc).
  cbn [top] in Hrx.
  apply NoDup_Node in Hnd as (Hnda & Hndy & Hxa & Hxy' & Hay).
  pose proof Hndy as Hndy'.
  apply NoDup_Node in Hndy' as (Hndb & Hndc & Hyb & Hyc & Hbc).
  assert (x <> y) as Hxy by (intros ->; apply Hxy', refs_Node; auto).
  assert (x ∉ refs b) as Hxb by (intros ?; apply Hxy', refs_Node; auto).
  assert (x ∉ refs c) as Hxc by (intros ?; apply Hxy', refs_Node; auto).
  assert (y ∉ refs a) as Hya by (intros ?; apply (Hay y); [|apply refs_Node]; auto).
  assert (forall tb, top b = Some tb ->
            tb <> x /\ tb <> y /\ (tb ∉ refs a) /\ (tb ∉ refs c) /\ Some tb <> up) as Htb.
  { intros tb Hb. apply top_refs in Hb. repeat split.
    - intros ->. contradiction.
    - intros ->. contradiction.
    - intros Ha. apply (Hay tb Ha), refs_Node. auto.
    - now apply Hbc.
    - intros E. destruct (Hup tb) as [Hc _]; [now symmetry|].
      apply Hc, refs_Node. right. right. apply refs_Node. auto. }
  assert (forall u, up = Some u ->
            u <> x /\ u <> y /\ (u ∉ refs a) /\ (u ∉ refs b) /\ (u ∉ refs c)) as Hu.
  { intros u Eu. destruct (Hup u Eu) as [Hc _]. unfold T in Hc.
    repeat split; intros E; apply Hc; try subst u; apply refs_Node; auto;
      right; right; apply refs_Node; auto. }
  assert (exists t1,
    (let t0 := if is_None up then set_root t (Some y) else t in
     match up with
     | Some p => set_child_of (set_parent t0 y up) p x (Some y)
     | None => Return (set_parent t0 y up)
     end) = Return t1 /\
    root t1 = match up with None => Some y | Some _ => root t end /\
    objects t1 !! y = Some (with_parent up ny) /\
    (forall q, q <> y -> Some q <> up -> objects t1 !! q = objects t !! q) /\
    (forall u, up = Some u -> objects t1 !! u = replace_child x (Some y) <$> objects t !! u))
    as (t1 & Ht1 & Hroot1 & Hy1 & Hf1 & Hu1).
  { destruct up as [u|]; cbn [is_None]; cbv zeta.
    - destruct (Hup u eq_refl) as [_ [un Hun]].
      destruct (Hu u eq_refl) as (Hux & Huy & _).
      destruct (set_child_of_Return (set_parent t y (Some u)) u x (Some y) un)
        as (t1 & E1 & Hr1 & Hu1 & Hf1).
      { now store_simpl. }
      exists t1. split; [exact E1|]. repeat split.
      + exact Hr1.
      + rewrite Hf1 by (apply not_eq_sym; exact Huy). store_simpl. now rewrite Hy.
      + intros q Hqy Hqu. rewrite Hf1 by congruence. now store_simpl.
      + intros ? [= <-]. now rewrite Hu1, Hun.
    - eexists. split; [reflexivity|]. repeat split.
      + store_simpl. now rewrite Hy.
      + intros q Hqy _. now store_simpl.
      + intros ? [=]. }
  assert (objects t1 !! x = Some nx) as Hx1.
  { rewrite Hf1; auto. intros E. destruct (Hu x) as (Hc & _); [now symmetry|].
    now apply Hc. }
  set (t' := set_parent_of
               (set_right_child (set_parent (set_left_child t1 y (Some x)) x (Some y))
                                x (top b))
               (top b) (Some x)).
  exists t'. split.
  { unfold TreeObject.simple_rot_left.
    rewrite (node_Return t x nx Hx). cbn [bind]. rewrite Hrx, Hpx. cbn [attr_of bind].
    replace (node (if is_None up then set_root t (Some y) else t) y) with (Return ny)
      by (symmetry; apply node_Return; now destruct up).
    cbn [bind]. rewrite Hly. cbv zeta in Ht1.
    unfold set_child_of in Ht1. rewrite Ht1. cbn [bind]. unfold t'.
    now destruct (top b). }
  assert (objects t' !! y = Some (with_left_child (Some x) (with_parent up ny))) as Hy'.
  { unfold t'. rewrite lookup_set_parent_of_ne.
    - store_simpl. now rewrite Hy1.
    - intros E. symmetry in E. now destruct (Htb y E) as (_ & ? & _). }
  assert (objects t' !! x = Some (with_right_child (top b) (with_parent (Some y) nx)))
    as Hx'.
  { unfold t'. rewrite lookup_set_parent_of_ne.
    - store_simpl. now rewrite Hx1.
    - intros E. symmetry in E. now destruct (Htb x E). }
  assert (forall q, q <> x -> q <> y -> Some q <> top b -> Some q <> up ->
            objects t' !! q = objects t !! q) as Hframe.
  { intros q Hqx Hqy Hqb Hqu. unfold t'. rewrite lookup_set_parent_of_ne by exact Hqb.
    store_simpl. now apply Hf1. }
  assert (forall S up', (forall q, q ∈ refs S -> q ∈ refs T /\ q <> x /\ q <> y /\ Some q <> top b) ->
            shape (objects t) up' S -> shape (objects t') up' S) as Hkeep.
  { intros S up' HS. apply shape_frame. intros q Hq.
    destruct (HS q Hq) as (HqT & ? & ? & ?). apply Hframe; auto.
    intros E. destruct (Hup q) as [Hc _]; [now symmetry|]. contradiction. }
  split; [|split; [|split]].
  - cbn [shape]. exists (with_left_child (Some x) (with_parent up ny)).
    split; [exact Hy'|]. cbn. repeat split; auto.
    + exists (with_right_child (top b) (with_parent (Some y) nx)).
      split; [exact Hx'|]. cbn. repeat split; auto.
      * apply Hkeep; [|exact Hsa]. intros q Hq. repeat split.
        -- apply refs_Node. auto.
        -- intros ->. contradiction.
        -- intros ->. contradiction.
        -- intros E. symmetry in E. apply top_refs in E.
           apply (Hay q Hq), refs_Node. auto.
      * unfold t'. apply (shape_set_parent_of_top _ _ (Some y)); [exact Hndb|].
        frame_shape.
        apply (shape_frame (objects t)); [|exact Hsb].
        intros q Hq. apply Hf1.
        -- intros ->. contradiction.
        -- intros E. destruct (Hu q) as (_ & _ & _ & Hc & _); [now symmetry|].
           contradiction.
    + apply Hkeep; [|exact Hsc]. intros q Hq. repeat split.
      * apply refs_Node. right. right. apply refs_Node. auto.
      * intros ->. contradiction.
      * intros ->. contradiction.
      * intros E. symmetry in E. apply top_refs in E. exact (Hbc q E Hq).
  - unfold t'. rewrite root_set_parent_of. exact Hroot1.
  - intros q Hq Hqu. apply Hframe; auto.
    + intros ->. apply Hq, refs_Node. auto.
    + intros ->. apply Hq, refs_Node. right. right. apply refs_Node. auto.
    + intros E. symmetry in E. apply top_refs in E.
      apply Hq, refs_Node. right. right. apply refs_Node. auto.
  - intros u Eu. destruct (Hu u Eu) as (Hux & Huy & _ & Hub & _).
    unfold t'. rewrite lookup_set_parent_of_ne.
    + store_simpl. now apply Hu1.
    + intros E. symmetry in E. apply top_refs in E. contradiction.
Qed.

(** *** Heights *)

Lemma height_of_nonneg (check : ref -> outcome Z) child z :
  (forall c h, check c = Return h -> (0 <= h)%Z) ->
  TreeObject.height_of check child = Return z ->
  (0 <= z)%Z /\ (child = None -> z = 0%Z).
Proof.
  intros Hc. destruct child as [c|]; cbn.
  - destruct (check c) as [h| |] eqn:E; cbn; try discriminate.
    intros [= <-]. specialize (Hc c h E). split; [lia | discriminate].
  - intros [= <-]. split; [lia | reflexivity].
Qed.

Lemma check_height_nonneg fuel : forall p t z,
  TreeObject.check_height fuel p t = Return z -> (0 <= z)%Z.
Proof.
  induction fuel as [|fuel IH]; intros p t z; cbn [TreeObject.check_height];
    [discriminate|].
  destruct (node t p) as [n| |]; cbn [bind]; try discriminate.
  destruct (TreeObject.height_of _ (left_child n)) as [hl| |] eqn:El; cbn [bind];
    try discriminate.
  destruct (TreeObject.height_of _ (right_child n)) as [hr| |] eqn:Er; cbn [bind];
    try discriminate.
  intros [= <-].
  apply height_of_nonneg in El as [? _]; [lia|]. intros c h. apply IH.
Qed.

Lemma check_balance_sides fuel p t n z :
  objects t !! p = Some n ->
  TreeObject.check_balance fuel p t = Return z ->
  ((z < -1)%Z -> left_child n <> None) /\ ((1 < z)%Z -> right_child n <> None).
Proof.
  intros Hn. unfold TreeObject.check_balance, TreeObject.height_right,
    TreeObject.height_left.
  rewrite (node_Return t p n Hn). cbn [bind].
  destruct (TreeObject.height_of _ (right_child n)) as [hr| |] eqn:Er; cbn [bind];
    try discriminate.
  destruct (TreeObject.height_of _ (left_child n)) as [hl| |] eqn:El; cbn [bind];
    try discriminate.
  intros [= <-].
  apply height_of_nonneg in Er as [Hr0 Hr]; [|intros c h; apply check_height_nonneg].
  apply height_of_nonneg in El as [Hl0 Hl]; [|intros c h; apply check_height_nonneg].
  split; intros Hz E; [specialize (Hl E) | specialize (Hr E)]; lia.
Qed.

(** *** Rebalancing *)

Lemma replace_child_same p n :
  left_child n = Some p \/ right_child n = Some p ->
  replace_child p (Some p) n = n.
Proof.
  unfold replace_child. destruct n as [k v l r pa c e]. cbn.
  destruct (is_ref r p) eqn:E.
  - destruct r as [q|]; [|discriminate]. cbn in E. apply Nat.eqb_eq in E as ->.
    reflexivity.
  - intros [->| ->]; [reflexivity|]. cbn in E. now rewrite Nat.eqb_refl in E.
Qed.

Lemma rebalance_shape fuel t l p k v r up :
  let T := Node l p k v r in
  shape (objects t) up T ->
  NoDup (refs T) ->
  hangs t up p T ->
  (up = None -> root t = Some p) ->
  on_return (TreeObject.rebalance fuel p t) (fun t' =>
    exists T', shape (objects t') up T' /\
      refs T' = refs T /\ items T' = items T /\ is_Some (top T') /\
      root t' = match up with None => top T' | Some _ => root t end /\
      (forall q, q ∉ refs T -> Some q <> up -> objects t' !! q = objects t !! q) /\
      (forall u, up = Some u ->
         objects t' !! u = replace_child p (top T') <$> objects t !! u)).
Proof.
  intros T Hs Hnd Hh Hroot.
  assert (forall u, up = Some u -> (u ∉ refs T) /\ is_Some (objects t !! u)) as Hup.
  { intros u Eu. destruct (Hh u Eu) as (? & un & ? & _). eauto. }
  pose proof Hs as (n & Hn & _ & _ & _ & Hl & Hr & _).
  unfold TreeObject.rebalance.
  destruct (TreeObject.check_balance fuel p t) as [z| |] eqn:Ez; cbn [bind];
    on_return_trivial.
  destruct (check_balance_sides fuel p t n z Hn Ez) as [Hlo Hhi].
  destruct (z <? -1)%Z eqn:E1; [|destruct (z >? 1)%Z eqn:E2].
  - apply Z.ltb_lt in E1. specialize (Hlo E1). rewrite Hl in Hlo.
    destruct l as [|a x kx vx b]; [contradiction|].
    destruct (simple_rot_right_shape t a x kx vx b p k v r up Hs Hnd Hup)
      as (t' & -> & Hs' & Hr' & Hf' & Hu').
    apply on_return_Return.
    exists (Node a x kx vx (Node b p k v r)).
    split; [exact Hs'|]. split; [cbn; now rewrite <- app_assoc|].
    split; [cbn; now rewrite <- app_assoc|]. split; [cbn; eauto|].
    split; [now destruct up|]. split; assumption.
  - apply Z.gtb_lt in E2. specialize (Hhi E2). rewrite Hr in Hhi.
    destruct r as [|b y ky vy c]; [contradiction|].
    destruct (simple_rot_left_shape t l p k v b y ky vy c up Hs Hnd Hup)
      as (t' & -> & Hs' & Hr' & Hf' & Hu').
    apply on_return_Return.
    exists (Node (Node l p k v b) y ky vy c).
    split; [exact Hs'|]. split; [cbn; now rewrite <- app_assoc|].
    split; [cbn; now rewrite <- app_assoc|]. split; [cbn; eauto|].
    split; [now destruct up|]. split; assumption.
  - apply on_return_Return. exists T.
    split; [exact Hs|]. split; [reflexivity|]. split; [reflexivity|].
    split; [cbn; eauto|]. split; [destruct up; auto|]. split; [auto|].
    intros u Eu. destruct (Hh u Eu) as (_ & un & Hun & Hc).
    rewrite Hun. cbn. now rewrite replace_child_same.
Qed.

(** *** Insertion *)

Lemma shape_with_left h h' l l' p k v r up n :
  shape h up (Node l p k v r) -> h !! p = Some n ->
  h' !! p = Some (with_left_child (top l') n) ->
  shape h' (Some p) l' ->
  (forall q, q ∈ refs r -> h' !! q = h !! q) ->
  shape h' up (Node l' p k v r).
Proof.
  intros (n0 & Hn0 & Hk & Hv & Hpar & Hl & Hr & Hsl & Hsr) Hn Hn' Hl' Hfr.
  rewrite Hn in Hn0. injection Hn0 as <-.
  exists (with_left_child (top l') n). split; [exact Hn'|]. cbn.
  repeat split; auto. now apply (shape_frame h).
Qed.

Lemma shape_with_right h h' l r r' p k v up n :
  shape h up (Node l p k v r) -> h !! p = Some n ->
  h' !! p = Some (with_right_child (top r') n) ->
  shape h' (Some p) r' ->
  (forall q, q ∈ refs l -> h' !! q = h !! q) ->
  shape h' up (Node l p k v r').
Proof.
  intros (n0 & Hn0 & Hk & Hv & Hpar & Hl & Hr & Hsl & Hsr) Hn Hn' Hr' Hfl.
  rewrite Hn in Hn0. injection Hn0 as <-.
  exists (with_right_child (top r') n). split; [exact Hn'|]. cbn.
  repeat split; auto. now apply (shape_frame h).
Qed.

(** *** Removal of the lowest *)

Lemma pop_lowest_shape : forall T fuel t p up,
  top T = Some p ->
  shape (objects t) up T -> NoDup (refs T) ->
  (up = None -> root t = Some p) ->
  (forall u, up = Some u ->
     (u ∉ refs T) /\ exists un, objects t !! u = Some un /\ left_child un = Some p) ->
  on_return (TreeObject.pop_lowest fuel p t) (fun res =>
    exists q kmin T',
      refs T = q :: refs T' /\ items T = (kmin, fst res) :: items T' /\
      shape (objects (snd res)) up T' /\
      root (snd res) = match up with None => top T' | Some _ => root t end /\
      (forall q', q' ∉ refs T -> Some q' <> up ->
         objects (snd res) !! q' = objects t !! q') /\
      (forall u, up = Some u ->
         objects (snd res) !! u = with_left_child (top T') <$> objects t !! u)).
Proof.
  induction T as [|l IHl p0 k v r _]; intros fuel t p up Htop Hs Hnd Hroot Hup;
    [discriminate|].
  cbn in Htop. injection Htop as ->.
  destruct fuel as [|fuel]; [apply on_return_Undefined|].
  pose proof Hs as (n & Hn & Hk & Hv & Hpar & Hl & Hr & Hsl & Hsr).
  pose proof Hnd as (Hndl & Hndr & Hpl & Hpr & Hlr)%NoDup_Node.
  cbn [TreeObject.pop_lowest]. rewrite (node_Return t p n Hn). cbn [bind].
  rewrite Hl. destruct l as [|ll lp lk lv lr]; cbn [top].
  - (* [p] is the lowest *)
    apply on_return_Return. cbn [fst snd]. exists p, k, r.
    split; [reflexivity|]. split; [cbn; congruence|].
    rewrite Hpar, Hr.
    assert (forall q, top r = Some q -> q <> p /\ Some q <> up) as Htr.
    { intros q Hq. apply top_refs in Hq. split; [congruence|].
      intros E. destruct (Hup q) as [Hc _]; [now symmetry|].
      apply Hc, refs_Node. auto. }
    change (match top r with
            | Some r0 => set_parent ?t r0 up
            | None => ?t
            end) with (set_parent_of t (top r) up).
    split; [|split; [|split]].
    + apply (shape_set_parent_of_top _ _ (Some p)); [exact Hndr|].
      destruct up as [u|].
      * destruct (Hup u eq_refl) as [Hu _].
        apply shape_set_left_child; [|exact Hsr]. intros ?. apply Hu, refs_Node. auto.
      * exact Hsr.
    + rewrite root_set_parent_of. now destruct up.
    + intros q' Hq' Hqu. rewrite lookup_set_parent_of_ne.
      * destruct up as [u|]; [|reflexivity]. assert (u <> q') by congruence.
        now store_simpl.
      * intros E. symmetry in E. apply top_refs in E. apply Hq', refs_Node. auto.
    + intros u ->. rewrite lookup_set_parent_of_ne; [now store_simpl|].
      intros E. symmetry in E. apply top_refs in E.
      destruct (Hup u eq_refl) as [Hu _]. apply Hu, refs_Node. auto.
  - (* below, to the left *)
    eapply on_return_weaken.
    { apply (IHl fuel t lp (Some p)); auto; [discriminate|].
      intros u [= <-]. split; [exact Hpl|]. exists n. auto. }
    cbv beta. intros [val t'] (q & kmin & l' & Hrefs & Hitems & Hs' & Hroot' & Hf' & Hu').
    cbn [fst snd] in *.
    exists q, kmin, (Node l' p k v r).
    split; [change (refs (Node (Node ll lp lk lv lr) p k v r))
              with (refs (Node ll lp lk lv lr) ++ p :: refs r); now rewrite Hrefs|].
    split; [change (items (Node (Node ll lp lk lv lr) p k v r))
              with (items (Node ll lp lk lv lr) ++ (k, v) :: items r);
            now rewrite Hitems|].
    specialize (Hu' p eq_refl). rewrite Hn in Hu'. cbn in Hu'.
    split; [|split; [|split]].
    + eapply (shape_with_left (objects t)); eauto.
      intros q' Hq'. apply Hf'; [|congruence]. intros Hq''. exact (Hlr q' Hq'' Hq').
    + rewrite Hroot'. destruct up; auto.
    + intros q' Hq' Hqu. apply Hf'.
      * intros ?. apply Hq', refs_Node. auto.
      * intros [= ->]. apply Hq', refs_Node. auto.
    + intros u ->. destruct (Hup u eq_refl) as (Hu & un & Hun & Hlu).
      rewrite Hf'.
      * rewrite Hun. cbn. destruct un. cbn in *. now subst.
      * intros ?. apply Hu, refs_Node. auto.
      * intros [= ->]. apply Hu, refs_Node. auto.
Qed.

Lemma pop_lowest_same_data t0 fuel : forall p t,
  same_data t0 t ->
  on_return (TreeObject.pop_lowest fuel p t) (fun res => same_data t0 (snd res)).
Proof.
  induction fuel as [|fuel IH]; intros p t Ht; cbn [TreeObject.pop_lowest].
  - apply on_return_Undefined.
  - eapply on_return_bind; [intros ? _; exact I|]. intros s _.
    destruct (left_child s); [now apply IH|].
    apply on_return_Return. cbn [snd]. same_data_pure.
Qed.

Section Insert.
Context (less same : K -> K -> bool) (Hord : strict_total_order less same).

Local Abbreviation sorted := (StronglySorted (fun a b => less a b = true)) (only parsing).

Lemma sorted_Node l p k v r :
  sorted (keys (Node l p k v r)) <->
  sorted (keys l) /\ sorted (keys r) /\
  (forall a, a ∈ keys l -> less a k = true) /\
  (forall b, b ∈ keys r -> less k b = true).
Proof.
  unfold keys. cbn. rewrite map_app. cbn.
  rewrite StronglySorted_app, StronglySorted_cons, Forall_forall. split.
  - intros (Hlr & Hl & Hkr & Hr). repeat split; auto.
    intros a Ha. apply Hlr; [exact Ha | left].
  - intros (Hl & Hr & Hlk & Hkr). repeat split; auto.
    intros a b Ha [->|Hb]%elem_of_cons; [auto|].
    eapply (less_trans _ _ Hord); eauto.
Qed.

Lemma perm_into_right {A} (l1 l2 l2' : list A) x o :
  l2' ≡ₚ o :: l2 -> l1 ++ x :: l2' ≡ₚ o :: l1 ++ x :: l2.
Proof.
  intros Hp. rewrite Hp. rewrite (Permutation_middle l1 (x :: l2) o).
  apply Permutation_app_head. apply perm_swap.
Qed.

Lemma perm_into_left {A} (l1 l1' l2 : list A) o :
  l1' ≡ₚ o :: l1 -> l1' ++ l2 ≡ₚ o :: l1 ++ l2.
Proof. now intros ->. Qed.

Lemma keys_perm (T T' : tree K V) kv :
  items T' ≡ₚ kv :: items T -> forall a, a ∈ keys T' -> a = fst kv \/ a ∈ keys T.
Proof.
  intros Hp a Ha. unfold keys in *. rewrite Hp in Ha. cbn in Ha.
  now apply elem_of_cons in Ha.
Qed.

(** The last step of [insert]: the subtree [T1], which holds the new node,
    is rebalanced. *)
Lemma insert_finish fuel t t1 l p k v r l1 r1 up obj (kv : K * V) :
  let T := Node l p k v r in
  let T1 := Node l1 p k v r1 in
  shape (objects t1) up T1 -> NoDup (refs T1) ->
  refs T1 ≡ₚ obj :: refs T -> items T1 ≡ₚ kv :: items T -> sorted (keys T1) ->
  hangs t up p T -> (up = None -> root t = Some p) -> root t1 = root t ->
  Some obj <> up ->
  (forall q, q ∉ refs T -> q <> obj -> objects t1 !! q = objects t !! q) ->
  on_return (TreeObject.rebalance fuel p t1) (fun t' => exists T',
    shape (objects t') up T' /\ NoDup (refs T') /\ refs T' ≡ₚ obj :: refs T /\
    items T' ≡ₚ kv :: items T /\ sorted (keys T') /\
    is_Some (top T') /\
    root t' = match up with None => top T' | Some _ => root t end /\
    (forall q, q ∉ refs T -> q <> obj -> Some q <> up ->
       objects t' !! q = objects t !! q) /\
    (forall u, up = Some u ->
       objects t' !! u = replace_child p (top T') <$> objects t !! u)).
Proof.
  intros T T1 Hs1 Hnd1 Hrefs Hitems Hsort Hh Hroot Hroot1 Houp Hf.
  assert (forall q, q ∈ refs T1 <-> q = obj \/ q ∈ refs T) as Hin.
  { intros q. rewrite Hrefs. apply elem_of_cons. }
  assert (hangs t1 up p T1) as Hh1.
  { intros u Eu. destruct (Hh u Eu) as (HuT & un & Hun & Hc).
    assert (u <> obj) by congruence.
    split; [intros [?|?]%Hin; [congruence | contradiction]|].
    exists un. split; [|exact Hc].
    rewrite Hf; auto. }
  eapply on_return_weaken.
  { apply (rebalance_shape fuel t1 l1 p k v r1 up Hs1 Hnd1 Hh1).
    intros E. rewrite Hroot1. auto. }
  cbv beta. intros t' (T' & Hs' & Hrefs' & Hitems' & Htop' & Hroot' & Hf' & Hu').
  exists T'. fold T1 in Hrefs', Hitems'.
  split; [exact Hs'|]. split; [now rewrite Hrefs'|]. split; [now rewrite Hrefs'|].
  split; [now rewrite Hitems'|]. split; [unfold keys in *; now rewrite Hitems'|].
  split; [exact Htop'|]. split; [destruct up; congruence|]. split.
  - intros q Hq Hqo Hqu. rewrite Hf'; auto.
    intros [?|?]%Hin; [congruence | contradiction].
  - intros u Eu. rewrite (Hu' u Eu). destruct (Hh u Eu) as (HuT & _).
    rewrite Hf; auto. congruence.
Qed.

Lemma insert_shape : forall T fuel t p up obj no,
  top T = Some p ->
  shape (objects t) up T -> NoDup (refs T) -> hangs t up p T ->
  (up = None -> root t = Some p) ->
  holds less same t T ->
  objects t !! obj = Some no -> left_child no = None -> right_child no = None ->
  obj ∉ refs T -> Some obj <> up ->
  (forall k', k' ∈ keys T -> same (key no) k' = false) ->
  sorted (keys T) ->
  on_return (TreeObject.insert fuel p obj t) (fun t' => exists T',
    shape (objects t') up T' /\ NoDup (refs T') /\ refs T' ≡ₚ obj :: refs T /\
    items T' ≡ₚ (key no, value no) :: items T /\ sorted (keys T') /\
    is_Some (top T') /\
    root t' = match up with None => top T' | Some _ => root t end /\
    (forall q, q ∉ refs T -> q <> obj -> Some q <> up ->
       objects t' !! q = objects t !! q) /\
    (forall u, up = Some u ->
       objects t' !! u = replace_child p (top T') <$> objects t !! u)).
Proof.
  induction T as [|l IHl p0 k v r IHr];
    intros fuel t p up obj no Htop Hs Hnd Hh Hroot Hhold Hobj Hol Hor Hout Houp Habs Hsort;
    [discriminate|].
  cbn in Htop. injection Htop as ->.
  destruct fuel as [|fuel]; [apply on_return_Undefined|].
  pose proof Hs as (n & Hn & Hk & Hv & Hpar & Hl & Hr & Hsl & Hsr).
  pose proof Hnd as (Hndl & Hndr & Hpl & Hpr & Hlr)%NoDup_Node.
  pose proof Hsort as (Hsortl & Hsortr & Hlk & Hkr)%sorted_Node.
  assert (p <> obj) as Hpo by (intros ->; apply Hout, refs_Node; auto).
  assert (obj ∉ refs l) as Hol' by (intros ?; apply Hout, refs_Node; auto).
  assert (obj ∉ refs r) as Hor' by (intros ?; apply Hout, refs_Node; auto).
  destruct (Hhold p n) as [Hcmp Heq]; [apply refs_Node; auto | exact Hn |].
  cbn [TreeObject.insert].
  rewrite (node_Return t p n Hn), (node_Return t obj no Hobj). cbn [bind].
  rewrite Hcmp, Heq. cbn [callable bind]. rewrite Hk.
  rewrite (Habs k) by (apply keys_Node; auto).
  destruct (less (key no) k) eqn:Eless.
  - (* to the left *)
    rewrite Hl. destruct l as [|ll lp lk lv lr]; cbn [top].
    + (* the new node becomes the left child *)
      apply (insert_finish (S fuel) t _ Leaf p k v r
               (Node Leaf obj (key no) (value no) Leaf) r up obj (key no, value no));
        auto.
      * eapply (shape_with_left (objects t)); eauto.
        -- cbn [top]. store_simpl. now rewrite Hn.
        -- cbn [shape]. exists (with_parent (Some p) no). split; [store_simpl; now rewrite Hobj|].
           cbn. repeat split; auto.
        -- intros q Hq. assert (q <> p) by congruence. assert (q <> obj) by congruence.
           now store_simpl.
      * apply NoDup_Node. repeat split; auto.
        -- cbn. apply NoDup_singleton.
        -- cbn. rewrite list_elem_of_singleton. exact Hpo.
        -- cbn. intros q ->%list_elem_of_singleton. exact Hor'.
      * apply sorted_Node. repeat split; auto.
        -- cbn. repeat constructor.
        -- cbn. intros a ->%list_elem_of_singleton. exact Eless.
      * intros q Hq Hqo. assert (q <> p) by (intros ->; apply Hq, refs_Node; auto).
        now store_simpl.
    + (* into the left subtree *)
      eapply on_return_bind.
      { apply (IHl fuel t lp (Some p) obj no); auto.
        - intros u [= <-]. split; [exact Hpl|]. exists n. auto.
        - discriminate.
        - intros q nq Hq. apply Hhold, refs_Node. auto.
        - congruence.
        - intros k' Hk'. apply Habs, keys_Node. auto. }
      cbv beta.
      intros t1 (l' & Hs1 & Hnd1 & Hrefs1 & Hitems1 & Hsort1 & Htop1 & Hroot1 & Hf1 & Hu1).
      specialize (Hu1 p eq_refl). rewrite Hn in Hu1. cbn in Hu1.
      assert (replace_child lp (top l') n = with_left_child (top l') n) as Erc.
      { unfold replace_child. rewrite Hr.
        destruct (is_ref (top r) lp) eqn:E; [|reflexivity].
        destruct (top r) as [tr|] eqn:Etr; [|discriminate]. cbn in E.
        apply Nat.eqb_eq in E as ->. apply top_refs in Etr.
        exfalso. apply (Hlr lp); [apply refs_Node; auto | exact Etr]. }
      rewrite Erc in Hu1.
      assert (forall q, q ∈ refs l' <-> q = obj \/ q ∈ refs (Node ll lp lk lv lr)) as Hin.
      { intros q. rewrite Hrefs1. apply elem_of_cons. }
      apply (insert_finish (S fuel) t t1 (Node ll lp lk lv lr) p k v r l' r up obj
               (key no, value no)); auto.
      * eapply (shape_with_left (objects t)); eauto.
        intros q Hq. apply Hf1; try congruence. intros Hq'. exact (Hlr q Hq' Hq).
      * apply NoDup_Node. repeat split; auto.
        -- rewrite Hin. intros [?|?]; [congruence | contradiction].
        -- intros q [->|Hq]%Hin; [exact Hor' | now apply Hlr].
      * cbn [refs]. now apply perm_into_left.
      * cbn [items]. now apply perm_into_left.
      * apply sorted_Node. repeat split; auto.
        intros a [->|Ha]%(keys_perm _ _ _ Hitems1); [exact Eless | now apply Hlk].
      * intros q Hq Hqo. apply Hf1; auto.
        -- intros ?. apply Hq, refs_Node. auto.
        -- intros [= ->]. apply Hq, refs_Node. auto.
  - (* to the right *)
    assert (less k (key no) = true) as Egt.
    { apply (less_total _ _ Hord); [exact Eless|]. apply Habs, keys_Node. auto. }
    rewrite Hr. destruct r as [|rl rp rk rv rr]; cbn [top].
    + (* the new node becomes the right child *)
      apply (insert_finish (S fuel) t _ l p k v Leaf l
               (Node Leaf obj (key no) (value no) Leaf) up obj (key no, value no));
        auto.
      * eapply (shape_with_right (objects t)); eauto.
        -- cbn [top]. store_simpl. now rewrite Hn.
        -- cbn [shape]. exists (with_parent (Some p) no). split; [store_simpl; now rewrite Hobj|].
           cbn. repeat split; auto.
        -- intros q Hq. assert (q <> p) by congruence. assert (q <> obj) by congruence.
           now store_simpl.
      * apply NoDup_Node. repeat split; auto.
        -- cbn. apply NoDup_singleton.
        -- cbn. rewrite list_elem_of_singleton. exact Hpo.
        -- cbn. intros q Hq ->%list_elem_of_singleton. contradiction.
      * cbn. now apply perm_into_right.
      * cbn. now apply perm_into_right.
      * apply sorted_Node. repeat split; auto.
        -- cbn. repeat constructor.
        -- cbn. intros a ->%list_elem_of_singleton. exact Egt.
      * intros q Hq Hqo. assert (q <> p) by (intros ->; apply Hq, refs_Node; auto).
        now store_simpl.
    + (* into the right subtree *)
      eapply on_return_bind.
      { apply (IHr fuel t rp (Some p) obj no); auto.
        - intros u [= <-]. split; [exact Hpr|]. exists n. auto.
        - discriminate.
        - intros q nq Hq. apply Hhold, refs_Node. auto.
        - congruence.
        - intros k' Hk'. apply Habs, keys_Node. auto. }
      cbv beta.
      intros t1 (r' & Hs1 & Hnd1 & Hrefs1 & Hitems1 & Hsort1 & Htop1 & Hroot1 & Hf1 & Hu1).
      specialize (Hu1 p eq_refl). rewrite Hn in Hu1. cbn in Hu1.
      assert (replace_child rp (top r') n = with_right_child (top r') n) as Erc.
      { unfold replace_child. rewrite Hr. cbn. now rewrite Nat.eqb_refl. }
      rewrite Erc in Hu1.
      assert (forall q, q ∈ refs r' <-> q = obj \/ q ∈ refs (Node rl rp rk rv rr)) as Hin.
      { intros q. rewrite Hrefs1. apply elem_of_cons. }
      apply (insert_finish (S fuel) t t1 l p k v (Node rl rp rk rv rr) l r' up obj
               (key no, value no)); auto.
      * eapply (shape_with_right (objects t)); eauto.
        intros q Hq. apply Hf1; try congruence. now apply Hlr.
      * apply NoDup_Node. repeat split; auto.
        -- rewrite Hin. intros [?|?]; [congruence | contradiction].
        -- intros q Hq [->|Hq']%Hin; [contradiction | exact (Hlr q Hq Hq')].
      * cbn [refs]. now apply perm_into_right.
      * cbn [items]. now apply perm_into_right.
      * apply sorted_Node. repeat split; auto.
        intros a [->|Ha]%(keys_perm _ _ _ Hitems1); [exact Egt | now apply Hkr].
      * intros q Hq Hqo. apply Hf1; auto.
        -- intros ?. apply Hq, refs_Node. auto.
        -- intros [= ->]. apply Hq, refs_Node. auto.
Qed.

(** *** Membership *)

Lemma is_in_shape : forall T fuel t p up k0,
  top T = Some p ->
  shape (objects t) up T -> holds less same t T -> sorted (keys T) ->
  on_return (TreeObject.is_in fuel p k0 t) (fun found =>
    found = true <-> exists k', k' ∈ keys T /\ same k0 k' = true).
Proof.
  induction T as [|l IHl p0 k v r IHr]; intros fuel t p up k0 Htop Hs Hhold Hsort;
    [discriminate|].
  cbn in Htop. injection Htop as ->.
  destruct fuel as [|fuel]; [apply on_return_Undefined|].
  pose proof Hs as (n & Hn & Hk & Hv & Hpar & Hl & Hr & Hsl & Hsr).
  pose proof Hsort as (Hsortl & Hsortr & Hlk & Hkr)%sorted_Node.
  destruct (Hhold p n) as [Hcmp Heq]; [apply refs_Node; auto | exact Hn |].
  assert (holds less same t l) as Hholdl by (intros q nq Hq; apply Hhold, refs_Node; auto).
  assert (holds less same t r) as Hholdr by (intros q nq Hq; apply Hhold, refs_Node; auto).
  cbn [TreeObject.is_in]. rewrite (node_Return t p n Hn). cbn [bind].
  rewrite Heq, Hcmp. cbn [callable bind]. rewrite Hk.
  destruct (same k0 k) eqn:Esame.
  { apply on_return_Return. split; [|reflexivity]. intros _. exists k.
    split; [apply keys_Node; auto | exact Esame]. }
  destruct (less k0 k) eqn:Eless.
  - assert (forall k', k' ∈ keys r -> same k0 k' = true -> False) as Hnr.
    { intros k' Hk' Hs'. pose proof (Hkr k' Hk') as Hlt.
      rewrite <- (same_less_r _ _ Hord k0 k' k Hs') in Hlt.
      rewrite (less_asym _ _ Hord k0 k Eless) in Hlt. discriminate. }
    rewrite Hl. destruct l as [|ll lp lk lv lr]; cbn [top].
    + apply on_return_Return. split; [discriminate|].
      intros (k' & [Hk'|[->|Hk']]%keys_Node & Hs').
      * now apply elem_of_nil in Hk'.
      * congruence.
      * exfalso. eauto.
    + eapply on_return_weaken; [apply (IHl fuel t lp (Some p) k0); auto|].
      cbv beta. intros found ->. split.
      * intros (k' & Hk' & Hs'). exists k'. split; [apply keys_Node; auto | exact Hs'].
      * intros (k' & [Hk'|[->|Hk']]%keys_Node & Hs'); [eauto | congruence |].
        exfalso. eauto.
  - assert (forall k', k' ∈ keys l -> same k0 k' = true -> False) as Hnl.
    { intros k' Hk' Hs'. pose proof (Hlk k' Hk') as Hlt.
      rewrite <- (same_less_l _ _ Hord k0 k' k Hs') in Hlt. congruence. }
    rewrite Hr. destruct r as [|rl rp rk rv rr]; cbn [top].
    + apply on_return_Return. split; [discriminate|].
      intros (k' & [Hk'|[->|Hk']]%keys_Node & Hs').
      * exfalso. eauto.
      * congruence.
      * now apply elem_of_nil in Hk'.
    + eapply on_return_weaken; [apply (IHr fuel t rp (Some p) k0); auto|].
      cbv beta. intros found ->. split.
      * intros (k' & Hk' & Hs'). exists k'. split; [apply keys_Node; auto | exact Hs'].
      * intros (k' & [Hk'|[->|Hk']]%keys_Node & Hs'); [| congruence | eauto].
        exfalso. eauto.
Qed.

(** *** The tree as an ordered set *)

Lemma holds_all_same_data t t' : same_data t t' -> holds_all less same t -> holds_all less same t'.
Proof.
  intros (_ & _ & Hlen & Hd) Hh q n' Hq.
  assert (is_Some (objects t !! q)) as [n Hn].
  { apply lookup_lt_is_Some. rewrite <- Hlen. eapply lookup_lt_Some; eauto. }
  destruct (Hd q n Hn) as (n'' & Hn'' & (_ & _ & Hc & He)).
  rewrite Hq in Hn''. injection Hn'' as <-.
  destruct (Hh q n Hn). split; congruence.
Qed.

Lemma shape_in_range h up T q : shape h up T -> q ∈ refs T -> q < length h.
Proof.
  intros Hs Hq. destruct (shape_lookup h up T q Hs Hq) as [n Hn].
  eapply lookup_lt_Some; eauto.
Qed.

Lemma shape_app h h' up T : shape h up T -> shape (h ++ h') up T.
Proof.
  intros Hs. apply (shape_frame h); [|exact Hs].
  intros q Hq. apply lookup_app_l. eapply shape_in_range; eauto.
Qed.

Lemma rooted_Leaf t T : rooted t T -> root t = None -> T = Leaf.
Proof. intros (Hr & _) E. rewrite E in Hr. destruct T; [reflexivity | discriminate]. Qed.

Lemma insert_keeps_order fuel k v t T :
  ordered less same t T ->
  (forall k', k' ∈ keys T -> same k k' = false) ->
  on_return (AvlTree.insert fuel (k, v) t) (fun t' =>
    exists T', ordered less same t' T' /\ items T' ≡ₚ (k, v) :: items T).
Proof.
  intros (Hrooted & Hhold & Hless & Hsame & Hsort) Habs.
  pose proof Hrooted as (Hroot & Hs & Hnd).
  unfold AvlTree.insert. cbn [fst snd new_TreeObject].
  set (no := mkTreeObject k v None None None (Some (tree_comparator t))
                          (Some (tree_equals t))).
  set (obj := length (objects t)).
  set (t1 := mkAvlTree (root t) (tree_comparator t) (tree_equals t) (objects t ++ [no])).
  assert (objects t1 !! obj = Some no) as Hobj.
  { unfold t1, obj. cbn [objects]. apply list_lookup_middle. reflexivity. }
  assert (holds_all less same t1) as Hhold1.
  { intros q n Hq. unfold t1 in Hq. cbn [objects] in Hq.
    apply lookup_app_Some in Hq as [Hq|[_ Hq]]; [eauto|].
    apply list_lookup_singleton_Some in Hq as [_ <-]. cbn. split; congruence. }
  destruct (root t) as [r|] eqn:Er.
  - destruct T as [|l p0 k0 v0 r0]; [discriminate|]. cbn in Hroot. injection Hroot as <-.
    assert (obj ∉ refs (Node l r k0 v0 r0)) as Hout.
    { intros Hin. apply (shape_in_range _ _ _ _ Hs) in Hin. unfold obj in Hin. lia. }
    assert (shape (objects t1) None (Node l r k0 v0 r0)) as Hs1
      by (unfold t1; cbn [objects]; now apply shape_app).
    assert (hangs t1 None r (Node l r k0 v0 r0)) as Hh1 by (intros u [=]).
    assert (holds less same t1 (Node l r k0 v0 r0)) as Hho1 by (intros q n _; apply Hhold1).
    assert (Some obj <> None) as Hne by discriminate.
    pose proof (insert_shape (Node l r k0 v0 r0) fuel t1 r None obj no eq_refl Hs1 Hnd
                  Hh1 (fun _ => eq_refl) Hho1 Hobj eq_refl eq_refl Hout Hne Habs Hsort)
      as Hshape.
    assert (on_return (TreeObject.insert fuel r obj t1) (same_data t1)) as Hsd
      by (apply insert_same_data, same_data_refl).
    destruct (TreeObject.insert fuel r obj t1) as [t'| |] eqn:Eins;
      cbn [bind]; on_return_trivial.
    destruct (Hshape t' eq_refl)
      as (T' & Hs' & Hnd' & Hrefs' & Hitems' & Hsort' & Htop' & Hroot' & _).
    specialize (Hsd t' eq_refl).
    destruct Htop' as [r' Htop']. rewrite Hroot', Htop'. cbn [attr_of bind].
    destruct (TreeObject.check_balance fuel r' t'); cbn [bind]; on_return_trivial.
    apply on_return_Return. exists T'. split; [|exact Hitems'].
    split; [split; [congruence|split; assumption]|].
    split; [eapply holds_all_same_data; eauto|].
    destruct Hsd as (Hc & He & _).
    split; [rewrite Hc; exact Hless|]. split; [rewrite He; exact Hsame|exact Hsort'].
  - apply on_return_Return.
    pose proof (rooted_Leaf t T Hrooted Er) as ->.
    exists (Node Leaf obj k v Leaf). split; [|reflexivity].
    split; [|split; [exact Hhold1|split; [exact Hless|split; [exact Hsame|]]]].
    + split; [reflexivity|]. split; [|cbn; apply NoDup_singleton].
      cbn. exists no. repeat split; auto.
    + cbn. repeat constructor.
Qed.

Lemma fresh_each_perm ks e e' : e ≡ₚ e' -> fresh_each same ks e -> fresh_each same ks e'.
Proof.
  revert e e'. induction ks as [|k ks IH]; intros e e' Hp; [auto|].
  intros [Hk Hks]. split.
  - intros k' Hk'. apply Hk. now rewrite Hp.
  - eapply IH; [|exact Hks]. now constructor.
Qed.

Lemma keys_items T : keys T = (items T).*1.
Proof. reflexivity. Qed.

Lemma insert_each_keeps_order fuel : forall elements t T,
  ordered less same t T ->
  fresh_each same elements.*1 (keys T) ->
  on_return (AvlTree.insert_each fuel elements t) (fun t' =>
    exists T', ordered less same t' T' /\ items T' ≡ₚ rev elements ++ items T).
Proof.
  induction elements as [|[k v] elements IH]; intros t T Ho Hf.
  - apply on_return_Return. exists T. split; [exact Ho|reflexivity].
  - cbn [AvlTree.insert_each]. destruct Hf as [Hk Hf].
    eapply on_return_bind; [apply (insert_keeps_order fuel k v t T Ho Hk)|].
    cbv beta. intros t' (T' & Ho' & Hi').
    eapply on_return_weaken; [apply (IH t' T' Ho')|].
    + eapply fresh_each_perm; [|exact Hf].
      rewrite !keys_items. cbn [fmap list_fmap fst]. rewrite Hi'. reflexivity.
    + cbv beta. intros t'' (T'' & Ho'' & Hi''). exists T''. split; [exact Ho''|].
      rewrite Hi'', Hi'. cbn [rev]. rewrite <- app_assoc. cbn. 
      apply Permutation_app_head. reflexivity.
Qed.

Lemma insert_list_rooted (fuel : nat) (elements : list (K * V)) t (q : ref) :
  root t = Some q ->
  snd (AvlTree.insert_list fuel elements t) = AvlTree.insert_each fuel elements t.
Proof.
  intros Hr. destruct fuel, elements; cbn [AvlTree.insert_list]; rewrite ?Hr; reflexivity.
Qed.

Lemma init_makes_order fuel elements :
  fresh_each same elements.*1 [] ->
  on_return (snd (AvlTree.init fuel elements (Some less) (Some same))) (fun t =>
    exists T, ordered less same t T /\ items T ≡ₚ elements).
Proof.
  intros Hf. unfold AvlTree.init.
  destruct elements as [|[k v] rest].
  - apply on_return_Return. exists Leaf. split; [|reflexivity].
    split; [split; [reflexivity|split; [exact I|constructor]]|].
    split; [intros q n Hq; discriminate|]. repeat split. constructor.
  - cbn [new_TreeObject fst snd length app]. destruct Hf as [_ Hf].
    set (no := mkTreeObject k v None None None (Some less) (Some same)).
    set (t1 := set_root (mkAvlTree None less same [no]) (Some 0)).
    assert (ordered less same t1 (Node Leaf 0 k v Leaf)) as Ho.
    { split; [split; [reflexivity|split; [|cbn; apply NoDup_singleton]]|].
      - cbn. exists no. repeat split; auto.
      - split; [|repeat split; cbn; repeat constructor].
        intros [|q] n Hq; [|discriminate]. injection Hq as <-. now split. }
    destruct (Nat.ltb 0 (length rest)) eqn:El.
    + change (on_return (snd (AvlTree.insert_list fuel rest t1))
                (fun t => exists T, ordered less same t T /\ items T ≡ₚ (k, v) :: rest)).
      rewrite (insert_list_rooted fuel rest t1 0 eq_refl).
      eapply on_return_weaken; [apply (insert_each_keeps_order fuel rest t1 _ Ho Hf)|].
      cbv beta. intros t' (T' & Ho' & Hi'). exists T'. split; [exact Ho'|].
      rewrite Hi'. cbn. rewrite <- Permutation_rev.
      symmetry. apply Permutation_cons_append.
    + cbn [snd]. apply on_return_Return. exists (Node Leaf 0 k v Leaf).
      split; [exact Ho|]. cbn. destruct rest; [reflexivity|discriminate].
Qed.

Lemma pop_lowest_keeps_order fuel t T :
  ordered less same t T ->
  on_return (AvlTree.pop_lowest fuel t) (fun res =>
    match fst res with
    | None => T = Leaf /\ snd res = t
    | Some v => exists k T', items T = (k, v) :: items T' /\ ordered less same (snd res) T'
    end).
Proof.
  intros (Hrooted & Hhold & Hless & Hsame & Hsort).
  pose proof Hrooted as (Hroot & Hs & Hnd).
  unfold AvlTree.pop_lowest. destruct (root t) as [r|] eqn:Er.
  - assert (forall u : ref, None = Some u ->
              (u ∉ refs T) /\ exists un, objects t !! u = Some un /\ left_child un = Some r)
      as Hup by (intros u [=]).
    pose proof (pop_lowest_shape T fuel t r None (eq_sym Hroot) Hs Hnd (fun _ => Er) Hup)
      as Hshape.
    pose proof (pop_lowest_same_data t fuel r t (same_data_refl t)) as Hsd.
    destruct (TreeObject.pop_lowest fuel r t) as [[v t']| |] eqn:Epop;
      cbn [bind]; on_return_trivial.
    apply on_return_Return. cbn [fst snd].
    destruct (Hshape (v, t') eq_refl) as (q & kmin & T' & Hrefs & Hitems & Hs' & Hroot' & _).
    specialize (Hsd (v, t') eq_refl). cbn [fst snd] in *.
    exists kmin, T'. split; [exact Hitems|].
    rewrite Hrefs in Hnd. apply NoDup_cons in Hnd as [_ Hnd'].
    split; [split; [exact Hroot'|split; assumption]|].
    split; [eapply holds_all_same_data; eauto|].
    destruct Hsd as (Hc & He & _).
    split; [congruence|]. split; [congruence|].
    unfold keys in *. rewrite Hitems in Hsort. cbn in Hsort.
    now apply StronglySorted_inv in Hsort as [? _].
  - apply on_return_Return. cbn [fst snd]. split; [|reflexivity].
    eapply rooted_Leaf; eauto.
Qed.

Lemma is_in_finds fuel k t T :
  ordered less same t T ->
  on_return (AvlTree.is_in fuel k t) (fun found =>
    found = true <-> exists k', k' ∈ keys T /\ same k k' = true).
Proof.
  intros (Hrooted & Hhold & Hless & Hsame & Hsort).
  pose proof Hrooted as (Hroot & Hs & Hnd).
  unfold AvlTree.is_in. destruct (root t) as [r|] eqn:Er.
  - apply (is_in_shape T fuel t r None k (eq_sym Hroot) Hs); [|exact Hsort].
    intros q n _. apply Hhold.
  - apply on_return_Return. rewrite (rooted_Leaf t T Hrooted Er).
    split; [discriminate|]. intros (k' & Hk' & _). cbn in Hk'. inversion Hk'.
Qed.

End Insert.

End Rotations.

(** ** The records are in the order of the sweep

    When the comparisons of the numbers order them, [compare_events]
    and [event_equals] order the events, so the queue of events is an
    ordered tree; an event enters it only when it comes after the event
    being handled, and events leave it lowest first. *)

Section Order.
Context {F : Type} `{NumberOrder F}.
Local Open Scope num_scope.

Lemma n_ltb_irrefl (a : F) : (a <? a) = false.
Proof. destruct (a <? a) eqn:E; [|reflexivity]. now rewrite (n_ltb_asym a a E) in E. Qed.

Lemma n_ltb_not_eqb (a b : F) : (a <? b) = true -> (a =? b) = false.
Proof.
  intros Hlt. destruct (a =? b) eqn:E; [|reflexivity].
  rewrite (n_eqb_ltb_l a b b E), n_ltb_irrefl in Hlt. discriminate.
Qed.

Lemma n_eqb_cong_l (a b c : F) : (a =? b) = true -> (a =? c) = (b =? c).
Proof.
  intros E. destruct (b =? c) eqn:E1.
  - eapply n_eqb_trans; eauto.
  - destruct (a =? c) eqn:E2; [|reflexivity].
    rewrite n_eqb_sym in E. rewrite <- E1. symmetry. eapply n_eqb_trans; eauto.
Qed.

Lemma n_eqb_cong_r (a b c : F) : (a =? b) = true -> (c =? a) = (c =? b).
Proof. intros E. rewrite (n_eqb_sym c a), (n_eqb_sym c b). now apply n_eqb_cong_l. Qed.

Lemma compare_events_iff (p q : Point F) :
  FindIntersections.compare_events p q = true <-> sweep_before p q.
Proof.
  unfold FindIntersections.compare_events, sweep_before. split.
  - destruct (y p =? y q) eqn:E; [right|left]; auto.
  - intros [Hlt|[-> Hlt]]; [|exact Hlt].
    apply n_ltb_not_eqb in Hlt as Hne. rewrite n_eqb_sym in Hne. now rewrite Hne.
Qed.

Lemma events_ordered :
  strict_total_order (@FindIntersections.compare_events F _)
                     (@FindIntersections.event_equals F _).
Proof.
  split; unfold FindIntersections.compare_events, FindIntersections.event_equals.
  - intros a b c.
    destruct (y a =? y b) eqn:Eab.
    + rewrite (n_eqb_cong_l _ _ (y c) Eab). rewrite (n_eqb_ltb_r _ _ (y c) Eab).
      destruct (y b =? y c); [apply n_ltb_trans|auto].
    + destruct (y b =? y c) eqn:Ebc.
      * rewrite <- (n_eqb_cong_r _ _ (y a) Ebc), Eab.
        rewrite (n_eqb_ltb_l _ _ (y a) Ebc). auto.
      * intros H1 H2. pose proof (n_ltb_trans _ _ _ H2 H1) as H3.
        apply n_ltb_not_eqb in H3 as H4. rewrite n_eqb_sym in H4. now rewrite H4.
  - intros a b. rewrite (n_eqb_sym (y b) (y a)).
    destruct (y a =? y b) eqn:E.
    + rewrite andb_true_r. apply n_ltb_total.
    + intros H1 _. apply n_ltb_total; [exact H1|]. now rewrite n_eqb_sym.
  - intros a b. rewrite (n_eqb_sym (y b) (y a)).
    destruct (y a =? y b); apply n_ltb_asym.
  - intros a b c (Ex & Ey)%andb_true_iff.
    now rewrite (n_eqb_cong_l _ _ (y c) Ey), (n_eqb_ltb_l _ _ (x c) Ex),
      (n_eqb_ltb_r _ _ (y c) Ey).
  - intros a b c (Ex & Ey)%andb_true_iff.
    now rewrite (n_eqb_cong_r _ _ (y c) Ey), (n_eqb_ltb_r _ _ (x c) Ex),
      (n_eqb_ltb_l _ _ (y c) Ey).
Qed.

End Order.

(** The comparisons of the exact rationals order them. *)

Lemma Qc_ltb_true (a b : Qc) : Qc_ltb a b = true <-> (a < b)%Qc.
Proof.
  unfold Qc_ltb, Qclt. rewrite Qlt_alt. unfold Qccompare.
  destruct (a ?= b)%Q; split; congruence.
Qed.

Lemma Qc_ltb_false (a b : Qc) : Qc_ltb a b = false <-> (b <= a)%Qc.
Proof.
  split.
  - intros E. apply Qcnot_lt_le. intros Hlt%Qc_ltb_true. congruence.
  - intros Hle. destruct (Qc_ltb a b) eqn:E; [|reflexivity].
    apply Qc_ltb_true in E. now apply Qcle_not_lt in Hle.
Qed.

Lemma NumberOrder_Qc : NumberOrder Qc.
Proof.
  split; cbn [n_eqb n_ltb Number_Qc].
  - intros a. now apply Qc_eqb_true.
  - intros a b. destruct (Qc_eqb b a) eqn:E.
    + apply Qc_eqb_true in E. now apply Qc_eqb_true.
    + apply Qc_eqb_false in E. apply Qc_eqb_false. congruence.
  - intros a b c ->%Qc_eqb_true. auto.
  - intros a b c Hab%Qc_ltb_true Hbc%Qc_ltb_true. apply Qc_ltb_true.
    eapply Qclt_trans; eauto.
  - intros a b Hle%Qc_ltb_false Hne%Qc_eqb_false. apply Qc_ltb_true.
    apply Qcle_lt_or_eq in Hle as [Hlt|Heq]; [exact Hlt|congruence].
  - intros a b Hlt%Qc_ltb_true. apply Qc_ltb_false. now apply Qclt_le_weak.
  - intros a b c ->%Qc_eqb_true. reflexivity.
  - intros a b c ->%Qc_eqb_true. reflexivity.
Qed.

(** ** Lists without two equal elements *)

Section Distinct.
Context {A : Type} (R : A -> A -> Prop).

Lemma StronglySorted_filter (f : A -> bool) (l : list A) :
  StronglySorted R l -> StronglySorted R (List.filter f l).
Proof.
  induction 1 as [|a l Hl IH Ha]; cbn [List.filter]; [constructor|].
  destruct (f a); [|exact IH].
  constructor; [exact IH|].
  apply Forall_forall. intros b Hb%list_elem_of_In%filter_In.
  destruct Hb as [Hb _]. rewrite Forall_forall in Ha. apply Ha, list_elem_of_In, Hb.
Qed.

Lemma StronglySorted_weaken (R' : A -> A -> Prop) (l : list A) :
  (forall a b, R a b -> R' a b) -> StronglySorted R l -> StronglySorted R' l.
Proof.
  intros HR. induction 1 as [|a l Hl IH Ha]; constructor; [exact IH|].
  eapply Forall_impl; eauto.
Qed.

Lemma StronglySorted_perm (l l' : list A) :
  (forall a b, R a b -> R b a) ->
  l ≡ₚ l' -> StronglySorted R l -> StronglySorted R l'.
Proof.
  intros Hsym. induction 1 as [|a l l' Hp IH|a b l|l l' l'' _ IH1 _ IH2]; intros Hs.
  - exact Hs.
  - apply StronglySorted_cons in Hs as [Ha Hs].
    apply StronglySorted_cons. split; [now rewrite <- Hp|auto].
  - apply StronglySorted_cons in Hs as [Hb Hs].
    apply StronglySorted_cons in Hs as [Ha Hs].
    apply Forall_cons in Hb as [Hba Hb].
    repeat (apply StronglySorted_cons; split); auto.
  - auto.
Qed.

End Distinct.

Lemma distinct_sorted {A : Type} (eqb : A -> A -> bool) (l : list A) :
  StronglySorted (fun a b => eqb a b = false) (distinct eqb l).
Proof.
  induction l as [|a l IH]; cbn [distinct]; [constructor|].
  constructor; [now apply StronglySorted_filter|].
  apply Forall_forall. intros b Hb%list_elem_of_In%filter_In.
  destruct Hb as [_ Hb]. now apply negb_true_iff in Hb.
Qed.

(** ** The driver keeps the queue of events ordered *)

Lemma on_return_True {A : Type} (m : outcome A) : on_return m (fun _ => True).
Proof. intros a _. exact I. Qed.

Lemma for_each_on_return {A B : Type} (f : A -> B -> outcome B) (I : B -> Prop) :
  (forall a b, I b -> on_return (f a b) I) ->
  forall l b, I b -> on_return (for_each f l b) I.
Proof.
  intros Hf. induction l as [|a l IH]; intros b Hb; cbn [for_each].
  - now apply on_return_Return.
  - eapply on_return_bind; [apply Hf, Hb|]. exact IH.
Qed.

Ltac skip_bind :=
  eapply on_return_bind; [apply on_return_True|]; cbv beta; intros ? _.

Section Driver.
Context {F : Type} `{NumberOrder F} `{SetOrder F}.
Local Open Scope num_scope.
Implicit Types (st : FindIntersections F) (fuel : nat) (p : Point F)
  (q : AvlTree (Point F) (Point F)).

Local Abbreviation compare_events := (@FindIntersections.compare_events F _).
Local Abbreviation event_equals := (@FindIntersections.event_equals F _).

Lemma rekey_queue fuel st q :
  event_queue st = q ->
  on_return (FindIntersections.rekey fuel st) (fun st' => event_queue st' = q).
Proof.
  intros Hq. unfold FindIntersections.rekey.
  eapply on_return_bind; [apply on_return_True|]. cbv beta. intros [? ?] _.
  skip_bind. skip_bind. now apply on_return_Return.
Qed.

Lemma classify_queue fuel p segment c st q :
  event_queue st = q ->
  on_return (FindIntersections.classify fuel p segment (c, st))
            (fun res => event_queue (snd res) = q).
Proof.
  intros Hq. unfold FindIntersections.classify. skip_bind.
  repeat match goal with
         | |- on_return (if ?b then _ else _) _ => destruct b
         | |- on_return (Return _) _ => now apply on_return_Return
         | |- on_return (bind _ _) _ => skip_bind
         end.
Qed.

Ltac let_step :=
  lazymatch goal with
  | |- on_return (let x := ?v in @?body x) ?Q =>
    let y := fresh x in
    change (let y := v in on_return (body y) Q); intros y; clearbody y; cbv beta
  end.

Ltac keep_queue_step :=
  lazymatch goal with
  | |- on_return (let x := _ in _) _ => let_step
  | |- on_return (Return _) _ =>
    apply on_return_Return;
    cbn [fst snd event_queue FindIntersections.set_order
         FindIntersections.set_status_structure
         FindIntersections.set_sweepline_position];
    congruence
  | |- on_return Undefined _ => apply on_return_Undefined
  | |- on_return (Raise _) _ => apply on_return_Raise
  | |- on_return (if ?b then _ else _) _ => destruct b
  | |- on_return (match ?o with Some _ => _ | None => _ end) _ => destruct o
  | |- on_return (match ?o with [] => _ | _ :: _ => _ end) _ => destruct o
  | |- on_return (bind (for_each _ _ ?st) _) _ =>
    eapply on_return_bind;
    [ apply (for_each_on_return _ (fun st' => event_queue st' = event_queue st));
      [ cbv beta; intros ? ? ? | reflexivity ]
    | cbv beta; intros ? ? ]
  | |- on_return (bind _ _) _ => skip_bind
  end.

Ltac keep_queue := repeat keep_queue_step.

Lemma sort_by_sweepline_order_queue segments st q :
  event_queue st = q ->
  on_return (FindIntersections.sort_by_sweepline_order segments st)
            (fun res => event_queue (snd res) = q).
Proof.
  intros Hq. unfold FindIntersections.sort_by_sweepline_order.
  destruct segments as [|s segments]; [now apply on_return_Return|].
  keep_queue.
Qed.

Lemma insert_ordered_queue fuel l st q :
  event_queue st = q ->
  on_return (FindIntersections.insert_ordered fuel l st) (fun st' => event_queue st' = q).
Proof. intros Hq. unfold FindIntersections.insert_ordered. keep_queue. Qed.

Lemma line_intersection_queue (l r : Line F) st :
  event_queue (snd (FindIntersections.line_intersection l r st)) = event_queue st.
Proof.
  unfold FindIntersections.line_intersection. cbv zeta.
  destruct (linalg_solve _ _ _ _ _ _) as [[t ?]|]; [|reflexivity].
  cbn [FindIntersections.new_Point].
  destruct (_ && _); reflexivity.
Qed.

Lemma find_new_event_queue fuel (left_segment right_segment : nat) p st :
  queue_of (after p) (event_queue st) ->
  on_return (FindIntersections.find_new_event fuel left_segment right_segment p st)
            (fun st' => queue_of (after p) (event_queue st')).
Proof.
  intros Hq. unfold FindIntersections.find_new_event.
  skip_bind. skip_bind.
  match goal with
  | |- context [FindIntersections.line_intersection ?l ?r st] =>
    pose proof (line_intersection_queue l r st) as Hli;
    destruct (FindIntersections.line_intersection l r st) as [res st1]
  end.
  cbn [snd] in Hli. rewrite <- Hli in Hq.
  destruct res as [|ix iy|]; [now apply on_return_Return| |apply on_return_Raise].
  destruct (_ || _) eqn:Eguard; [|now apply on_return_Return].
  cbn [FindIntersections.new_Point event_queue].
  set (ip := mkPoint ix iy (points_made st1)).
  destruct Hq as (T & Hord & Hdiag & Hafter).
  eapply on_return_bind;
    [apply (is_in_finds _ _ events_ordered fuel ip _ T Hord)|].
  cbv beta. intros found Hfound.
  destruct found; cbn [negb]; [apply on_return_Return; now exists T|].
  assert (forall k', k' ∈ keys T -> event_equals ip k' = false) as Habs.
  { intros k' Hk'. destruct (event_equals ip k') eqn:E; [|reflexivity].
    enough (false = true) by discriminate. apply Hfound. eauto. }
  eapply on_return_bind;
    [apply (insert_keeps_order _ _ events_ordered fuel ip ip _ T Hord Habs)|].
  cbv beta. intros q' (T' & Hord' & Hitems'). apply on_return_Return.
  cbn [event_queue FindIntersections.set_event_queue].
  exists T'. split; [exact Hord'|]. split.
  - rewrite Hitems'. constructor; [reflexivity|exact Hdiag].
  - unfold keys. rewrite Hitems'. cbn [map fst]. constructor; [|exact Hafter].
    unfold after. apply compare_events_iff. unfold sweep_before. cbn [x y ip].
    apply orb_true_iff in Eguard as [Hlt|(He & Hlt)%andb_true_iff]; [now left|right].
    split; [now rewrite n_eqb_sym|exact Hlt].
Qed.

Lemma test_neighbors_queue fuel p (c : FindIntersections.classification)
    (upper_contains_p : list nat) st :
  queue_of (after p) (event_queue st) ->
  on_return (FindIntersections.test_neighbors fuel p c upper_contains_p st)
            (fun st' => queue_of (after p) (event_queue st')).
Proof.
  intros Hq. unfold FindIntersections.test_neighbors.
  destruct (Nat.eqb _ 0).
  - eapply on_return_bind; [apply on_return_True|]. cbv beta. intros [[l|] [r|]] _;
      try (now apply on_return_Return).
    now apply find_new_event_queue.
  - destruct upper_contains_p as [|first rest]; [apply on_return_Undefined|].
    skip_bind. skip_bind. skip_bind. skip_bind. skip_bind.
    eapply on_return_bind with (P := fun st' => queue_of (after p) (event_queue st')).
    { match goal with
      | |- on_return (match ?o with Some _ => _ | None => _ end) _ =>
        destruct o as [left_neighbor|]; [|now apply on_return_Return]
      end.
      destruct (negb _); [now apply find_new_event_queue|now apply on_return_Return]. }
    cbv beta. intros st1 Hq1. skip_bind. skip_bind.
    match goal with
    | |- on_return (match ?o with Some _ => _ | None => _ end) _ =>
      destruct o as [right_neighbor|]; [|now apply on_return_Return]
    end.
    destruct (negb _); [now apply find_new_event_queue|now apply on_return_Return].
Qed.

Lemma handle_event_points_queue fuel p (line_segments : list nat)
    (intersection_list : list (Point F * list nat)) st :
  queue_of (after p) (event_queue st) ->
  on_return (FindIntersections.handle_event_points fuel p line_segments
               intersection_list st)
    (fun res =>
       (fst res = intersection_list \/
        exists segments, fst res = intersection_list ++ [(p, segments)]) /\
       queue_of (after p) (event_queue (snd res))).
Proof.
  intros Hq. unfold FindIntersections.handle_event_points. cbv zeta.
  set (q := event_queue st) in *.
  eapply on_return_bind; [apply (rekey_queue fuel _ q); reflexivity|].
  cbv beta. intros st1 Hq1.
  eapply on_return_bind with (P := fun res => event_queue (snd res) = q).
  { apply (for_each_on_return _ (fun res => event_queue (snd res) = q)); [|exact Hq1].
    intros segment [c st2] Hq2. now apply classify_queue. }
  cbv beta. intros [c st2] Hq2. cbn [snd] in Hq2.
  eapply on_return_bind;
    [apply (sort_by_sweepline_order_queue _ _ q); exact Hq2|].
  cbv beta. intros [upper_contains_p st3] Hq3. cbn [snd] in Hq3.
  eapply on_return_bind; [apply (insert_ordered_queue fuel _ _ q); exact Hq3|].
  cbv beta. intros st4 Hq4.
  eapply on_return_bind;
    [apply (test_neighbors_queue fuel p c upper_contains_p st4); rewrite Hq4; exact Hq|].
  cbv beta. intros st5 Hq5. apply on_return_Return. cbn [fst snd]. split; [|exact Hq5].
  destruct (Nat.ltb 1 _); [right; eauto|now left].
Qed.

Lemma queue_of_weaken (P Q : Point F -> Prop) q :
  (forall k, P k -> Q k) -> queue_of P q -> queue_of Q q.
Proof.
  intros HPQ (T & Hord & Hdiag & HP). exists T. split; [exact Hord|].
  split; [exact Hdiag|]. eapply Forall_impl; eauto.
Qed.

Local Abbreviation in_sweep_order :=
  (StronglySorted (fun r1 r2 : Point F * list nat => sweep_before (fst r1) (fst r2))).

Lemma find_intersections_loop_sorted fuel (line_segments : list nat) :
  forall turns recs st,
  loop_inv recs (event_queue st) ->
  on_return (FindIntersections.find_intersections_loop turns fuel line_segments recs st)
            in_sweep_order.
Proof.
  induction turns as [|turns IH]; intros recs st [Hsorted Hq];
    cbn [FindIntersections.find_intersections_loop];
    destruct (root (event_queue st)) as [top_event|];
    try (now apply on_return_Return);
    [apply on_return_Undefined|].
  destruct Hq as (T & Hord & Hdiag & Hrecs).
  eapply on_return_bind;
    [apply (pop_lowest_keeps_order _ _ fuel _ T Hord)|].
  cbv beta. intros [[v|] q'] Hpop; cbn [fst snd attr_of bind] in *;
    [|apply on_return_Raise].
  destruct Hpop as (k & T' & Hitems & Hord').
  rewrite Hitems in Hdiag. apply Forall_cons in Hdiag as [Hv Hdiag'].
  cbn [fst snd] in Hv. subst v.
  unfold keys in Hrecs. rewrite Hitems in Hrecs. cbn [map fst] in Hrecs.
  apply Forall_cons in Hrecs as [Hk Hrecs'].
  destruct Hord as (_ & _ & _ & _ & HsortT).
  unfold keys in HsortT. rewrite Hitems in HsortT. cbn [map fst] in HsortT.
  apply StronglySorted_cons in HsortT as [Hafter _].
  eapply on_return_bind.
  { apply (handle_event_points_queue fuel k line_segments recs
             (FindIntersections.set_event_queue st q')).
    exists T'. split; [exact Hord'|]. split; [exact Hdiag'|exact Hafter]. }
  cbv beta. intros [recs' st'] [Hrecs'' Hq']. cbn [fst snd] in *.
  apply IH. split.
  - destruct Hrecs'' as [->|[segments ->]]; [exact Hsorted|].
    apply StronglySorted_app. split; [|split; [exact Hsorted|repeat constructor]].
    intros r1 r2 Hr1 ->%list_elem_of_singleton. cbn [fst].
    apply compare_events_iff. now apply Hk.
  - eapply queue_of_weaken; [|exact Hq'].
    intros k' Hk' r Hr. unfold after in Hk'.
    assert (r ∈ recs \/ fst r = k) as [Hr'|Hr'].
    { destruct Hrecs'' as [->|[segments ->]]; [now left|].
      apply elem_of_app in Hr as [Hr|Hr]; [now left|right].
      apply list_elem_of_singleton in Hr. now subst r. }
    + eapply (less_trans _ _ events_ordered); [apply Hk, Hr'|exact Hk'].
    + now rewrite Hr'.
Qed.

Lemma fresh_each_sorted (ks existing : list (Point F)) :
  StronglySorted (fun a b => event_equals b a = false) ks ->
  (forall k k', k ∈ ks -> k' ∈ existing -> event_equals k k' = false) ->
  fresh_each event_equals ks existing.
Proof.
  revert existing. induction ks as [|k ks IH]; intros existing Hs He; [exact I|].
  apply StronglySorted_cons in Hs as [Hk Hs]. split.
  - intros k' Hk'. apply He; [left|exact Hk'].
  - apply IH; [exact Hs|]. intros a b Ha [->|Hb]%elem_of_cons.
    + rewrite Forall_forall in Hk. now apply Hk.
    + apply He; [now right|exact Hb].
Qed.

Lemma event_point_factory_coordinates (event_points : list (F * F)) :
  forall acc st,
  map coordinates
    (fst (fold_left (fun acc event_point =>
            let '(p, st) := FindIntersections.new_Point (fst event_point)
                              (snd event_point) (snd acc) in
            (fst acc ++ [p], st)) event_points (acc, st)))
  = map coordinates acc ++ event_points.
Proof.
  induction event_points as [|[cx cy] event_points IH]; intros acc st; cbn [fold_left].
  - cbn [fst]. now rewrite app_nil_r.
  - cbn [FindIntersections.new_Point fst snd]. rewrite IH, map_app.
    cbn [map coordinates x y]. now rewrite <- app_assoc.
Qed.

Lemma event_points_fresh `{!SetOrderLaws H1} (lines : list ((F * F) * (F * F))) st :
  fresh_each event_equals
    (map fst (map (fun event_point : Point F => (event_point, event_point))
                  (fst (FindIntersections.event_point_factory lines st)))) [].
Proof.
  rewrite map_map. cbn [fst]. rewrite map_id.
  apply fresh_each_sorted; [|intros k k' _ Hk'; inversion Hk'].
  unfold FindIntersections.event_point_factory. cbv zeta.
  set (same := fun p q : F * F => (fst p =? fst q) && (snd p =? snd q)).
  match goal with
  | |- StronglySorted _ (fst ?points) =>
    assert (map coordinates (fst points)
            = list_of_points (distinct same (map fst lines ++ map snd lines))) as Hc
      by apply (event_point_factory_coordinates _ [] st);
    generalize dependent (fst points)
  end.
  intros points Hc.
  assert (forall a b, same a b = same b a) as Hsym.
  { intros a b. unfold same. now rewrite (n_eqb_sym (fst a)), (n_eqb_sym (snd a)). }
  assert (StronglySorted (fun a b => same b a = false) (map coordinates points)) as Hs.
  { rewrite Hc.
    apply (StronglySorted_weaken (fun a b => same a b = false));
      [intros a b; now rewrite Hsym|].
    eapply StronglySorted_perm;
      [|symmetry; apply list_of_points_perm|apply distinct_sorted].
    intros a b. now rewrite Hsym. }
  clear Hc. induction points as [|p points IH]; [constructor|].
  cbn [map] in Hs. apply StronglySorted_cons in Hs as [Hp Hs].
  constructor; [now apply IH|].
  rewrite Forall_fmap in Hp. exact Hp.
Qed.

Lemma find_intersections_sorted fuel (line_segments : list nat)
    (event_points : list (Point F)) st :
  fresh_each event_equals
    (map fst (map (fun event_point : Point F => (event_point, event_point))
                  event_points)) [] ->
  on_return (FindIntersections.find_intersections fuel line_segments event_points st)
            in_sweep_order.
Proof.
  intros Hfresh. unfold FindIntersections.find_intersections.
  eapply on_return_bind;
    [apply (init_makes_order _ _ events_ordered fuel _ Hfresh)|].
  cbv beta. intros q (T & Hord & Hitems).
  skip_bind. apply find_intersections_loop_sorted. split; [constructor|].
  exists T. split; [exact Hord|]. split.
  - rewrite Hitems. apply Forall_forall. intros kv Hkv.
    apply list_elem_of_fmap in Hkv as (p & -> & _). reflexivity.
  - apply Forall_forall. intros k _ r Hr. inversion Hr.
Qed.

Lemma search_intersections_sorted `{!SetOrderLaws H1} fuel
    (lines : list ((F * F) * (F * F))) :
  on_return (FindIntersections.search_intersections fuel lines) in_sweep_order.
Proof.
  unfold FindIntersections.search_intersections. cbv zeta.
  destruct (FindIntersections.line_factory lines FindIntersections.fresh)
    as [line_segments st].
  pose proof (event_points_fresh lines st) as Hfresh.
  destruct (FindIntersections.event_point_factory lines st) as [event_points st'].
  now apply find_intersections_sorted.
Qed.

End Driver.

(** X28.  Whatever segments [search_intersections] is given, if it returns
    then the records it returns are in the order of the sweep: of two
    records, the point of the one emitted first has the strictly greater
    y, or an equal y and the strictly smaller x.  The numbers are any
    whose comparisons order them (as the comparisons of Python do away
    from NaN), and the iteration over the set of event points may list
    it in any order. *)
Theorem records_in_sweep_order {F : Type} `{NumberOrder F} (O : SetOrder F)
    (laws : SetOrderLaws O) (fuel : nat) (lines : list ((F * F) * (F * F)))
    (recs : list (Point F * list nat)) (i j : nat) (r1 r2 : Point F * list nat) :
  FindIntersections.search_intersections fuel lines = Return recs ->
  (i < j)%nat -> recs !! i = Some r1 -> recs !! j = Some r2 ->
  sweep_before (fst r1) (fst r2).
Proof.
  intros Hrun Hij H1 H2.
  pose proof (search_intersections_sorted fuel lines recs Hrun) as Hsorted.
  apply lookup_lt_Some in H1 as Hi.
  rewrite <- (take_drop_middle recs i r1 H1) in Hsorted, H2.
  apply StronglySorted_app in Hsorted as (_ & _ & Hsorted).
  apply StronglySorted_cons in Hsorted as [Hr1 _].
  rewrite Forall_forall in Hr1. apply Hr1.
  rewrite lookup_app_r in H2 by (rewrite length_take; lia).
  rewrite length_take, Nat.min_l in H2 by lia.
  destruct (j - i)%nat as [|n] eqn:E; [lia|]. cbn in H2.
  eapply list_elem_of_lookup_2; eauto.
Qed.

Lemma records_in_sweep_order_witness :
  exists recs r1 r2,
    @FindIntersections.search_intersections Qc _ (SetOrder_first_met Qc) 50 three_segments
      = Return recs /\
    recs !! 0%nat = Some r1 /\ recs !! 1%nat = Some r2 /\
    sweep_before (fst r1) (fst r2).
Proof.
  assert (exists recs,
            @FindIntersections.search_intersections Qc _ (SetOrder_first_met Qc) 50
              three_segments = Return recs /\
            exists r1 r2, recs !! 0%nat = Some r1 /\ recs !! 1%nat = Some r2)
    as (recs & Hrun & r1 & r2 & H1 & H2).
  { vm_compute. eexists. split; [reflexivity|]. eexists. eexists. split; reflexivity. }
  exists recs, r1, r2. split; [exact Hrun|]. split; [exact H1|]. split; [exact H2|].
  exact (@records_in_sweep_order Qc _ NumberOrder_Qc (SetOrder_first_met Qc)
           (SetOrder_first_met_laws Qc) 50 three_segments recs 0 1 r1 r2
           Hrun (le_n 1) H1 H2).
Defined.

(** ** An ordered tree as the set of its pairs *)

Lemma Z_ordered : strict_total_order Z.ltb Z.eqb.
Proof.
  split.
  - intros a b c Hab%Z.ltb_lt Hbc%Z.ltb_lt. apply Z.ltb_lt. lia.
  - intros a b Hab%Z.ltb_ge Hne%Z.eqb_neq. apply Z.ltb_lt. lia.
  - intros a b Hab%Z.ltb_lt. apply Z.ltb_ge. lia.
  - intros a b c ->%Z.eqb_eq. reflexivity.
  - intros a b c ->%Z.eqb_eq. reflexivity.
Qed.

(** ** Reading a tree *)

Section Reading.
Context {K V : Type} `{PyKey K} `{PyObj V}.
Implicit Types (t : AvlTree K V) (n : TreeObject K V) (p q : ref)
  (T l r : tree K V).

Lemma check_height_shape : forall T fuel t p up,
  top T = Some p -> shape (objects t) up T -> height T <= fuel ->
  TreeObject.check_height fuel p t = Return (Z.of_nat (height T) - 1)%Z.
Proof.
  induction T as [|l IHl p0 k v r IHr]; intros fuel t p up Htop Hs Hfuel;
    [discriminate|].
  cbn in Htop. injection Htop as ->.
  destruct fuel as [|fuel]; [cbn in Hfuel; lia|].
  destruct Hs as (n & Hn & _ & _ & _ & Hl & Hr & Hsl & Hsr).
  cbn [height] in Hfuel.
  cbn [TreeObject.check_height]. rewrite (node_Return t p n Hn). cbn [bind].
  assert (TreeObject.height_of (fun c => TreeObject.check_height fuel c t) (left_child n)
          = Return (Z.of_nat (height l))) as ->.
  { rewrite Hl. destruct l as [|ll lp lk lv lr]; [reflexivity|]. cbn [top TreeObject.height_of].
    rewrite (IHl fuel t lp (Some p) eq_refl Hsl) by (cbn [height] in *; lia). cbn [bind]. f_equal. ring. }
  assert (TreeObject.height_of (fun c => TreeObject.check_height fuel c t) (right_child n)
          = Return (Z.of_nat (height r))) as ->.
  { rewrite Hr. destruct r as [|rl rp rk rv rr]; [reflexivity|]. cbn [top TreeObject.height_of].
    rewrite (IHr fuel t rp (Some p) eq_refl Hsr) by (cbn [height] in *; lia). cbn [bind]. f_equal. ring. }
  cbn [bind height]. f_equal. lia.
Qed.

Lemma height_of_shape T fuel t up :
  shape (objects t) up T -> height T <= fuel ->
  TreeObject.height_of (fun c => TreeObject.check_height fuel c t) (top T)
  = Return (Z.of_nat (height T)).
Proof.
  intros Hs Hfuel. destruct T as [|l p k v r]; [reflexivity|].
  cbn [top TreeObject.height_of].
  rewrite (check_height_shape (Node l p k v r) fuel t p up eq_refl Hs Hfuel). cbn [bind]. f_equal. lia.
Qed.

Lemma check_balance_shape fuel t l p k v r up :
  shape (objects t) up (Node l p k v r) ->
  height (Node l p k v r) <= fuel ->
  TreeObject.check_balance fuel p t
  = Return (Z.of_nat (height r) - Z.of_nat (height l))%Z.
Proof.
  intros (n & Hn & _ & _ & _ & Hl & Hr & Hsl & Hsr) Hfuel. cbn [height] in Hfuel.
  unfold TreeObject.check_balance, TreeObject.height_right, TreeObject.height_left.
  rewrite (node_Return t p n Hn). cbn [bind]. rewrite Hl, Hr.
  rewrite (height_of_shape r fuel t (Some p) Hsr) by lia. cbn [bind].
  rewrite (height_of_shape l fuel t (Some p) Hsl) by lia. reflexivity.
Qed.

Lemma find_lowest_shape : forall T fuel t p up,
  top T = Some p -> shape (objects t) up T -> height T <= fuel ->
  exists k v rest, items T = (k, v) :: rest /\
    TreeObject.find_lowest fuel p t = Return v.
Proof.
  induction T as [|l IHl p0 k v r _]; intros fuel t p up Htop Hs Hfuel; [discriminate|].
  cbn in Htop. injection Htop as ->.
  destruct fuel as [|fuel]; [cbn in Hfuel; lia|].
  destruct Hs as (n & Hn & _ & Hv & _ & Hl & _ & Hsl & _).
  cbn [height] in Hfuel.
  cbn [TreeObject.find_lowest]. rewrite (node_Return t p n Hn). cbn [bind]. rewrite Hl.
  destruct l as [|ll lp lk lv lr].
  - cbn [top items app]. exists k, v, (items r). split; [reflexivity|]. now rewrite Hv.
  - cbn [top].
    destruct (IHl fuel t lp (Some p) eq_refl Hsl) as (k0 & v0 & rest & Hitems & Hfind);
      [cbn [height] in *; lia|].
    exists k0, v0, (rest ++ (k, v) :: items r). split; [|exact Hfind].
    change (items (Node (Node ll lp lk lv lr) p k v r))
      with (items (Node ll lp lk lv lr) ++ (k, v) :: items r).
    now rewrite Hitems.
Qed.

Lemma find_highest_shape : forall T fuel t p up,
  top T = Some p -> shape (objects t) up T -> height T <= fuel ->
  exists k v rest, items T = rest ++ [(k, v)] /\
    TreeObject.find_highest fuel p t = Return v.
Proof.
  induction T as [|l _ p0 k v r IHr]; intros fuel t p up Htop Hs Hfuel; [discriminate|].
  cbn in Htop. injection Htop as ->.
  destruct fuel as [|fuel]; [cbn in Hfuel; lia|].
  destruct Hs as (n & Hn & _ & Hv & _ & _ & Hr & _ & Hsr).
  cbn [height] in Hfuel.
  cbn [TreeObject.find_highest]. rewrite (node_Return t p n Hn). cbn [bind]. rewrite Hr.
  destruct r as [|rl rp rk rv rr].
  - cbn [top items]. exists k, v, (items l). split; [reflexivity|]. now rewrite Hv.
  - cbn [top].
    destruct (IHr fuel t rp (Some p) eq_refl Hsr) as (k0 & v0 & rest & Hitems & Hfind);
      [cbn [height] in *; lia|].
    exists k0, v0, (items l ++ (k, v) :: rest). split; [|exact Hfind].
    change (items (Node l p k v (Node rl rp rk rv rr)))
      with (items l ++ (k, v) :: items (Node rl rp rk rv rr)).
    rewrite Hitems, <- app_assoc. reflexivity.
Qed.

(** X3.  On a tree of linked nodes, given a recursion budget of at least
    its height, [check_height] returns the greater of the heights of the
    two subtrees of the root and [check_balance] returns the height of
    the right subtree minus the height of the left one; heights count
    the nodes on the longest way down. *)
Theorem check_balance_is_height_difference t l p k v r (fuel : nat) :
  rooted t (Node l p k v r) ->
  height (Node l p k v r) <= fuel ->
  AvlTree.check_height fuel t = Return (Z.of_nat (Nat.max (height l) (height r))) /\
  AvlTree.check_balance fuel t = Return (Z.of_nat (height r) - Z.of_nat (height l))%Z.
Proof.
  intros (Hroot & Hs & _) Hfuel. cbn [top] in Hroot.
  unfold AvlTree.check_height, AvlTree.check_balance. rewrite Hroot. cbn [attr_of bind].
  split.
  - rewrite (check_height_shape (Node l p k v r) fuel t p None eq_refl Hs Hfuel).
    f_equal. cbn [height]. lia.
  - exact (check_balance_shape fuel t l p k v r None Hs Hfuel).
Qed.

(** X4.  On a tree of linked nodes that is not empty, given a recursion
    budget of at least its height, [find_lowest] returns the value of
    the first pair and [find_highest] the value of the last pair of the
    tree read from left to right, which in an ordered tree are the pairs
    of the least and of the greatest key. *)
Theorem find_lowest_and_highest t T (fuel : nat) :
  rooted t T -> height T <= fuel ->
  (forall k v rest, items T = (k, v) :: rest ->
     AvlTree.find_lowest fuel t = Return v) /\
  (forall k v rest, items T = rest ++ [(k, v)] ->
     AvlTree.find_highest fuel t = Return v).
Proof.
  intros (Hroot & Hs & _) Hfuel.
  unfold AvlTree.find_lowest, AvlTree.find_highest. rewrite Hroot.
  split; intros k v rest Hitems;
    (destruct T as [|l p k0 v0 r]; [now destruct rest|]); cbn [top attr_of bind].
  - destruct (find_lowest_shape (Node l p k0 v0 r) fuel t p None eq_refl Hs Hfuel)
      as (k' & v' & rest' & Hitems' & ->).
    rewrite Hitems in Hitems'. now injection Hitems' as _ ->.
  - destruct (find_highest_shape (Node l p k0 v0 r) fuel t p None eq_refl Hs Hfuel)
      as (k' & v' & rest' & Hitems' & ->).
    rewrite Hitems in Hitems'. apply app_inj_tail in Hitems' as [_ [= _ ->]].
    reflexivity.
Qed.

(** X5.  What each method does on the empty tree: [find_lowest],
    [find_highest], [check_height], [check_balance] and [remove] raise
    [AttributeError]; [pop_lowest] and [pop_highest] return [None],
    [is_in] returns [False], [find_neighbors] returns [(None, None)],
    the two neighbour searches by pair return [None], [pop_all] returns
    the empty list, and [remove_pair] returns; none of these changes the
    tree. *)
Theorem methods_on_the_empty_tree t (fuel : nat) (k : K) (v : V) :
  root t = None ->
  AvlTree.find_lowest fuel t = Raise AttributeError /\
  AvlTree.find_highest fuel t = Raise AttributeError /\
  AvlTree.check_height fuel t = Raise AttributeError /\
  AvlTree.check_balance fuel t = Raise AttributeError /\
  AvlTree.remove fuel k t = Raise AttributeError /\
  AvlTree.pop_lowest fuel t = Return (None, t) /\
  AvlTree.pop_highest fuel t = Return (None, t) /\
  AvlTree.is_in fuel k t = Return false /\
  AvlTree.find_neighbors fuel k t = Return (None, None) /\
  AvlTree.find_left_neighbor_by_pair fuel k v t = Return None /\
  AvlTree.find_right_neighbor_by_pair fuel k v t = Return None /\
  AvlTree.pop_all fuel t = Return ([], t) /\
  AvlTree.remove_pair fuel k v t = Return t.
Proof.
  intros Hroot.
  unfold AvlTree.find_lowest, AvlTree.find_highest, AvlTree.check_height,
    AvlTree.check_balance, AvlTree.remove, AvlTree.pop_lowest, AvlTree.pop_highest,
    AvlTree.is_in, AvlTree.find_neighbors, AvlTree.find_left_neighbor_by_pair,
    AvlTree.find_right_neighbor_by_pair, AvlTree.pop_all, AvlTree.remove_pair.
  rewrite Hroot. repeat split.
  destruct fuel; cbn [AvlTree.pop_all_loop]; now rewrite Hroot.
Qed.

(** X6.  [pop_highest] on a tree whose root has no right child returns
    the value of the root and leaves the tree empty: the root is set to
    [None], so every pair of the left subtree is lost with it. *)
Theorem pop_highest_empties_the_tree t l p k v (fuel : nat) :
  rooted t (Node l p k v Leaf) ->
  exists t', AvlTree.pop_highest (S fuel) t = Return (Some v, t') /\
    root t' = None /\ objects t' = objects t.
Proof.
  intros (Hroot & Hs & _). cbn [top] in Hroot.
  destruct Hs as (n & Hn & _ & Hv & Hp & _ & Hr & _).
  unfold AvlTree.pop_highest. rewrite Hroot. cbn [TreeObject.pop_highest].
  rewrite (node_Return t p n Hn). cbn [bind]. rewrite Hr, Hp. cbn [top bind].
  unfold node. cbn [set_root objects]. rewrite Hn. cbn [bind]. rewrite Hv.
  eexists. split; [reflexivity|]. split; reflexivity.
Qed.

(** X7.  The constructor called without a comparator on two or more
    elements raises [TypeError]: the root node is made with the
    argument [comparator], which is [None], and not with the default
    that the tree keeps, and the first insertion calls it. *)
Theorem init_without_comparator_raises (fuel : nat) (e1 e2 : K * V)
    (elements : list (K * V)) (equals : option (K -> K -> bool)) :
  snd (AvlTree.init (S fuel) (e1 :: e2 :: elements) None equals) = Raise TypeError.
Proof.
  unfold AvlTree.init. cbn [new_TreeObject length Nat.ltb Nat.leb fst snd app].
  cbn [AvlTree.insert_list set_root root snd AvlTree.insert_each AvlTree.insert
       new_TreeObject fst objects length app].
  cbn [TreeObject.insert]. reflexivity.
Qed.

End Reading.

(** ** The methods return *)

Ltac store_rw :=
  unfold set_parent, set_left_child, set_right_child;
  repeat first
    [ rewrite lookup_set_root
    | rewrite lookup_update_eq
    | rewrite lookup_update_ne
        by (first [assumption | apply not_eq_sym; assumption | congruence]) ].

Section Returning.
Context {K V : Type} `{PyKey K} `{PyObj V}.
Implicit Types (t : AvlTree K V) (n : TreeObject K V) (p q : ref)
  (T l r : tree K V).

Lemma height_le_size T : height T <= length (refs T).
Proof.
  induction T as [|l IHl p k v r IHr]; cbn [height refs length]; [lia|].
  rewrite length_app. cbn [length]. lia.
Qed.

Lemma rebalance_returns fuel t l p k v r up :
  let T := Node l p k v r in
  shape (objects t) up T -> NoDup (refs T) ->
  (forall u, up = Some u -> (u ∉ refs T) /\ is_Some (objects t !! u)) ->
  height T <= fuel ->
  exists t', TreeObject.rebalance fuel p t = Return t'.
Proof.
  intros T Hs Hnd Hup Hfuel. unfold TreeObject.rebalance.
  rewrite (check_balance_shape fuel t l p k v r up Hs Hfuel). cbn [bind].
  destruct (_ <? -1)%Z eqn:E1; [|destruct (_ >? 1)%Z eqn:E2].
  - destruct l as [|a x kx vx b]; [apply Z.ltb_lt in E1; cbn [height] in E1; lia|].
    destruct (simple_rot_right_shape t a x kx vx b p k v r up Hs Hnd Hup) as (t' & E & _).
    eauto.
  - destruct r as [|b y ky vy c]; [apply Z.gtb_lt in E2; cbn [height] in E2; lia|].
    destruct (simple_rot_left_shape t l p k v b y ky vy c up Hs Hnd Hup) as (t' & E & _).
    eauto.
  - eauto.
Qed.

Section Ordered.
Context (less same : K -> K -> bool) (Hord : strict_total_order less same).

Local Abbreviation sorted := (StronglySorted (fun a b => less a b = true)) (only parsing).

Lemma insert_finish_total fuel t t1 l p k v r l1 r1 up obj (kv : K * V) :
  let T := Node l p k v r in
  let T1 := Node l1 p k v r1 in
  shape (objects t1) up T1 -> NoDup (refs T1) ->
  refs T1 ≡ₚ obj :: refs T -> items T1 ≡ₚ kv :: items T -> sorted (keys T1) ->
  hangs t up p T -> (up = None -> root t = Some p) -> root t1 = root t ->
  Some obj <> up ->
  (forall q, q ∉ refs T -> q <> obj -> objects t1 !! q = objects t !! q) ->
  length (refs T) < fuel ->
  exists t', TreeObject.rebalance fuel p t1 = Return t' /\ exists T',
    shape (objects t') up T' /\ NoDup (refs T') /\ refs T' ≡ₚ obj :: refs T /\
    items T' ≡ₚ kv :: items T /\ sorted (keys T') /\
    is_Some (top T') /\
    root t' = match up with None => top T' | Some _ => root t end /\
    (forall q, q ∉ refs T -> q <> obj -> Some q <> up ->
       objects t' !! q = objects t !! q) /\
    (forall u, up = Some u ->
       objects t' !! u = replace_child p (top T') <$> objects t !! u).
Proof.
  intros T T1 Hs1 Hnd1 Hrefs Hitems Hsort Hh Hroot Hroot1 Houp Hf Hfuel.
  destruct (rebalance_returns fuel t1 l1 p k v r1 up Hs1 Hnd1) as (t' & E).
  - intros u Eu. destruct (Hh u Eu) as (HuT & un & Hun & _).
    assert (u <> obj) by congruence. split.
    + fold T1. rewrite Hrefs. intros [?|?]%elem_of_cons; [congruence|contradiction].
    + rewrite Hf; eauto.
  - pose proof (height_le_size T1) as Hh1. rewrite Hrefs in Hh1. cbn [length] in Hh1.
    unfold T, T1 in *. lia.
  - exists t'. split; [exact E|].
    exact (insert_finish less fuel t t1 l p k v r l1 r1 up obj kv
             Hs1 Hnd1 Hrefs Hitems Hsort Hh Hroot Hroot1 Houp Hf t' E).
Qed.

Lemma insert_total : forall T fuel t p up obj no,
  top T = Some p ->
  shape (objects t) up T -> NoDup (refs T) -> hangs t up p T ->
  (up = None -> root t = Some p) ->
  holds less same t T ->
  objects t !! obj = Some no -> left_child no = None -> right_child no = None ->
  obj ∉ refs T -> Some obj <> up ->
  (forall k', k' ∈ keys T -> same (key no) k' = false) ->
  sorted (keys T) ->
  length (refs T) < fuel ->
  exists t', TreeObject.insert fuel p obj t = Return t' /\ exists T',
    shape (objects t') up T' /\ NoDup (refs T') /\ refs T' ≡ₚ obj :: refs T /\
    items T' ≡ₚ (key no, value no) :: items T /\ sorted (keys T') /\
    is_Some (top T') /\
    root t' = match up with None => top T' | Some _ => root t end /\
    (forall q, q ∉ refs T -> q <> obj -> Some q <> up ->
       objects t' !! q = objects t !! q) /\
    (forall u, up = Some u ->
       objects t' !! u = replace_child p (top T') <$> objects t !! u).
Proof.
  induction T as [|l IHl p0 k v r IHr];
    intros fuel t p up obj no Htop Hs Hnd Hh Hroot Hhold Hobj Hol Hor Hout Houp Habs Hsort
           Hfuel;
    [discriminate|].
  cbn in Htop. injection Htop as ->.
  destruct fuel as [|fuel]; [lia|].
  assert (length (refs l) + length (refs r) < fuel) as Hsize.
  { cbn [refs] in Hfuel. rewrite length_app in Hfuel. cbn [length] in Hfuel. lia. }
  pose proof Hs as (n & Hn & Hk & Hv & Hpar & Hl & Hr & Hsl & Hsr).
  pose proof Hnd as (Hndl & Hndr & Hpl & Hpr & Hlr)%NoDup_Node.
  pose proof Hsort as (Hsortl & Hsortr & Hlk & Hkr)%(sorted_Node less same Hord).
  assert (p <> obj) as Hpo by (intros ->; apply Hout, refs_Node; auto).
  assert (obj ∉ refs l) as Hol' by (intros ?; apply Hout, refs_Node; auto).
  assert (obj ∉ refs r) as Hor' by (intros ?; apply Hout, refs_Node; auto).
  destruct (Hhold p n) as [Hcmp Heq]; [apply refs_Node; auto | exact Hn |].
  cbn [TreeObject.insert].
  rewrite (node_Return t p n Hn), (node_Return t obj no Hobj). cbn [bind].
  rewrite Hcmp, Heq. cbn [callable bind]. rewrite Hk.
  rewrite (Habs k) by (apply keys_Node; auto).
  destruct (less (key no) k) eqn:Eless.
  - (* to the left *)
    rewrite Hl. destruct l as [|ll lp lk lv lr]; cbn [top].
    + (* the new node becomes the left child *)
      apply (insert_finish_total (S fuel) t _ Leaf p k v r
               (Node Leaf obj (key no) (value no) Leaf) r up obj (key no, value no));
        auto.
      * eapply (shape_with_left (objects t)); eauto.
        -- cbn [top]. store_rw. now rewrite Hn.
        -- cbn [shape]. exists (with_parent (Some p) no). split; [store_rw; now rewrite Hobj|].
           cbn. repeat split; auto.
        -- intros q Hq. assert (q <> p) by congruence. assert (q <> obj) by congruence.
           now store_rw.
      * apply NoDup_Node. repeat split; auto.
        -- cbn. apply NoDup_singleton.
        -- cbn. rewrite list_elem_of_singleton. exact Hpo.
        -- cbn. intros q ->%list_elem_of_singleton. exact Hor'.
      * apply (sorted_Node less same Hord). repeat split; auto.
        -- cbn. repeat constructor.
        -- cbn. intros a ->%list_elem_of_singleton. exact Eless.
      * intros q Hq Hqo. assert (q <> p) by (intros ->; apply Hq, refs_Node; auto).
        now store_rw.
    + (* into the left subtree *)
      destruct (IHl fuel t lp (Some p) obj no)
        as (t1 & E1 & l' & Hs1 & Hnd1 & Hrefs1 & Hitems1 & Hsort1 & Htop1 & Hroot1 & Hf1 & Hu1);
        auto.
      { intros u [= <-]. split; [exact Hpl|]. exists n. auto. }
      { discriminate. }
      { intros q nq Hq. apply Hhold, refs_Node. auto. }
      { congruence. }
      { intros k' Hk'. apply Habs, keys_Node. auto. }
      { lia. }
      rewrite E1. cbn [bind].
      specialize (Hu1 p eq_refl). rewrite Hn in Hu1. cbn in Hu1.
      assert (replace_child lp (top l') n = with_left_child (top l') n) as Erc.
      { unfold replace_child. rewrite Hr.
        destruct (is_ref (top r) lp) eqn:E; [|reflexivity].
        destruct (top r) as [tr|] eqn:Etr; [|discriminate]. cbn in E.
        apply Nat.eqb_eq in E as ->. apply top_refs in Etr.
        exfalso. apply (Hlr lp); [apply refs_Node; auto | exact Etr]. }
      rewrite Erc in Hu1.
      assert (forall q, q ∈ refs l' <-> q = obj \/ q ∈ refs (Node ll lp lk lv lr)) as Hin.
      { intros q. rewrite Hrefs1. apply elem_of_cons. }
      apply (insert_finish_total (S fuel) t t1 (Node ll lp lk lv lr) p k v r l' r up obj
               (key no, value no)); auto.
      * eapply (shape_with_left (objects t)); eauto.
        intros q Hq. apply Hf1; try congruence. intros Hq'. exact (Hlr q Hq' Hq).
      * apply NoDup_Node. repeat split; auto.
        -- rewrite Hin. intros [?|?]; [congruence | contradiction].
        -- intros q [->|Hq]%Hin; [exact Hor' | now apply Hlr].
      * cbn [refs]. now apply perm_into_left.
      * cbn [items]. now apply perm_into_left.
      * apply (sorted_Node less same Hord). repeat split; auto.
        intros a [->|Ha]%(keys_perm _ _ _ Hitems1); [exact Eless | now apply Hlk].
      * intros q Hq Hqo. apply Hf1; auto.
        -- intros ?. apply Hq, refs_Node. auto.
        -- intros [= ->]. apply Hq, refs_Node. auto.
  - (* to the right *)
    assert (less k (key no) = true) as Egt.
    { apply (less_total _ _ Hord); [exact Eless|]. apply Habs, keys_Node. auto. }
    rewrite Hr. destruct r as [|rl rp rk rv rr]; cbn [top].
    + (* the new node becomes the right child *)
      apply (insert_finish_total (S fuel) t _ l p k v Leaf l
               (Node Leaf obj (key no) (value no) Leaf) up obj (key no, value no));
        auto.
      * eapply (shape_with_right (objects t)); eauto.
        -- cbn [top]. store_rw. now rewrite Hn.
        -- cbn [shape]. exists (with_parent (Some p) no). split; [store_rw; now rewrite Hobj|].
           cbn. repeat split; auto.
        -- intros q Hq. assert (q <> p) by congruence. assert (q <> obj) by congruence.
           now store_rw.
      * apply NoDup_Node. repeat split; auto.
        -- cbn. apply NoDup_singleton.
        -- cbn. rewrite list_elem_of_singleton. exact Hpo.
        -- cbn. intros q Hq ->%list_elem_of_singleton. contradiction.
      * cbn. now apply perm_into_right.
      * cbn. now apply perm_into_right.
      * apply (sorted_Node less same Hord). repeat split; auto.
        -- cbn. repeat constructor.
        -- cbn. intros a ->%list_elem_of_singleton. exact Egt.
      * intros q Hq Hqo. assert (q <> p) by (intros ->; apply Hq, refs_Node; auto).
        now store_rw.
    + (* into the right subtree *)
      destruct (IHr fuel t rp (Some p) obj no)
        as (t1 & E1 & r' & Hs1 & Hnd1 & Hrefs1 & Hitems1 & Hsort1 & Htop1 & Hroot1 & Hf1 & Hu1);
        auto.
      { intros u [= <-]. split; [exact Hpr|]. exists n. auto. }
      { discriminate. }
      { intros q nq Hq. apply Hhold, refs_Node. auto. }
      { congruence. }
      { intros k' Hk'. apply Habs, keys_Node. auto. }
      { lia. }
      rewrite E1. cbn [bind].
      specialize (Hu1 p eq_refl). rewrite Hn in Hu1. cbn in Hu1.
      assert (replace_child rp (top r') n = with_right_child (top r') n) as Erc.
      { unfold replace_child. rewrite Hr. cbn. now rewrite Nat.eqb_refl. }
      rewrite Erc in Hu1.
      assert (forall q, q ∈ refs r' <-> q = obj \/ q ∈ refs (Node rl rp rk rv rr)) as Hin.
      { intros q. rewrite Hrefs1. apply elem_of_cons. }
      apply (insert_finish_total (S fuel) t t1 l p k v (Node rl rp rk rv rr) l r' up obj
               (key no, value no)); auto.
      * eapply (shape_with_right (objects t)); eauto.
        intros q Hq. apply Hf1; try congruence. now apply Hlr.
      * apply NoDup_Node. repeat split; auto.
        -- rewrite Hin. intros [?|?]; [congruence | contradiction].
        -- intros q Hq [->|Hq']%Hin; [contradiction | exact (Hlr q Hq Hq')].
      * cbn [refs]. now apply perm_into_right.
      * cbn [items]. now apply perm_into_right.
      * apply (sorted_Node less same Hord). repeat split; auto.
        intros a [->|Ha]%(keys_perm _ _ _ Hitems1); [exact Egt | now apply Hkr].
      * intros q Hq Hqo. apply Hf1; auto.
        -- intros ?. apply Hq, refs_Node. auto.
        -- intros [= ->]. apply Hq, refs_Node. auto.
Qed.


End Ordered.
End Returning.

Section ReturningTree.
Context {K V : Type} `{PyKey K} `{PyObj V}.
Implicit Types (t : AvlTree K V) (n : TreeObject K V) (p q : ref)
  (T l r : tree K V).

Lemma refs_items_length T : length (refs T) = length (items T).
Proof.
  induction T as [|l IHl p k v r IHr]; [reflexivity|].
  cbn [refs items]. rewrite !length_app. cbn [length]. lia.
Qed.

Lemma pop_lowest_returns : forall T fuel t p up,
  top T = Some p -> shape (objects t) up T -> height T <= fuel ->
  exists res, TreeObject.pop_lowest fuel p t = Return res.
Proof.
  induction T as [|l IHl p0 k v r _]; intros fuel t p up Htop Hs Hfuel; [discriminate|].
  cbn in Htop. injection Htop as ->.
  destruct fuel as [|fuel]; [cbn in Hfuel; lia|].
  destruct Hs as (n & Hn & _ & _ & _ & Hl & _ & Hsl & _).
  cbn [height] in Hfuel.
  cbn [TreeObject.pop_lowest]. rewrite (node_Return t p n Hn). cbn [bind]. rewrite Hl.
  destruct l as [|ll lp lk lv lr]; cbn [top]; [eauto|].
  apply (IHl fuel t lp (Some p) eq_refl Hsl). lia.
Qed.

Lemma pop_all_loop_total (fuel : nat) : forall turns (acc : list V) t T,
  rooted t T -> length (items T) <= turns -> length (items T) <= fuel ->
  exists t', AvlTree.pop_all_loop turns fuel acc t
             = Return (acc ++ map snd (items T), t') /\
    root t' = None /\ length (objects t') = length (objects t).
Proof.
  induction turns as [|turns IH]; intros acc t T Hrooted Hturns Hfuel;
    pose proof Hrooted as (Hroot & Hs & Hnd);
    (destruct T as [|l p k v r];
     [ cbn [top] in Hroot; cbn [AvlTree.pop_all_loop]; rewrite Hroot;
       cbn [items map]; rewrite app_nil_r; eauto
     | ]).
  - exfalso. cbn [items] in Hturns. rewrite length_app in Hturns. cbn in Hturns. lia.
  - cbn [top] in Hroot. cbn [AvlTree.pop_all_loop]. rewrite Hroot.
    set (T := Node l p k v r) in *.
    assert (height T <= fuel) as Hh.
    { pose proof (height_le_size T). rewrite refs_items_length in *. lia. }
    destruct (pop_lowest_returns T fuel t p None eq_refl Hs Hh) as ([v0 t1] & E).
    assert (forall u : ref, None = Some u ->
              (u ∉ refs T) /\ exists un, objects t !! u = Some un /\ left_child un = Some p)
      as Hup by (intros u [=]).
    destruct (pop_lowest_shape T fuel t p None eq_refl Hs Hnd (fun _ => Hroot) Hup
                (v0, t1) E)
      as (q & kmin & T' & Hrefs & Hitems & Hs' & Hroot' & _).
    pose proof (pop_lowest_same_data t fuel p t (same_data_refl t) (v0, t1) E)
      as (_ & _ & Hlen & _).
    cbn [fst snd] in *.
    rewrite E. cbn [bind].
    destruct (IH (acc ++ [v0]) t1 T') as (t' & E' & Hr' & Hlen').
    + split; [exact Hroot'|]. split; [exact Hs'|].
      rewrite Hrefs in Hnd. now apply NoDup_cons in Hnd as [_ ?].
    + rewrite Hitems in Hturns. cbn [length] in Hturns. lia.
    + rewrite Hitems in Hfuel. cbn [length] in Hfuel. lia.
    + exists t'. split; [|split; [exact Hr'|congruence]].
      rewrite E', Hitems. cbn [map snd]. now rewrite <- app_assoc.
Qed.

Section OrderedTree.
Context (less same : K -> K -> bool) (Hord : strict_total_order less same).

Lemma is_in_returns : forall T fuel t p up k0,
  top T = Some p -> shape (objects t) up T -> holds less same t T ->
  height T <= fuel ->
  exists found, TreeObject.is_in fuel p k0 t = Return found.
Proof.
  induction T as [|l IHl p0 k v r IHr]; intros fuel t p up k0 Htop Hs Hhold Hfuel;
    [discriminate|].
  cbn in Htop. injection Htop as ->.
  destruct fuel as [|fuel]; [cbn in Hfuel; lia|].
  pose proof Hs as (n & Hn & Hk & Hv & Hpar & Hl & Hr & Hsl & Hsr).
  destruct (Hhold p n) as [Hcmp Heq]; [apply refs_Node; auto | exact Hn |].
  cbn [height] in Hfuel.
  cbn [TreeObject.is_in]. rewrite (node_Return t p n Hn). cbn [bind].
  rewrite Heq, Hcmp. cbn [callable bind].
  destruct (same k0 (key n)); [eauto|].
  destruct (less k0 (key n)).
  - rewrite Hl. destruct l as [|ll lp lk lv lr]; cbn [top]; [eauto|].
    apply (IHl fuel t lp (Some p) k0 eq_refl Hsl); [|lia].
    intros q nq Hq. apply Hhold, refs_Node. auto.
  - rewrite Hr. destruct r as [|rl rp rk rv rr]; cbn [top]; [eauto|].
    apply (IHr fuel t rp (Some p) k0 eq_refl Hsr); [|lia].
    intros q nq Hq. apply Hhold, refs_Node. auto.
Qed.

Lemma is_in_total fuel k t T :
  ordered less same t T -> height T <= fuel ->
  exists found, AvlTree.is_in fuel k t = Return found /\
    (found = true <-> exists k', k' ∈ keys T /\ same k k' = true).
Proof.
  intros Hordered Hfuel.
  pose proof (is_in_finds less same Hord fuel k t T Hordered) as Hfinds.
  destruct Hordered as ((Hroot & Hs & Hnd) & Hhold & _).
  assert (exists found, AvlTree.is_in fuel k t = Return found) as [found E].
  { unfold AvlTree.is_in. destruct T as [|l p k0 v0 r]; cbn [top] in Hroot; rewrite Hroot;
      [eauto|].
    apply (is_in_returns (Node l p k0 v0 r) fuel t p None k eq_refl Hs); [|exact Hfuel].
    intros q n _. apply Hhold. }
  exists found. split; [exact E|exact (Hfinds found E)].
Qed.

Lemma insert_total_ordered fuel k v t T :
  ordered less same t T ->
  (forall k', k' ∈ keys T -> same k k' = false) ->
  length (items T) < fuel ->
  exists t' T', AvlTree.insert fuel (k, v) t = Return t' /\
    ordered less same t' T' /\ items T' ≡ₚ (k, v) :: items T.
Proof.
  intros Hordered Habs Hfuel.
  pose proof (insert_keeps_order less same Hord fuel k v t T Hordered Habs) as Hpost.
  enough (exists t', AvlTree.insert fuel (k, v) t = Return t') as [t' E].
  { destruct (Hpost t' E) as (T' & HT'). exists t', T'. split; [exact E|exact HT']. }
  clear Hpost.
  destruct Hordered as (Hrooted & Hhold & Hless & Hsame & Hsort).
  pose proof Hrooted as (Hroot & Hs & Hnd).
  unfold AvlTree.insert. cbn [fst snd new_TreeObject].
  set (no := mkTreeObject k v None None None (Some (tree_comparator t))
                          (Some (tree_equals t))).
  set (obj := length (objects t)).
  set (t1 := mkAvlTree (root t) (tree_comparator t) (tree_equals t) (objects t ++ [no])).
  assert (objects t1 !! obj = Some no) as Hobj.
  { unfold t1, obj. cbn [objects]. apply list_lookup_middle. reflexivity. }
  assert (holds_all less same t1) as Hhold1.
  { intros q n Hq. unfold t1 in Hq. cbn [objects] in Hq.
    apply lookup_app_Some in Hq as [Hq|[_ Hq]]; [eauto|].
    apply list_lookup_singleton_Some in Hq as [_ <-]. cbn. split; congruence. }
  destruct (root t) as [r|] eqn:Er; [|eauto].
  destruct T as [|l p0 k0 v0 r0]; [discriminate|]. cbn in Hroot. injection Hroot as <-.
  assert (obj ∉ refs (Node l r k0 v0 r0)) as Hout.
  { intros Hin. apply (shape_in_range _ _ _ _ Hs) in Hin. unfold obj in Hin. lia. }
  assert (shape (objects t1) None (Node l r k0 v0 r0)) as Hs1
    by (unfold t1; cbn [objects]; now apply shape_app).
  assert (hangs t1 None r (Node l r k0 v0 r0)) as Hh1 by (intros u [=]).
  assert (holds less same t1 (Node l r k0 v0 r0)) as Hho1 by (intros q n _; apply Hhold1).
  assert (Some obj <> None) as Hne by discriminate.
  assert (length (refs (Node l r k0 v0 r0)) < fuel) as Hsize
    by (now rewrite refs_items_length).
  destruct (insert_total less same Hord (Node l r k0 v0 r0) fuel t1 r None obj no eq_refl
              Hs1 Hnd Hh1 (fun _ => eq_refl) Hho1 Hobj eq_refl eq_refl Hout Hne Habs Hsort
              Hsize)
    as (t' & E & T' & Hs' & Hnd' & Hrefs' & _ & _ & [r' Htop'] & Hroot' & _).
  rewrite E. cbn [bind]. rewrite Hroot', Htop'. cbn [attr_of bind].
  destruct T' as [|l' p' k' v' r'']; [discriminate|]. cbn [top] in Htop'.
  injection Htop' as ->.
  rewrite (check_balance_shape fuel t' l' r' k' v' r'' None Hs'); [cbn [bind]; eauto|].
  pose proof (height_le_size (Node l' r' k' v' r'')) as Hh'.
  rewrite Hrefs' in Hh'. cbn [length] in Hh'. lia.
Qed.

Lemma insert_each_total fuel : forall elements t T,
  ordered less same t T ->
  fresh_each same elements.*1 (keys T) ->
  length (items T) + length elements <= fuel ->
  exists t' T', AvlTree.insert_each fuel elements t = Return t' /\
    ordered less same t' T' /\ items T' ≡ₚ rev elements ++ items T.
Proof.
  induction elements as [|[k v] elements IH]; intros t T Ho Hf Hfuel.
  - exists t, T. split; [reflexivity|]. split; [exact Ho|reflexivity].
  - cbn [AvlTree.insert_each]. destruct Hf as [Hk Hf]. cbn [length] in Hfuel.
    destruct (insert_total_ordered fuel k v t T Ho Hk) as (t1 & T1 & E1 & Ho1 & Hi1);
      [lia|].
    rewrite E1. cbn [bind].
    destruct (IH t1 T1 Ho1) as (t' & T' & E' & Ho' & Hi').
    + eapply (fresh_each_perm same); [|exact Hf].
      rewrite !keys_items. cbn [fmap list_fmap fst]. rewrite Hi1. reflexivity.
    + rewrite Hi1. cbn [length]. lia.
    + exists t', T'. split; [exact E'|]. split; [exact Ho'|].
      rewrite Hi', Hi1. cbn [rev]. rewrite <- app_assoc. cbn.
      apply Permutation_app_head. reflexivity.
Qed.

Lemma init_total fuel elements :
  fresh_each same elements.*1 [] ->
  length elements <= fuel ->
  exists t T, snd (AvlTree.init fuel elements (Some less) (Some same)) = Return t /\
    ordered less same t T /\ items T ≡ₚ elements.
Proof.
  intros Hf Hfuel.
  pose proof (init_makes_order less same Hord fuel elements Hf) as Hpost.
  enough (exists t, snd (AvlTree.init fuel elements (Some less) (Some same)) = Return t)
    as [t E].
  { destruct (Hpost t E) as (T & HT). exists t, T. split; [exact E|exact HT]. }
  clear Hpost. unfold AvlTree.init.
  destruct elements as [|[k v] rest]; [cbn [snd]; eauto|].
  cbn [new_TreeObject fst snd length app]. destruct Hf as [_ Hf].
  set (no := mkTreeObject k v None None None (Some less) (Some same)).
  set (t1 := set_root (mkAvlTree None less same [no]) (Some 0)).
  assert (ordered less same t1 (Node Leaf 0 k v Leaf)) as Ho.
  { split; [split; [reflexivity|split; [|cbn; apply NoDup_singleton]]|].
    - cbn. exists no. repeat split; auto.
    - split; [|repeat split; cbn; repeat constructor].
      intros [|q] n Hq; [|discriminate]. injection Hq as <-. now split. }
  destruct (Nat.ltb 0 (length rest)) eqn:El; [|cbn [snd]; eauto].
  change (exists t, snd (AvlTree.insert_list fuel rest t1) = Return t).
  rewrite (insert_list_rooted fuel rest t1 0 eq_refl).
  destruct (insert_each_total fuel rest t1 _ Ho Hf) as (t' & _ & E & _); [|eauto].
  cbn [items app length] in *. lia.
Qed.

End OrderedTree.
End ReturningTree.

(** ** An ordered tree as the set of its pairs *)

Lemma three_nodes_ordered : ordered Z.ltb Z.eqb three_nodes three_nodes_tree.
Proof.
  split; [split; [reflexivity|split]|split; [|split; [reflexivity|split; [reflexivity|]]]].
  - cbn. eexists; repeat split; cbn; try reflexivity; eexists; repeat split; reflexivity.
  - apply (bool_decide_unpack _). vm_compute. exact I.
  - intros [|[|[|q]]] n Hq; try discriminate; injection Hq as <-; split; reflexivity.
  - cbn. repeat constructor.
Qed.

Section PairsOfTheTree.
Context {K V : Type} `{PyKey K} `{PyObj V}.
Implicit Types (t : AvlTree K V) (T : tree K V).

(** X1.  On a tree that its comparator and equals order, [insert] of a
    pair whose key equals no stored key returns, given a recursion
    budget above the number of pairs, and leaves an ordered tree whose
    pairs are the new pair and those that were stored. *)
Theorem insert_adds_one_pair (less same : K -> K -> bool) (fuel : nat) (k : K) (v : V)
    t T :
  strict_total_order less same ->
  ordered less same t T ->
  (forall k', k' ∈ keys T -> same k k' = false) ->
  length (items T) < fuel ->
  exists t' T', AvlTree.insert fuel (k, v) t = Return t' /\
    ordered less same t' T' /\ items T' ≡ₚ (k, v) :: items T.
Proof. intros Hord. now apply insert_total_ordered. Qed.

(** X2.  On an ordered tree, [pop_lowest] returns, given a recursion
    budget of at least the height: [None] and the tree as it was when
    the tree is empty, and otherwise the value of the first pair in the
    order of the keys, leaving an ordered tree of the other pairs. *)
Theorem pop_lowest_takes_the_first (less same : K -> K -> bool) (fuel : nat) t T :
  ordered less same t T ->
  height T <= fuel ->
  exists res, AvlTree.pop_lowest fuel t = Return res /\
    match fst res with
    | None => T = Leaf /\ snd res = t
    | Some v => exists k T', items T = (k, v) :: items T' /\ ordered less same (snd res) T'
    end.
Proof.
  intros Hordered Hfuel.
  pose proof (pop_lowest_keeps_order less same fuel t T Hordered) as Hpost.
  enough (exists res, AvlTree.pop_lowest fuel t = Return res) as [res E].
  { exists res. split; [exact E|exact (Hpost res E)]. }
  destruct Hordered as ((Hroot & Hs & _) & _).
  unfold AvlTree.pop_lowest.
  destruct T as [|l p k v r]; cbn [top] in Hroot; rewrite Hroot; [eauto|].
  destruct (pop_lowest_returns (Node l p k v r) fuel t p None eq_refl Hs Hfuel)
    as ([v0 t'] & ->).
  cbn [bind]. eauto.
Qed.

(** X8.  On an ordered tree, [is_in] returns, given a recursion budget
    of at least the height, and it returns [True] exactly when a stored
    key equals the key asked for. *)
Theorem is_in_tells_membership (less same : K -> K -> bool) (fuel : nat) (k : K) t T :
  strict_total_order less same ->
  ordered less same t T ->
  height T <= fuel ->
  exists found, AvlTree.is_in fuel k t = Return found /\
    (found = true <-> exists k', k' ∈ keys T /\ same k k' = true).
Proof. intros Hord. now apply is_in_total. Qed.

(** X9.  After [insert] of a pair whose key is new, [is_in] finds that
    key, and answers for every key that differs from it as it answered
    before. *)
Theorem insert_then_is_in (less same : K -> K -> bool) (fuel : nat) (k : K) (v : V) t T :
  strict_total_order less same ->
  ordered less same t T ->
  (forall k', k' ∈ keys T -> same k k' = false) ->
  same k k = true ->
  length (items T) < fuel ->
  exists t', AvlTree.insert fuel (k, v) t = Return t' /\
    AvlTree.is_in fuel k t' = Return true /\
    forall k2, same k2 k = false ->
      AvlTree.is_in fuel k2 t' = AvlTree.is_in fuel k2 t.
Proof.
  intros Hord Hordered Habs Hrefl Hfuel.
  destruct (insert_total_ordered less same Hord fuel k v t T Hordered Habs Hfuel)
    as (t' & T' & E & Hordered' & Hitems).
  assert (height T <= fuel) as Hh.
  { pose proof (height_le_size T). rewrite refs_items_length in *. lia. }
  assert (height T' <= fuel) as Hh'.
  { pose proof (height_le_size T') as Hle. rewrite refs_items_length, Hitems in Hle.
    cbn [length] in Hle. lia. }
  assert (forall a, a ∈ keys T' <-> a = k \/ a ∈ keys T) as Hkeys.
  { intros a. unfold keys. rewrite Hitems. cbn [map fst]. apply elem_of_cons. }
  exists t'. split; [exact E|]. split.
  - destruct (is_in_total less same Hord fuel k t' T' Hordered' Hh') as (found & -> & Hiff).
    f_equal. apply Hiff. exists k. split; [apply Hkeys; auto|exact Hrefl].
  - intros k2 Hk2.
    destruct (is_in_total less same Hord fuel k2 t' T' Hordered' Hh') as (f' & -> & Hiff').
    destruct (is_in_total less same Hord fuel k2 t T Hordered Hh) as (f & -> & Hiff).
    f_equal. destruct f, f'; try reflexivity.
    + destruct Hiff as [(k' & Hk' & Hs) _]; [reflexivity|].
      apply Hiff'. exists k'. split; [apply Hkeys; auto|exact Hs].
    + destruct Hiff' as [(k' & [->|Hk']%Hkeys & Hs) _]; [reflexivity|congruence|].
      symmetry. apply Hiff. eauto.
Qed.

(** X10.  The constructor, given a comparator and an equals that order
    the keys and elements whose keys differ from one another, returns,
    given a recursion budget of at least the number of elements, an
    ordered tree that holds exactly the pairs it was given. *)
Theorem init_holds_the_elements (less same : K -> K -> bool) (fuel : nat)
    (elements : list (K * V)) :
  strict_total_order less same ->
  fresh_each same (map fst elements) [] ->
  length elements <= fuel ->
  exists t T, snd (AvlTree.init fuel elements (Some less) (Some same)) = Return t /\
    ordered less same t T /\ items T ≡ₚ elements.
Proof. intros Hord. now apply init_total. Qed.

(** X11.  [pop_all] on a tree of linked nodes returns, given a budget of
    at least the number of pairs, the values of the tree from left to
    right, which on an ordered tree is the order of their keys, and
    leaves the tree empty. *)
Theorem pop_all_lists_in_order (fuel : nat) t T :
  rooted t T ->
  length (items T) <= fuel ->
  exists t', AvlTree.pop_all fuel t = Return (map snd (items T), t') /\ root t' = None.
Proof.
  intros Hrooted Hfuel. unfold AvlTree.pop_all.
  destruct (pop_all_loop_total fuel fuel [] t T Hrooted Hfuel Hfuel) as (t' & E & Hr & _).
  eauto.
Qed.

(** X12.  The constructor followed by [pop_all] sorts: given elements
    whose keys differ from one another, the values come out in the
    order of their keys. *)
Theorem init_then_pop_all_sorts (less same : K -> K -> bool) (fuel : nat)
    (elements : list (K * V)) :
  strict_total_order less same ->
  fresh_each same (map fst elements) [] ->
  length elements <= fuel ->
  exists t t' sorted_elements,
    snd (AvlTree.init fuel elements (Some less) (Some same)) = Return t /\
    AvlTree.pop_all fuel t = Return (map snd sorted_elements, t') /\
    sorted_elements ≡ₚ elements /\
    StronglySorted (fun a b => less a b = true) (map fst sorted_elements) /\
    root t' = None.
Proof.
  intros Hord Hfresh Hfuel.
  destruct (init_total less same Hord fuel elements Hfresh Hfuel)
    as (t & T & E & (Hrooted & _ & _ & _ & Hsorted) & Hitems).
  assert (length (items T) <= fuel) as Hsize by now rewrite Hitems.
  destruct (pop_all_loop_total fuel fuel [] t T Hrooted Hsize Hsize) as (t' & E' & Hr & _).
  exists t, t', (items T). repeat split; auto.
Qed.

End PairsOfTheTree.

Lemma insert_adds_one_pair_witness :
  exists t' T', AvlTree.insert 10 (3%Z, 25%nat) three_nodes = Return t' /\
    ordered Z.ltb Z.eqb t' T' /\ items T' ≡ₚ (3%Z, 25%nat) :: items three_nodes_tree.
Proof.
  apply (insert_adds_one_pair Z.ltb Z.eqb 10 3%Z 25%nat three_nodes three_nodes_tree
           Z_ordered three_nodes_ordered).
  - intros k' Hk'. cbn in Hk'.
    repeat (apply elem_of_cons in Hk' as [->|Hk']; [reflexivity|]). inversion Hk'.
  - cbn. lia.
Defined.

Lemma pop_lowest_takes_the_first_witness :
  exists res, AvlTree.pop_lowest 10 three_nodes = Return res /\
    match fst res with
    | None => three_nodes_tree = Leaf /\ snd res = three_nodes
    | Some v =>
      exists k T', items three_nodes_tree = (k, v) :: items T' /\
                   ordered Z.ltb Z.eqb (snd res) T'
    end.
Proof.
  apply (pop_lowest_takes_the_first Z.ltb Z.eqb 10 three_nodes three_nodes_tree
           three_nodes_ordered).
  cbn. lia.
Defined.

Lemma is_in_tells_membership_witness :
  exists found, AvlTree.is_in 10 4%Z three_nodes = Return found /\
    (found = true <-> exists k', k' ∈ keys three_nodes_tree /\ Z.eqb 4 k' = true).
Proof.
  apply (is_in_tells_membership Z.ltb Z.eqb 10 4%Z three_nodes three_nodes_tree
           Z_ordered three_nodes_ordered).
  cbn. lia.
Defined.

Lemma insert_then_is_in_witness :
  exists t', AvlTree.insert 10 (3%Z, 25%nat) three_nodes = Return t' /\
    AvlTree.is_in 10 3%Z t' = Return true /\
    forall k2, Z.eqb k2 3 = false ->
      AvlTree.is_in 10 k2 t' = AvlTree.is_in 10 k2 three_nodes.
Proof.
  apply (insert_then_is_in Z.ltb Z.eqb 10 3%Z 25%nat three_nodes three_nodes_tree
           Z_ordered three_nodes_ordered).
  - intros k' Hk'. cbn in Hk'.
    repeat (apply elem_of_cons in Hk' as [->|Hk']; [reflexivity|]). inversion Hk'.
  - reflexivity.
  - cbn. lia.
Defined.

Lemma five_keys_fresh :
  fresh_each Z.eqb (map fst [(5, 50%nat); (2, 20%nat); (8, 80%nat); (1, 10%nat); (9, 90%nat)]%Z)
             [].
Proof.
  cbn. repeat split; intros k' Hk';
    repeat (apply elem_of_cons in Hk' as [->|Hk']; [reflexivity|]); inversion Hk'.
Qed.

Lemma init_holds_the_elements_witness :
  exists t T,
    snd (AvlTree.init 10 [(5, 50%nat); (2, 20%nat); (8, 80%nat); (1, 10%nat); (9, 90%nat)]%Z
           (Some Z.ltb) (Some Z.eqb)) = Return t /\
    ordered Z.ltb Z.eqb t T /\
    items T ≡ₚ [(5, 50%nat); (2, 20%nat); (8, 80%nat); (1, 10%nat); (9, 90%nat)]%Z.
Proof.
  apply (init_holds_the_elements Z.ltb Z.eqb 10 _ Z_ordered five_keys_fresh).
  cbn. lia.
Defined.

Lemma pop_all_lists_in_order_witness :
  exists t', AvlTree.pop_all 10 three_nodes
             = Return (map snd (items three_nodes_tree), t') /\ root t' = None.
Proof.
  apply (pop_all_lists_in_order 10 three_nodes three_nodes_tree).
  - apply three_nodes_ordered.
  - cbn. lia.
Defined.

Lemma init_then_pop_all_sorts_witness :
  exists t t' sorted_elements,
    snd (AvlTree.init 10 [(5, 50%nat); (2, 20%nat); (8, 80%nat); (1, 10%nat); (9, 90%nat)]%Z
           (Some Z.ltb) (Some Z.eqb)) = Return t /\
    AvlTree.pop_all 10 t = Return (map snd sorted_elements, t') /\
    sorted_elements ≡ₚ [(5, 50%nat); (2, 20%nat); (8, 80%nat); (1, 10%nat); (9, 90%nat)]%Z /\
    StronglySorted (fun a b => Z.ltb a b = true) (map fst sorted_elements) /\
    root t' = None.
Proof.
  apply (init_then_pop_all_sorts Z.ltb Z.eqb 10 _ Z_ordered five_keys_fresh).
  cbn. lia.
Defined.

Lemma two_nodes_built : tree_of [(2, 20%nat); (1, 10%nat)]%Z = Return two_nodes.
Proof. reflexivity. Qed.

Lemma two_nodes_rooted :
  rooted two_nodes (Node (Node Leaf 1%nat 1%Z 10%nat Leaf) 0%nat 2%Z 20%nat Leaf).
Proof.
  split; [reflexivity|split].
  - cbn. eexists; repeat split; cbn; try reflexivity; eexists; repeat split; reflexivity.
  - apply (bool_decide_unpack _). vm_compute. exact I.
Qed.

Lemma check_balance_is_height_difference_witness :
  AvlTree.check_height 5 two_nodes = Return 1%Z /\
  AvlTree.check_balance 5 two_nodes = Return (-1)%Z.
Proof.
  apply (check_balance_is_height_difference two_nodes (Node Leaf 1%nat 1%Z 10%nat Leaf)
           0%nat 2%Z 20%nat Leaf 5 two_nodes_rooted).
  cbn. lia.
Defined.

Lemma find_lowest_and_highest_witness :
  (forall k v rest, items three_nodes_tree = (k, v) :: rest ->
     AvlTree.find_lowest 5 three_nodes = Return v) /\
  (forall k v rest, items three_nodes_tree = rest ++ [(k, v)] ->
     AvlTree.find_highest 5 three_nodes = Return v).
Proof.
  apply (find_lowest_and_highest three_nodes three_nodes_tree 5).
  - apply three_nodes_ordered.
  - cbn. lia.
Defined.

Lemma methods_on_the_empty_tree_witness :
  AvlTree.find_lowest 5 (@empty_tree Z nat _) = Raise AttributeError /\
  AvlTree.find_highest 5 (@empty_tree Z nat _) = Raise AttributeError /\
  AvlTree.check_height 5 (@empty_tree Z nat _) = Raise AttributeError /\
  AvlTree.check_balance 5 (@empty_tree Z nat _) = Raise AttributeError /\
  AvlTree.remove 5 1%Z (@empty_tree Z nat _) = Raise AttributeError /\
  AvlTree.pop_lowest 5 (@empty_tree Z nat _) = Return (None, empty_tree) /\
  AvlTree.pop_highest 5 (@empty_tree Z nat _) = Return (None, empty_tree) /\
  AvlTree.is_in 5 1%Z (@empty_tree Z nat _) = Return false /\
  AvlTree.find_neighbors 5 1%Z (@empty_tree Z nat _) = Return (None, None) /\
  AvlTree.find_left_neighbor_by_pair 5 1%Z 7%nat (@empty_tree Z nat _) = Return None /\
  AvlTree.find_right_neighbor_by_pair 5 1%Z 7%nat (@empty_tree Z nat _) = Return None /\
  AvlTree.pop_all 5 (@empty_tree Z nat _) = Return ([], empty_tree) /\
  AvlTree.remove_pair 5 1%Z 7%nat (@empty_tree Z nat _) = Return empty_tree.
Proof. exact (methods_on_the_empty_tree empty_tree 5 1%Z 7%nat eq_refl). Defined.

Lemma pop_highest_empties_the_tree_witness :
  exists t', AvlTree.pop_highest 5 two_nodes = Return (Some 20%nat, t') /\
    root t' = None /\ objects t' = objects two_nodes.
Proof.
  exact (pop_highest_empties_the_tree two_nodes (Node Leaf 1%nat 1%Z 10%nat Leaf)
           0%nat 2%Z 20%nat 4 two_nodes_rooted).
Defined.

(** ** Removal *)

Section Removal.
Context {K V : Type} `{PyKey K} `{PyObj V}.
Implicit Types (t : AvlTree K V) (n : TreeObject K V) (p q : ref)
  (T l r : tree K V).

Lemma rebalance_after_remove_eq fuel p t :
  TreeObject.rebalance_after_remove fuel p t = TreeObject.rebalance fuel p t.
Proof.
  unfold TreeObject.rebalance_after_remove, TreeObject.rebalance.
  destruct (TreeObject.check_balance fuel p t) as [z| |]; cbn [bind]; try reflexivity.
  destruct (z <? -1)%Z eqn:E1.
  - assert ((z >? 1)%Z = false) as ->
      by (apply Z.ltb_lt in E1; rewrite Z.gtb_ltb; apply Z.ltb_ge; lia).
    now destruct (TreeObject.simple_rot_right p t).
  - cbn [bind]. reflexivity.
Qed.

Lemma replace_self_same_data t0 p o t :
  same_data t0 t -> on_return (TreeObject.replace_self p o t) (same_data t0).
Proof. intros Ht. unfold TreeObject.replace_self. same_data_run. Qed.

Lemma substitute_right_same_data t0 p t :
  same_data t0 t -> on_return (TreeObject.substitute_right p t) (same_data t0).
Proof. intros Ht. unfold TreeObject.substitute_right. same_data_run. Qed.

Lemma substitute_left_same_data t0 p t :
  same_data t0 t -> on_return (TreeObject.substitute_left p t) (same_data t0).
Proof. intros Ht. unfold TreeObject.substitute_left. same_data_run. Qed.

#[local] Hint Resolve replace_self_same_data substitute_right_same_data
  substitute_left_same_data : same_data.

Lemma unlink_same_data t0 fuel p t :
  same_data t0 t -> on_return (TreeObject.unlink fuel p t) (same_data t0).
Proof. intros Ht. unfold TreeObject.unlink. same_data_run. Qed.

Lemma rebalance_after_remove_same_data t0 fuel p t :
  same_data t0 t -> on_return (TreeObject.rebalance_after_remove fuel p t) (same_data t0).
Proof. intros Ht. rewrite rebalance_after_remove_eq. now apply rebalance_same_data. Qed.

#[local] Hint Resolve unlink_same_data rebalance_after_remove_same_data : same_data.

Lemma remove_same_data t0 fuel (k : K) : forall p t,
  same_data t0 t -> on_return (TreeObject.remove fuel p k t) (same_data t0).
Proof.
  induction fuel as [|fuel IH]; intros p t Ht; cbn [TreeObject.remove];
    same_data_run.
Qed.

#[local] Hint Resolve remove_same_data : same_data.

Lemma remove_pair_same_data t0 fuel (k : K) (v : V) p t :
  same_data t0 t -> on_return (TreeObject.remove_pair fuel p k v t) (same_data t0).
Proof. intros Ht. unfold TreeObject.remove_pair. same_data_run. Qed.

Section Missing.
Context (less same : K -> K -> bool) (Hord : strict_total_order less same).

Lemma relink_finish fuel t t1 l p k v r l1 r1 up :
  let T := Node l p k v r in
  let T1 := Node l1 p k v r1 in
  shape (objects t1) up T1 -> NoDup (refs T1) ->
  refs T1 = refs T -> items T1 = items T ->
  hangs t up p T -> (up = None -> root t = Some p) -> root t1 = root t ->
  (forall q, q ∉ refs T -> objects t1 !! q = objects t !! q) ->
  length (refs T) <= fuel ->
  exists t', TreeObject.rebalance fuel p t1 = Return t' /\ exists T',
    shape (objects t') up T' /\ refs T' = refs T /\ items T' = items T /\
    is_Some (top T') /\
    root t' = match up with None => top T' | Some _ => root t end /\
    (forall q, q ∉ refs T -> Some q <> up -> objects t' !! q = objects t !! q) /\
    (forall u, up = Some u ->
       objects t' !! u = replace_child p (top T') <$> objects t !! u).
Proof.
  intros T T1. subst T T1. intros Hs1 Hnd1 Hrefs Hitems Hh Hroot Hroot1 Hf Hfuel.
  assert (hangs t1 up p (Node l1 p k v r1)) as Hh1.
  { intros u Eu. destruct (Hh u Eu) as (HuT & un & Hun & Hc).
    split; [now rewrite Hrefs|]. exists un. split; [|exact Hc]. now rewrite Hf. }
  destruct (rebalance_returns fuel t1 l1 p k v r1 up Hs1 Hnd1) as (t' & E).
  - intros u Eu. destruct (Hh1 u Eu) as (? & un & ? & _). eauto.
  - pose proof (height_le_size (Node l1 p k v r1)) as Hle. rewrite Hrefs in Hle. lia.
  - exists t'. split; [exact E|].
    assert (up = None -> root t1 = Some p) as Hroot1' by (intros Eu; rewrite Hroot1; auto).
    destruct (rebalance_shape fuel t1 l1 p k v r1 up Hs1 Hnd1 Hh1 Hroot1' t' E)
      as (T' & Hs' & Hrefs' & Hitems' & Htop' & Hroot' & Hf' & Hu').
    exists T'.
    split; [exact Hs'|]. split; [congruence|]. split; [congruence|].
    split; [exact Htop'|]. split; [destruct up; congruence|]. split.
    + intros q Hq Hqu. rewrite Hf'; [now apply Hf|now rewrite Hrefs|exact Hqu].
    + intros u Eu. rewrite (Hu' u Eu). destruct (Hh u Eu) as (HuT & _). now rewrite Hf.
Qed.

Lemma remove_misses (dir : bool) (k0 : K) : forall T fuel t p up,
  top T = Some p ->
  shape (objects t) up T -> NoDup (refs T) -> hangs t up p T ->
  (up = None -> root t = Some p) ->
  holds less same t T ->
  misses less same dir k0 T ->
  length (refs T) <= fuel ->
  exists t', TreeObject.remove fuel p k0 t = Return t' /\ exists T',
    shape (objects t') up T' /\ refs T' = refs T /\ items T' = items T /\
    is_Some (top T') /\
    root t' = match up with None => top T' | Some _ => root t end /\
    (forall q, q ∉ refs T -> Some q <> up -> objects t' !! q = objects t !! q) /\
    (forall u, up = Some u ->
       objects t' !! u = replace_child p (top T') <$> objects t !! u).
Proof.
  induction T as [|l IHl p0 k v r IHr];
    intros fuel t p up Htop Hs Hnd Hh Hroot Hhold Hmiss Hfuel; [discriminate|].
  cbn in Htop. injection Htop as ->.
  assert (length (refs l) + S (length (refs r)) <= fuel) as Hsize.
  { cbn [refs] in Hfuel. rewrite length_app in Hfuel. exact Hfuel. }
  destruct fuel as [|fuel]; [lia|].
  pose proof Hs as (n & Hn & Hk & Hv & Hpar & Hl & Hr & Hsl & Hsr).
  pose proof Hnd as (Hndl & Hndr & Hpl & Hpr & Hlr)%NoDup_Node.
  destruct (Hhold p n) as [Hcmp Heq]; [apply refs_Node; auto | exact Hn |].
  destruct Hmiss as (Hsame & Hless & Hmiss).
  cbn [TreeObject.remove]. rewrite (node_Return t p n Hn). cbn [bind].
  rewrite Heq. cbn [callable bind]. rewrite Hk, Hsame, Hcmp. cbn [callable bind].
  rewrite Hless.
  destruct dir.
  - (* to the left *)
    rewrite Hl. destruct l as [|ll lp lk lv lr]; cbn [top bind].
    + rewrite rebalance_after_remove_eq.
      apply (relink_finish (S fuel) t t Leaf p k v r Leaf r up); auto.
    + destruct (IHl fuel t lp (Some p)) as
        (t1 & E1 & l' & Hs1 & Hrefs1 & Hitems1 & Htop1 & Hroot1 & Hf1 & Hu1); auto.
      { intros u [= <-]. split; [exact Hpl|]. exists n. auto. }
      { discriminate. }
      { intros q nq Hq. apply Hhold, refs_Node. auto. }
      { lia. }
      rewrite E1. cbn [bind]. rewrite rebalance_after_remove_eq.
      specialize (Hu1 p eq_refl). rewrite Hn in Hu1. cbn in Hu1.
      assert (replace_child lp (top l') n = with_left_child (top l') n) as Erc.
      { unfold replace_child. rewrite Hr.
        destruct (is_ref (top r) lp) eqn:E; [|reflexivity].
        destruct (top r) as [tr|] eqn:Etr; [|discriminate]. cbn in E.
        apply Nat.eqb_eq in E as ->. apply top_refs in Etr.
        exfalso. apply (Hlr lp); [apply refs_Node; auto | exact Etr]. }
      rewrite Erc in Hu1.
      apply (relink_finish (S fuel) t t1 (Node ll lp lk lv lr) p k v r l' r up); auto.
      * eapply (shape_with_left (objects t)); eauto.
        intros q Hq. apply Hf1; try congruence. intros Hq'. exact (Hlr q Hq' Hq).
      * apply NoDup_Node. rewrite Hrefs1. repeat split; auto.
      * cbn [refs]. now rewrite Hrefs1.
      * cbn [items]. now rewrite Hitems1.
      * intros q Hq. apply Hf1.
        -- intros ?. apply Hq, refs_Node. auto.
        -- intros [= ->]. apply Hq, refs_Node. auto.
  - (* to the right *)
    rewrite Hr. destruct r as [|rl rp rk rv rr]; cbn [top bind].
    + rewrite rebalance_after_remove_eq.
      apply (relink_finish (S fuel) t t l p k v Leaf l Leaf up); auto.
    + destruct (IHr fuel t rp (Some p)) as
        (t1 & E1 & r' & Hs1 & Hrefs1 & Hitems1 & Htop1 & Hroot1 & Hf1 & Hu1); auto.
      { intros u [= <-]. split; [exact Hpr|]. exists n. auto. }
      { discriminate. }
      { intros q nq Hq. apply Hhold, refs_Node. auto. }
      { lia. }
      rewrite E1. cbn [bind]. rewrite rebalance_after_remove_eq.
      specialize (Hu1 p eq_refl). rewrite Hn in Hu1. cbn in Hu1.
      assert (replace_child rp (top r') n = with_right_child (top r') n) as Erc.
      { unfold replace_child. rewrite Hr. cbn. now rewrite Nat.eqb_refl. }
      rewrite Erc in Hu1.
      apply (relink_finish (S fuel) t t1 l p k v (Node rl rp rk rv rr) l r' up); auto.
      * eapply (shape_with_right (objects t)); eauto.
        intros q Hq. apply Hf1; try congruence. now apply Hlr.
      * apply NoDup_Node. rewrite Hrefs1. repeat split; auto.
      * cbn [refs]. now rewrite Hrefs1.
      * cbn [items]. now rewrite Hitems1.
      * intros q Hq. apply Hf1.
        -- intros ?. apply Hq, refs_Node. auto.
        -- intros [= ->]. apply Hq, refs_Node. auto.
Qed.

Lemma less_not_same (a b : K) : less a b = true -> same a b = false.
Proof.
  intros Hlt. destruct (same a b) eqn:E; [|reflexivity].
  rewrite (same_less_l _ _ Hord a b b E) in Hlt.
  pose proof (less_asym _ _ Hord b b Hlt). congruence.
Qed.

Local Abbreviation sorted := (StronglySorted (fun a b => less a b = true)) (only parsing).

Lemma misses_below (k0 : K) : forall T,
  sorted (keys T) ->
  (forall k', k' ∈ keys T -> less k' k0 = true) ->
  misses less same true k0 T.
Proof.
  induction T as [|l IHl p k v r _]; intros Hsort Hall; [exact I|].
  apply (sorted_Node less same Hord) in Hsort as (Hsl & _ & _ & _).
  assert (less k k0 = true) as Hk by (apply Hall, keys_Node; auto).
  split; [now apply less_not_same|]. split; [exact Hk|].
  apply IHl; [exact Hsl|]. intros k' Hk'. apply Hall, keys_Node. auto.
Qed.

Lemma misses_above (k0 : K) : forall T,
  sorted (keys T) ->
  (forall k', k' ∈ keys T -> less k' k0 = false /\ same k' k0 = false) ->
  misses less same false k0 T.
Proof.
  induction T as [|l _ p k v r IHr]; intros Hsort Hall; [exact I|].
  apply (sorted_Node less same Hord) in Hsort as (_ & Hsr & _ & _).
  destruct (Hall k) as [Hk Hs]; [apply keys_Node; auto|].
  split; [exact Hs|]. split; [exact Hk|].
  apply IHr; [exact Hsr|]. intros k' Hk'. apply Hall, keys_Node. auto.
Qed.

Lemma misses_beside_the_root l p k v r (k0 : K) :
  sorted (keys (Node l p k v r)) -> same k k0 = false ->
  misses less same (less k k0) k0 (Node l p k v r).
Proof.
  intros (Hsl & Hsr & Hlk & Hkr)%(sorted_Node less same Hord) Hsame.
  split; [exact Hsame|]. split; [reflexivity|].
  destruct (less k k0) eqn:Hk.
  - apply misses_below; [exact Hsl|]. intros k' Hk'.
    eapply (less_trans _ _ Hord); [apply Hlk, Hk'|exact Hk].
  - apply misses_above; [exact Hsr|]. intros k' Hk'. pose proof (Hkr k' Hk') as Hlt. split.
    + destruct (less k' k0) eqn:E; [|reflexivity].
      rewrite (less_trans _ _ Hord k k' k0 Hlt E) in Hk. discriminate.
    + destruct (same k' k0) eqn:E; [|reflexivity].
      rewrite (same_less_r _ _ Hord k' k0 k E) in Hlt. congruence.
Qed.

Lemma remove_beside_the_root fuel (k0 : K) t l p k v r :
  ordered less same t (Node l p k v r) ->
  same k k0 = false ->
  length (items (Node l p k v r)) <= fuel ->
  exists t' T', AvlTree.remove fuel k0 t = Return t' /\
    ordered less same t' T' /\ items T' = items (Node l p k v r).
Proof.
  intros ((Hroot & Hs & Hnd) & Hhold & Hless & Hsame & Hsort) Hk Hfuel.
  cbn [top] in Hroot. unfold AvlTree.remove. rewrite Hroot. cbn [attr_of bind].
  destruct (remove_misses (less k k0) k0 (Node l p k v r) fuel t p None eq_refl Hs Hnd)
    as (t' & E & T' & Hs' & Hrefs' & Hitems' & Htop' & Hroot' & _).
  - intros u [=].
  - auto.
  - intros q n _. apply Hhold.
  - now apply misses_beside_the_root.
  - now rewrite refs_items_length.
  - exists t', T'. split; [exact E|]. split; [|exact Hitems'].
    pose proof (remove_same_data t fuel k0 p t (same_data_refl t) t' E) as Hsd.
    split; [split; [exact Hroot'|split; [exact Hs'|now rewrite Hrefs']]|].
    split; [eapply holds_all_same_data; eauto|].
    destruct Hsd as (Hc & He & _).
    split; [congruence|]. split; [congruence|].
    unfold keys. now rewrite Hitems'.
Qed.

Lemma remove_pair_beside_the_root fuel (k0 : K) (v0 : V) t l p k v r :
  ordered less same t (Node l p k v r) ->
  same k k0 && py_is v v0 = false ->
  length (items (Node l p k v r)) <= fuel ->
  exists t' T', AvlTree.remove_pair fuel k0 v0 t = Return t' /\
    ordered less same t' T' /\ items T' = items (Node l p k v r).
Proof.
  intros ((Hroot & Hs & Hnd) & Hhold & Hless & Hsame & Hsort) Hk Hfuel.
  cbn [top] in Hroot. unfold AvlTree.remove_pair. rewrite Hroot.
  enough (exists t', TreeObject.remove_pair fuel p k0 v0 t = Return t' /\ exists T',
            shape (objects t') None T' /\ refs T' = refs (Node l p k v r) /\
            items T' = items (Node l p k v r) /\ root t' = top T')
    as (t' & E & T' & Hs' & Hrefs' & Hitems' & Hroot').
  { exists t', T'. split; [exact E|]. split; [|exact Hitems'].
    pose proof (remove_pair_same_data t fuel k0 v0 p t (same_data_refl t) t' E) as Hsd.
    split; [split; [exact Hroot'|split; [exact Hs'|now rewrite Hrefs']]|].
    split; [eapply holds_all_same_data; eauto|].
    destruct Hsd as (Hc & He & _).
    split; [congruence|]. split; [congruence|].
    unfold keys. now rewrite Hitems'. }
  assert (length (refs l) + S (length (refs r)) <= fuel) as Hsize.
  { rewrite <- refs_items_length in Hfuel. cbn [refs] in Hfuel.
    rewrite length_app in Hfuel. exact Hfuel. }
  pose proof Hs as (n & Hn & Hkn & Hvn & Hpar & Hl & Hr & Hsl & Hsr).
  pose proof Hnd as (Hndl & Hndr & Hpl & Hpr & Hlr)%NoDup_Node.
  pose proof Hsort as (Hsortl & Hsortr & Hlk & Hkr)%(sorted_Node less same Hord).
  destruct (Hhold p n Hn) as [Hcmp Heq].
  assert (hangs t None p (Node l p k v r)) as Hh by (intros u [=]).
  assert (exists t', TreeObject.rebalance fuel p t = Return t' /\ exists T',
            shape (objects t') None T' /\ refs T' = refs (Node l p k v r) /\
            items T' = items (Node l p k v r) /\ root t' = top T') as Hstay.
  { destruct (relink_finish fuel t t l p k v r l r None) as
      (t' & E & T' & Hs' & Hrefs' & Hitems' & _ & Hroot' & _); auto.
    { now rewrite <- refs_items_length in Hfuel. }
    exists t'. split; [exact E|]. exists T'. auto. }
  unfold TreeObject.remove_pair. rewrite (node_Return t p n Hn). cbn [bind].
  rewrite Heq. cbn [callable bind]. rewrite Hkn, Hvn, Hk, Hcmp. cbn [callable bind].
  destruct (less k k0) eqn:Hdir.
  - (* to the left *)
    rewrite Hl. destruct l as [|ll lp lk lv lr]; cbn [top bind].
    + rewrite rebalance_after_remove_eq. exact Hstay.
    + destruct (remove_misses true k0 (Node ll lp lk lv lr) fuel t lp (Some p)) as
        (t1 & E1 & l' & Hs1 & Hrefs1 & Hitems1 & Htop1 & Hroot1 & Hf1 & Hu1); auto.
      { intros u [= <-]. split; [exact Hpl|]. exists n. auto. }
      { discriminate. }
      { intros q nq _. apply Hhold. }
      { apply misses_below; [exact Hsortl|]. intros k' Hk'.
        eapply (less_trans _ _ Hord); [apply Hlk, Hk'|exact Hdir]. }
      { lia. }
      rewrite E1. cbn [bind]. rewrite rebalance_after_remove_eq.
      specialize (Hu1 p eq_refl). rewrite Hn in Hu1. cbn in Hu1.
      assert (replace_child lp (top l') n = with_left_child (top l') n) as Erc.
      { unfold replace_child. rewrite Hr.
        destruct (is_ref (top r) lp) eqn:E; [|reflexivity].
        destruct (top r) as [tr|] eqn:Etr; [|discriminate]. cbn in E.
        apply Nat.eqb_eq in E as ->. apply top_refs in Etr.
        exfalso. apply (Hlr lp); [apply refs_Node; auto | exact Etr]. }
      rewrite Erc in Hu1.
      destruct (relink_finish fuel t t1 (Node ll lp lk lv lr) p k v r l' r None) as
        (t' & E & T' & Hs' & Hrefs' & Hitems' & _ & Hroot' & _); auto.
      * eapply (shape_with_left (objects t)); eauto.
        intros q Hq. apply Hf1; try congruence. intros Hq'. exact (Hlr q Hq' Hq).
      * apply NoDup_Node. rewrite Hrefs1. repeat split; auto.
      * cbn [refs]. now rewrite Hrefs1.
      * cbn [items]. now rewrite Hitems1.
      * intros q Hq. apply Hf1.
        -- intros ?. apply Hq, refs_Node. auto.
        -- intros [= ->]. apply Hq, refs_Node. auto.
      * now rewrite <- refs_items_length in Hfuel.
      * exists t'. split; [exact E|]. exists T'. auto.
  - (* to the right *)
    rewrite Hr. destruct r as [|rl rp rk rv rr]; cbn [top bind].
    + rewrite rebalance_after_remove_eq. exact Hstay.
    + destruct (remove_misses false k0 (Node rl rp rk rv rr) fuel t rp (Some p)) as
        (t1 & E1 & r' & Hs1 & Hrefs1 & Hitems1 & Htop1 & Hroot1 & Hf1 & Hu1); auto.
      { intros u [= <-]. split; [exact Hpr|]. exists n. auto. }
      { discriminate. }
      { intros q nq _. apply Hhold. }
      { apply misses_above; [exact Hsortr|]. intros k' Hk'.
        pose proof (Hkr k' Hk') as Hlt. split.
        - destruct (less k' k0) eqn:E; [|reflexivity].
          rewrite (less_trans _ _ Hord k k' k0 Hlt E) in Hdir. discriminate.
        - destruct (same k' k0) eqn:E; [|reflexivity].
          rewrite (same_less_r _ _ Hord k' k0 k E) in Hlt. congruence. }
      { lia. }
      rewrite E1. cbn [bind]. rewrite rebalance_after_remove_eq.
      specialize (Hu1 p eq_refl). rewrite Hn in Hu1. cbn in Hu1.
      assert (replace_child rp (top r') n = with_right_child (top r') n) as Erc.
      { unfold replace_child. rewrite Hr. cbn. now rewrite Nat.eqb_refl. }
      rewrite Erc in Hu1.
      destruct (relink_finish fuel t t1 l p k v (Node rl rp rk rv rr) l r' None) as
        (t' & E & T' & Hs' & Hrefs' & Hitems' & _ & Hroot' & _); auto.
      * eapply (shape_with_right (objects t)); eauto.
        intros q Hq. apply Hf1; try congruence. now apply Hlr.
      * apply NoDup_Node. rewrite Hrefs1. repeat split; auto.
      * cbn [refs]. now rewrite Hrefs1.
      * cbn [items]. now rewrite Hitems1.
      * intros q Hq. apply Hf1.
        -- intros ?. apply Hq, refs_Node. auto.
        -- intros [= ->]. apply Hq, refs_Node. auto.
      * now rewrite <- refs_items_length in Hfuel.
      * exists t'. split; [exact E|]. exists T'. auto.
Qed.

End Missing.
End Removal.

(** X15.  The tree is not kept balanced: after the constructor has
    inserted three keys a < b < c in the order a, c, b, the one
    rotation that [insert] makes leaves the root with two levels on its
    left and none on its right, and [check_balance] returns -2. *)
Theorem middle_key_last_is_unbalanced {K V : Type} `{PyKey K} `{PyObj V}
    (less same : K -> K -> bool) (fuel : nat) (a b c : K) (va vb vc : V) :
  strict_total_order less same ->
  less a b = true -> less b c = true ->
  bind (snd (AvlTree.init (3 + fuel) [(a, va); (c, vc); (b, vb)] (Some less) (Some same)))
       (AvlTree.check_balance (3 + fuel))
  = Return (-2)%Z.
Proof.
  intros Hord Hab Hbc.
  assert (less c a = false) as E1.
  { apply (less_asym _ _ Hord). eapply (less_trans _ _ Hord); eauto. }
  assert (less b a = false) as E2 by now apply (less_asym _ _ Hord).
  assert (same b c = false) as E4 by now apply (less_not_same less same Hord).
  cbv. rewrite E1.
  cbv. rewrite E2.
  cbv. rewrite Hbc, E4.
  reflexivity.
Qed.

(** X13.  On an ordered tree, [remove] of a key that differs from the
    key at the root returns, given a recursion budget of at least the
    number of pairs, and removes nothing: it looks for the key on the
    side of every node where the key cannot be, so a key stored below
    the root stays, and the pairs are what they were. *)
Theorem remove_reaches_only_the_root {K V : Type} `{PyKey K} `{PyObj V}
    (less same : K -> K -> bool) (fuel : nat) (k0 : K)
    (t : AvlTree K V) (l : tree K V) (p : ref) (k : K) (v : V) (r : tree K V) :
  strict_total_order less same ->
  ordered less same t (Node l p k v r) ->
  same k k0 = false ->
  length (items (Node l p k v r)) <= fuel ->
  exists t' T', AvlTree.remove fuel k0 t = Return t' /\
    ordered less same t' T' /\ items T' = items (Node l p k v r).
Proof. intros Hord. now apply remove_beside_the_root. Qed.

Lemma remove_reaches_only_the_root_witness :
  exists t' T', AvlTree.remove 5 1%Z three_nodes = Return t' /\
    ordered Z.ltb Z.eqb t' T' /\ items T' = [(1%Z, 10%nat); (2%Z, 20%nat); (4%Z, 30%nat)].
Proof.
  apply (remove_reaches_only_the_root Z.ltb Z.eqb 5 1%Z three_nodes
           (Node Leaf 1%nat 1%Z 10%nat Leaf) 0%nat 2%Z 20%nat (Node Leaf 2%nat 4%Z 30%nat Leaf)
           Z_ordered three_nodes_ordered).
  - reflexivity.
  - cbn. lia.
Defined.

(** X14.  On an ordered tree, [remove_pair] of a key and a value that
    are not both those of the root returns, given a recursion budget of
    at least the number of pairs, and removes nothing, wherever the pair
    is stored. *)
Theorem remove_pair_reaches_only_the_root {K V : Type} `{PyKey K} `{PyObj V}
    (less same : K -> K -> bool) (fuel : nat) (k0 : K) (v0 : V)
    (t : AvlTree K V) (l : tree K V) (p : ref) (k : K) (v : V) (r : tree K V) :
  strict_total_order less same ->
  ordered less same t (Node l p k v r) ->
  same k k0 && py_is v v0 = false ->
  length (items (Node l p k v r)) <= fuel ->
  exists t' T', AvlTree.remove_pair fuel k0 v0 t = Return t' /\
    ordered less same t' T' /\ items T' = items (Node l p k v r).
Proof. intros Hord. now apply remove_pair_beside_the_root. Qed.

Lemma remove_pair_reaches_only_the_root_witness :
  exists t' T', AvlTree.remove_pair 5 4%Z 30%nat three_nodes = Return t' /\
    ordered Z.ltb Z.eqb t' T' /\ items T' = [(1%Z, 10%nat); (2%Z, 20%nat); (4%Z, 30%nat)].
Proof.
  apply (remove_pair_reaches_only_the_root Z.ltb Z.eqb 5 4%Z 30%nat three_nodes
           (Node Leaf 1%nat 1%Z 10%nat Leaf) 0%nat 2%Z 20%nat (Node Leaf 2%nat 4%Z 30%nat Leaf)
           Z_ordered three_nodes_ordered).
  - reflexivity.
  - cbn. lia.
Defined.

Lemma middle_key_last_is_unbalanced_witness :
  bind (snd (AvlTree.init 3 [(1, 10%nat); (3, 30%nat); (2, 20%nat)]%Z
               (Some Z.ltb) (Some Z.eqb)))
       (AvlTree.check_balance 3)
  = Return (-2)%Z.
Proof.
  exact (middle_key_last_is_unbalanced Z.ltb Z.eqb 0 1%Z 2%Z 3%Z 10%nat 20%nat 30%nat
           Z_ordered eq_refl eq_refl).
Defined.

(** ** Segments and their endpoints *)

Section Endpoints.
Context {F : Type} `{NumberOrder F}.
Local Open Scope num_scope.

Lemma Line_init_ordered (point1 point2 : Point F) :
  ((upper (Line.init point1 point2) = point1 /\ lower (Line.init point1 point2) = point2)
   \/ (upper (Line.init point1 point2) = point2 /\ lower (Line.init point1 point2) = point1))
  /\ FindIntersections.compare_events (lower (Line.init point1 point2))
                                      (upper (Line.init point1 point2)) = false
  /\ (y (upper (Line.init point1 point2)) <? y (lower (Line.init point1 point2))) = false.
Proof.
  unfold Line.init, FindIntersections.compare_events.
  destruct (y point2 <? y point1) eqn:E1; cbn [upper lower].
  - split; [tauto|]. rewrite (n_ltb_not_eqb _ _ E1).
    split; now apply n_ltb_asym.
  - destruct (y point1 <? y point2) eqn:E2; cbn [upper lower].
    + split; [tauto|]. rewrite (n_ltb_not_eqb _ _ E2).
      split; now apply n_ltb_asym.
    + assert ((y point1 =? y point2) = true) as Ey.
      { destruct (y point1 =? y point2) eqn:E; [reflexivity|].
        rewrite (n_ltb_total _ _ E2 E) in E1. discriminate. }
      destruct (x point1 <? x point2) eqn:E3; cbn [upper lower].
      * split; [tauto|]. rewrite n_eqb_sym, Ey. split; [now apply n_ltb_asym|exact E2].
      * split; [tauto|]. rewrite Ey. split; [exact E3|exact E1].
Qed.

End Endpoints.

Section Boxes.
Context {F : Type} `{Number F}.

Lemma lies_on_segment_inside (segment : Line F) (point : Point F) :
  FindIntersections.lies_on_segment segment point = true ->
  inside_box segment (x point) (y point) /\
  n_eqb (n_sub (x (upper segment)) (x (lower segment))) n_zero
  && n_eqb (n_sub (y (upper segment)) (y (lower segment))) n_zero = false.
Proof.
  unfold FindIntersections.lies_on_segment, inside_box.
  destruct (n_ltb (y point) (y (lower segment))); [discriminate|].
  destruct (n_ltb (y (upper segment)) (y point)); [discriminate|].
  cbn [orb].
  destruct (n_ltb (x (upper segment)) (x (lower segment))).
  - destruct (n_ltb (x point) (x (upper segment))); [discriminate|].
    destruct (n_ltb (x (lower segment)) (x point)); [discriminate|].
    cbn [orb]. rewrite andb_false_r. cbn [andb].
    destruct (_ && _); [discriminate|]. auto.
  - destruct (n_ltb (x point) (x (lower segment))); [discriminate|].
    destruct (n_ltb (x (upper segment)) (x point)); [discriminate|].
    cbn [orb]. rewrite andb_false_r. cbn [andb].
    destruct (_ && _); [discriminate|]. auto.
Qed.

Lemma line_intersection_inside (segment1 segment2 : Line F) (st : FindIntersections F)
    (ix iy : F) :
  fst (FindIntersections.line_intersection segment1 segment2 st) = IntersectionAt ix iy ->
  inside_box segment1 ix iy /\ inside_box segment2 ix iy.
Proof.
  unfold FindIntersections.line_intersection. cbv zeta.
  destruct (linalg_solve _ _ _ _ _ _) as [[t s]|]; [|discriminate].
  cbn [FindIntersections.new_Point fst snd].
  destruct (FindIntersections.lies_on_segment segment1 _) eqn:E1; [|discriminate].
  destruct (FindIntersections.lies_on_segment segment2 _) eqn:E2; [|discriminate].
  cbn [andb fst]. intros [= <- <-].
  apply lies_on_segment_inside in E1 as [E1 _].
  apply lies_on_segment_inside in E2 as [E2 _].
  cbn [x y] in E1, E2. auto.
Qed.

End Boxes.

(** X17.  Whenever the linear system of two stored segments is found
    singular, [line_intersection] returns the pair (None, None) and
    [find_new_event] raises [TypeError], whatever the event point, the
    queue and the numbers. *)
Theorem find_new_event_raises_when_singular {F : Type} `{Number F} (fuel : nat)
    (l r : nat) (segment1 segment2 : Line F) (point : Point F)
    (st : FindIntersections F) :
  line_store st !! l = Some segment1 ->
  line_store st !! r = Some segment2 ->
  system_of segment1 segment2 = None ->
  FindIntersections.line_intersection segment1 segment2 st = (NonePair, st) /\
  FindIntersections.find_new_event fuel l r point st = Raise TypeError.
Proof.
  intros Hl Hr Hs. split.
  - now apply line_intersection_singular.
  - now apply (find_new_event_singular fuel l r segment1 segment2).
Qed.

Lemma find_new_event_raises_when_singular_witness :
  FindIntersections.line_intersection
    (mkLine (mkPoint 0 2 1) (mkPoint 0 0 0) 0)%float
    (mkLine (mkPoint 1 2 3) (mkPoint 1 0 2) 0)%float
    (snd (FindIntersections.line_factory two_verticals (@FindIntersections.fresh float _)))
  = (NonePair,
     snd (FindIntersections.line_factory two_verticals (@FindIntersections.fresh float _)))
  /\
  FindIntersections.find_new_event 5 0 1 (mkPoint 1 2 5)%float
    (snd (FindIntersections.line_factory two_verticals (@FindIntersections.fresh float _)))
  = Raise TypeError.
Proof.
  exact (find_new_event_raises_when_singular 5 0 1
           (mkLine (mkPoint 0 2 1) (mkPoint 0 0 0) 0)%float
           (mkLine (mkPoint 1 2 3) (mkPoint 1 0 2) 0)%float
           (mkPoint 1 2 5)%float
           (snd (FindIntersections.line_factory two_verticals
                   (@FindIntersections.fresh float _)))
           eq_refl eq_refl eq_refl).
Defined.

(** X18.  A point that [line_intersection] returns is in the box of the
    endpoints of each of the two segments, by the comparisons of the
    code, in any numbers: the coordinates it returns may be rounded, and
    they are never outside the two boxes. *)
Theorem line_intersection_stays_in_both_boxes {F : Type} `{Number F}
    (segment1 segment2 : Line F) (st : FindIntersections F) (ix iy : F) :
  fst (FindIntersections.line_intersection segment1 segment2 st) = IntersectionAt ix iy ->
  inside_box segment1 ix iy /\ inside_box segment2 ix iy.
Proof. apply line_intersection_inside. Qed.

Lemma line_intersection_stays_in_both_boxes_witness :
  inside_box rising_float 1%float 1%float /\ inside_box falling_float 1%float 1%float.
Proof.
  apply (line_intersection_stays_in_both_boxes rising_float falling_float
           (@FindIntersections.fresh float _)).
  vm_compute. reflexivity.
Defined.



(** X22.  A line object made from two points keeps the two points, the
    upper one being the one that the sweep meets first: the lower point
    never comes before the upper one in the order of the events, and is
    never higher. *)
Theorem Line_init_orders_the_endpoints {F : Type} `{NumberOrder F} (point1 point2 : Point F) :
  ((upper (Line.init point1 point2) = point1 /\ lower (Line.init point1 point2) = point2)
   \/ (upper (Line.init point1 point2) = point2 /\ lower (Line.init point1 point2) = point1))
  /\ FindIntersections.compare_events (lower (Line.init point1 point2))
                                      (upper (Line.init point1 point2)) = false
  /\ n_ltb (y (upper (Line.init point1 point2))) (y (lower (Line.init point1 point2))) = false.
Proof. apply Line_init_ordered. Qed.

Lemma Line_init_orders_the_endpoints_witness :
  ((upper (Line.init (lower rising) (upper rising)) = lower rising /\
    lower (Line.init (lower rising) (upper rising)) = upper rising)
   \/ (upper (Line.init (lower rising) (upper rising)) = upper rising /\
       lower (Line.init (lower rising) (upper rising)) = lower rising))
  /\ FindIntersections.compare_events (lower (Line.init (lower rising) (upper rising)))
                                      (upper (Line.init (lower rising) (upper rising))) = false
  /\ n_ltb (y (upper (Line.init (lower rising) (upper rising))))
           (y (lower (Line.init (lower rising) (upper rising)))) = false.
Proof.
  exact (@Line_init_orders_the_endpoints Qc _ NumberOrder_Qc (lower rising) (upper rising)).
Defined.

(** X24.  Whenever the comparisons of the numbers order them,
    [compare_events] with [event_equals] is a strict total order of the
    points: transitive, asymmetric, total up to [event_equals], and
    respected by [event_equals]. *)
Theorem compare_events_is_a_strict_total_order {F : Type} `{NumberOrder F} :
  strict_total_order (@FindIntersections.compare_events F _)
                     (@FindIntersections.event_equals F _).
Proof. apply events_ordered. Qed.

Lemma compare_events_is_a_strict_total_order_witness :
  strict_total_order (@FindIntersections.compare_events Qc _)
                     (@FindIntersections.event_equals Qc _).
Proof.
  exact (@compare_events_is_a_strict_total_order Qc _ NumberOrder_Qc).
Defined.

(** ** What a record lists *)

Section ListsOfSegments.

Lemma map_each_Forall2 {A B : Type} (f : A -> outcome B) : forall l bs,
  map_each f l = Return bs -> Forall2 (fun a b => f a = Return b) l bs.
Proof.
  induction l as [|a l IH]; intros bs; cbn [map_each].
  - intros [= <-]. constructor.
  - destruct (f a) as [b| |] eqn:Ea; try discriminate. cbn [bind].
    destruct (map_each f l) as [bs'| |]; try discriminate. cbn [bind].
    intros [= <-]. constructor; [exact Ea|now apply IH].
Qed.

Lemma distinct_NoDup (l : list nat) : NoDup l -> distinct Nat.eqb l = l.
Proof.
  induction 1 as [|a l Ha Hl IH]; cbn [distinct]; [reflexivity|].
  rewrite IH. f_equal.
  clear IH Hl. induction l as [|b l IH]; [reflexivity|]. cbn [List.filter].
  apply not_elem_of_cons in Ha as [Hab Ha].
  destruct (Nat.eqb_spec a b) as [->|_]; [congruence|]. cbn [negb].
  f_equal. now apply IH.
Qed.

Lemma existsb_filter (Q : nat -> bool) (s : nat) (l : list nat) :
  s ∈ l -> existsb (Nat.eqb s) (List.filter Q l) = Q s.
Proof.
  intros Hs. destruct (Q s) eqn:E.
  - apply existsb_exists. exists s. split; [|apply Nat.eqb_refl].
    apply filter_In. split; [now apply list_elem_of_In|exact E].
  - destruct (existsb _ _) eqn:Ee; [|reflexivity].
    apply existsb_exists in Ee as (s' & Hs' & ->%Nat.eqb_eq).
    apply filter_In in Hs' as [_ Hs']. congruence.
Qed.

Lemma filter_without (Q : nat -> bool) (l : list nat) :
  List.filter (fun s => negb (existsb (Nat.eqb s) (List.filter Q l))) l
  = List.filter (fun s => negb (Q s)) l.
Proof.
  apply filter_ext_in. intros s Hs%list_elem_of_In. now rewrite existsb_filter.
Qed.

Lemma filter_split {A : Type} (Q : A -> bool) (l : list A) :
  List.filter (fun a => negb (Q a)) l ++ List.filter Q l ≡ₚ l.
Proof.
  induction l as [|a l IH]; [reflexivity|]. cbn [List.filter].
  destruct (Q a); cbn [negb].
  - rewrite <- Permutation_middle. now constructor.
  - cbn [app]. now constructor.
Qed.

Lemma filter_filter_and {A : Type} (P Q : A -> bool) (l : list A) :
  List.filter P (List.filter Q l) = List.filter (fun a => Q a && P a) l.
Proof.
  induction l as [|a l IH]; [reflexivity|]. cbn [List.filter].
  destruct (Q a); cbn [List.filter andb]; [destruct (P a)|]; now rewrite IH.
Qed.

Lemma filter_NoDup {A : Type} (Q : A -> bool) (l : list A) :
  NoDup l -> NoDup (List.filter Q l).
Proof.
  induction 1 as [|a l Ha Hl IH]; cbn [List.filter]; [constructor|].
  destruct (Q a); [|exact IH]. constructor; [|exact IH].
  intros Hin%list_elem_of_In%filter_In. apply Ha, list_elem_of_In, Hin.
Qed.

Lemma filter_Permutation {A : Type} (Q : A -> bool) (l l' : list A) :
  l ≡ₚ l' -> List.filter Q l ≡ₚ List.filter Q l'.
Proof.
  induction 1 as [|a l l' Hp IH|a b l|l l' l'' _ IH1 _ IH2]; cbn [List.filter].
  - reflexivity.
  - destruct (Q a); [now constructor|exact IH].
  - destruct (Q a), (Q b); try reflexivity. apply perm_swap.
  - now rewrite IH1.
Qed.

Section Sorted.
Context {F : Type} `{Number F} {A : Type} (sort_key : A -> F).

Lemma sort_insert_perm (a : A) (l : list A) : sort_insert sort_key a l ≡ₚ a :: l.
Proof.
  induction l as [|b l IH]; cbn [sort_insert]; [reflexivity|].
  destruct (n_ltb _ _); [|reflexivity].
  rewrite IH. apply perm_swap.
Qed.

Lemma sort_perm (l : list A) : sort sort_key l ≡ₚ l.
Proof.
  induction l as [|a l IH]; cbn [sort]; [reflexivity|].
  rewrite sort_insert_perm. now constructor.
Qed.

End Sorted.

End ListsOfSegments.

Section Kept.
Context {F : Type} `{Number F}.
Implicit Types (st : FindIntersections F) (fuel : nat) (p : Point F).

Lemma endpoints_set_order (segment : nat) (value : F) st :
  endpoints (line_store (FindIntersections.set_order segment value st))
  = endpoints (line_store st).
Proof.
  unfold endpoints. cbn [FindIntersections.set_order line_store].
  apply list_eq. intros i. rewrite !list_lookup_fmap.
  rewrite list_lookup_alter.
  destruct (decide (segment = i)) as [->|Hne]; [|reflexivity].
  now destruct (line_store st !! i).
Qed.

Lemma endpoints_lookup (store store' : list (Line F)) (s : nat) (l : Line F) :
  endpoints store = endpoints store' ->
  store !! s = Some l ->
  exists l', store' !! s = Some l' /\ upper l' = upper l /\ lower l' = lower l.
Proof.
  unfold endpoints. intros He Hl.
  assert (map (fun l => (upper l, lower l)) store' !! s = Some (upper l, lower l)) as Hs.
  { rewrite <- He. change (map ?f ?l) with (f <$> l).
    now rewrite list_lookup_fmap, Hl. }
  change (map ?f ?l) with (f <$> l) in Hs. rewrite list_lookup_fmap in Hs.
  destruct (store' !! s) as [l'|]; [|discriminate].
  injection Hs as Hu Hw. eauto.
Qed.

Lemma tests_endpoints (l l' : Line F) p :
  upper l' = upper l -> lower l' = lower l ->
  Point.compare (upper l) p = Point.compare (upper l') p /\
  Point.compare (lower l) p = Point.compare (lower l') p /\
  FindIntersections.lies_on_segment l p = FindIntersections.lies_on_segment l' p.
Proof.
  unfold FindIntersections.lies_on_segment. now intros -> ->.
Qed.

Lemma line_of_Return st (s : nat) (l : Line F) :
  FindIntersections.line_of st s = Return l <-> line_store st !! s = Some l.
Proof.
  unfold FindIntersections.line_of. destruct (line_store st !! s); split; congruence.
Qed.

(** The segments picked by a test on their line objects. *)
Lemma picked (P : Line F -> bool) st : forall (segments : list nat) (lines : list (Line F)),
  map_each (FindIntersections.line_of st) segments = Return lines ->
  map fst (List.filter (fun sl => P (snd sl)) (zip segments lines))
  = List.filter (fun s => match line_store st !! s with
                          | Some l => P l
                          | None => false
                          end) segments
  /\ length lines = length segments.
Proof.
  intros segments lines Hl%map_each_Forall2.
  induction Hl as [|s l segments lines Hs _ [IH1 IH2]]; [split; reflexivity|].
  apply line_of_Return in Hs. cbn [zip zip_with List.filter snd length]. rewrite Hs.
  split; [|now rewrite IH2].
  destruct (P l); cbn [map fst]; now rewrite IH1.
Qed.

End Kept.

Lemma on_return_self {A : Type} (m : outcome A) : on_return m (fun a => m = Return a).
Proof. intros a Ha. exact Ha. Qed.

Lemma on_return_and {A : Type} (m : outcome A) (P Q : A -> Prop) :
  on_return m P -> on_return m Q -> on_return m (fun a => P a /\ Q a).
Proof. intros HP HQ a Ha. split; auto. Qed.

Section Records.
Context {F : Type} `{Number F} {O : SetOrder F} {laws : SetOrderLaws O}.
Local Open Scope num_scope.
Implicit Types (st : FindIntersections F) (fuel : nat) (p : Point F).

Lemma list_of_segments_NoDup (l : list nat) : NoDup l -> NoDup (list_of_segments l).
Proof. intros Hl. now rewrite list_of_segments_perm. Qed.

Lemma sort_by_sweepline_order_perm (segments : list nat) st :
  NoDup segments ->
  on_return (FindIntersections.sort_by_sweepline_order segments st)
            (fun res => fst res ≡ₚ segments).
Proof.
  intros Hnd. unfold FindIntersections.sort_by_sweepline_order.
  destruct segments as [|s0 rest]; [now apply on_return_Return|].
  set (segments := s0 :: rest) in *. cbv zeta.
  eapply on_return_bind; [apply on_return_self|]. cbv beta. intros lines Hlines.
  pose proof (picked (fun l => y (upper l) =? y (lower l)) st segments lines Hlines)
    as [Hh _].
  cbv beta in Hh. rewrite Hh. clear Hh Hlines lines.
  rewrite (distinct_NoDup segments Hnd), filter_without.
  pose (horizontal := fun s : nat => match line_store st !! s with
                                     | Some l => y (upper l) =? y (lower l)
                                     | None => false
                                     end).
  set (segments1 := list_of_segments _).
  assert (segments1 ≡ₚ List.filter (fun s => negb (horizontal s)) segments) as Hp1
    by apply list_of_segments_perm.
  assert (NoDup segments1) as Hnd1 by (rewrite Hp1; now apply filter_NoDup).
  eapply on_return_bind; [apply on_return_self|]. cbv beta. intros lines1 Hlines1.
  pose proof (picked (fun l => x (upper l) =? x (lower l)) st segments1 lines1 Hlines1)
    as [Hv _].
  cbv beta in Hv. rewrite Hv. clear Hv Hlines1 lines1.
  rewrite (distinct_NoDup segments1 Hnd1), filter_without.
  pose (vertical := fun s : nat => match line_store st !! s with
                                   | Some l => x (upper l) =? x (lower l)
                                   | None => false
                                   end).
  set (segments2 := list_of_segments _).
  assert (segments2 ≡ₚ List.filter (fun s => negb (vertical s)) segments1) as Hp2
    by apply list_of_segments_perm.
  skip_bind. skip_bind.
  eapply on_return_bind; [apply on_return_self|]. cbv beta. intros lines3 Hlines3.
  match type of Hlines3 with
  | map_each (FindIntersections.line_of ?st3) _ = _ =>
    pose proof (picked (fun _ => true) st3 _ lines3 Hlines3) as [_ Hlen]
  end.
  skip_bind. apply on_return_Return. cbn [fst].
  change (map fst ?l) with (l.*1).
  rewrite (fmap_Permutation fst _ _ (sort_perm _ _)).
  rewrite fst_zip by lia.
  rewrite Hp2. change (List.filter _ segments1) with (List.filter vertical segments1) at 2.
  rewrite (filter_split vertical), Hp1.
  apply (filter_split horizontal).
Qed.

Ltac name_let :=
  lazymatch goal with
  | |- on_return (let x := ?v in @?body x) ?Q =>
    let y := fresh x in
    change (let y := v in on_return (body y) Q); intros y; clearbody y; cbv beta
  end.

Ltac lines_simpl :=
  repeat first
    [ rewrite endpoints_set_order
    | progress cbn [fst snd line_store FindIntersections.set_status_structure
                    FindIntersections.set_sweepline_position
                    FindIntersections.set_event_queue
                    FindIntersections.new_Point] ].

Ltac keep_lines_step :=
  lazymatch goal with
  | |- on_return (let x := _ in _) _ => name_let
  | |- on_return (Return _) _ => apply on_return_Return; lines_simpl; congruence
  | |- on_return Undefined _ => apply on_return_Undefined
  | |- on_return (Raise _) _ => apply on_return_Raise
  | |- on_return (if ?b then _ else _) _ => destruct b
  | |- on_return (match ?o with Some _ => _ | None => _ end) _ => destruct o
  | |- on_return (match ?o with [] => _ | _ :: _ => _ end) _ => destruct o
  | |- on_return (bind (for_each _ _ ?st) _) _ =>
    eapply on_return_bind;
    [ apply (for_each_on_return _
               (fun st' => endpoints (line_store st') = endpoints (line_store st)));
      [ cbv beta; intros ? ? ? | reflexivity ]
    | cbv beta; intros ? ? ]
  | |- on_return (bind _ _) _ => skip_bind
  end.

Ltac keep_lines := repeat keep_lines_step.

Lemma rekey_lines fuel st :
  on_return (FindIntersections.rekey fuel st)
            (fun st' => endpoints (line_store st') = endpoints (line_store st)).
Proof.
  unfold FindIntersections.rekey.
  eapply on_return_bind; [apply on_return_True|]. cbv beta. intros [? ?] _.
  keep_lines.
Qed.

Lemma sort_by_sweepline_order_lines (segments : list nat) st :
  on_return (FindIntersections.sort_by_sweepline_order segments st)
            (fun res => endpoints (line_store (snd res)) = endpoints (line_store st)).
Proof.
  unfold FindIntersections.sort_by_sweepline_order.
  destruct segments as [|s segments]; [now apply on_return_Return|].
  keep_lines.
Qed.

Lemma insert_ordered_lines fuel (l : list nat) st :
  on_return (FindIntersections.insert_ordered fuel l st)
            (fun st' => endpoints (line_store st') = endpoints (line_store st)).
Proof. unfold FindIntersections.insert_ordered. keep_lines. Qed.

Lemma line_intersection_lines (l r : Line F) st :
  line_store (snd (FindIntersections.line_intersection l r st)) = line_store st.
Proof.
  unfold FindIntersections.line_intersection. cbv zeta.
  destruct (linalg_solve _ _ _ _ _ _) as [[t ?]|]; [|reflexivity].
  cbn [FindIntersections.new_Point].
  destruct (_ && _); reflexivity.
Qed.

Lemma find_new_event_lines fuel (left_segment right_segment : nat) p st :
  on_return (FindIntersections.find_new_event fuel left_segment right_segment p st)
            (fun st' => endpoints (line_store st') = endpoints (line_store st)).
Proof.
  unfold FindIntersections.find_new_event.
  skip_bind. skip_bind.
  match goal with
  | |- context [FindIntersections.line_intersection ?l ?r st] =>
    pose proof (line_intersection_lines l r st) as Hli;
    destruct (FindIntersections.line_intersection l r st) as [res st1]
  end.
  cbn [snd] in Hli. rewrite <- Hli.
  destruct res as [|ix iy|]; [keep_lines| |keep_lines].
  destruct (_ || _); [cbn [FindIntersections.new_Point]|]; keep_lines.
Qed.

Lemma test_neighbors_lines fuel p (c : FindIntersections.classification)
    (upper_contains_p : list nat) st :
  on_return (FindIntersections.test_neighbors fuel p c upper_contains_p st)
            (fun st' => endpoints (line_store st') = endpoints (line_store st)).
Proof.
  unfold FindIntersections.test_neighbors.
  destruct (Nat.eqb _ 0).
  - eapply on_return_bind; [apply on_return_True|]. cbv beta. intros [[l|] [r|]] _;
      try (now apply on_return_Return).
    apply find_new_event_lines.
  - destruct upper_contains_p as [|first rest]; [apply on_return_Undefined|].
    skip_bind. skip_bind. skip_bind. skip_bind. skip_bind.
    eapply on_return_bind
      with (P := fun st' => endpoints (line_store st') = endpoints (line_store st)).
    { match goal with
      | |- on_return (match ?o with Some _ => _ | None => _ end) _ =>
        destruct o as [left_neighbor|]; [|now apply on_return_Return]
      end.
      destruct (negb _); [apply find_new_event_lines|now apply on_return_Return]. }
    cbv beta. intros st1 Hst1. rewrite <- Hst1. skip_bind. skip_bind.
    match goal with
    | |- on_return (match ?o with Some _ => _ | None => _ end) _ =>
      destruct o as [right_neighbor|]; [|now apply on_return_Return]
    end.
    destruct (negb _); [apply find_new_event_lines|now apply on_return_Return].
Qed.

Lemma for_each_on_return_prefix {A B : Type} (f : A -> B -> outcome B)
    (I : list A -> B -> Prop) :
  (forall pre a b, I pre b -> on_return (f a b) (I (pre ++ [a]))) ->
  forall l pre b, I pre b -> on_return (for_each f l b) (I (pre ++ l)).
Proof.
  intros Hf. induction l as [|a l IH]; intros pre b Hb; cbn [for_each].
  - rewrite app_nil_r. now apply on_return_Return.
  - eapply on_return_bind; [apply Hf, Hb|]. cbv beta. intros b' Hb'.
    rewrite cons_middle, app_assoc. now apply IH.
Qed.

Lemma classify_sorts fuel p (store : list (Line F)) (segment : nat) (done : list nat)
    (acc : FindIntersections.classification * FindIntersections F) :
  classified store p done acc ->
  on_return (FindIntersections.classify fuel p segment acc)
            (classified store p (done ++ [segment])).
Proof.
  destruct acc as [c st]. intros (Hst & Hup & Hlow & Hin). cbn [fst snd] in *.
  unfold FindIntersections.classify.
  eapply on_return_bind; [apply on_return_self|]. cbv beta.
  intros l Hl%line_of_Return.
  destruct (endpoints_lookup _ _ _ _ Hst Hl) as (l' & Hl' & Hu & Hw).
  destruct (tests_endpoints l l' p Hu Hw) as (Eu & Ew & Eo).
  assert (forall test, pick test store p segment = test l' p) as Hpick
    by (intros test; unfold pick; now rewrite Hl').
  assert (forall test, List.filter (pick test store p) (done ++ [segment])
                       = List.filter (pick test store p) done
                         ++ (if test l' p then [segment] else [])) as Hf.
  { intros test. rewrite List.filter_app. cbn [List.filter]. now rewrite Hpick. }
  unfold classified. rewrite !Hf.
  change (is_upper l' p) with (Point.compare (upper l') p).
  change (is_lower l' p)
    with (negb (Point.compare (upper l') p) && Point.compare (lower l') p).
  change (is_inner l' p)
    with (negb (Point.compare (upper l') p) && negb (Point.compare (lower l') p)
          && FindIntersections.lies_on_segment l' p).
  rewrite <- Eu, <- Ew, <- Eo.
  destruct (Point.compare (upper l) p); cbn [negb andb].
  { apply on_return_Return. cbn [fst snd FindIntersections.upper_p
      FindIntersections.lower_p FindIntersections.contains_p].
    rewrite !app_nil_r. repeat split; congruence. }
  destruct (Point.compare (lower l) p); cbn [negb andb].
  { skip_bind. apply on_return_Return. cbn -[endpoints].
    rewrite !app_nil_r. repeat split; congruence. }
  destruct (FindIntersections.lies_on_segment l p).
  { skip_bind. apply on_return_Return. cbn -[endpoints].
    rewrite !app_nil_r. repeat split; congruence. }
  apply on_return_Return. cbn [fst snd]. rewrite !app_nil_r. repeat split; congruence.
Qed.

Lemma kinds_touch (store : list (Line F)) p (line_segments : list nat) :
  (List.filter (pick is_upper store p) line_segments
   ++ List.filter (pick is_inner store p) line_segments)
  ++ List.filter (pick is_lower store p) line_segments
  ≡ₚ List.filter (touching store p) line_segments.
Proof.
  induction line_segments as [|s l IH]; [reflexivity|]. cbn [List.filter].
  change (touching store p s) with (pick touches store p s).
  destruct (store !! s) as [ls|] eqn:Es.
  2: { assert (forall test, pick test store p s = false) as Hp
         by (intros test; unfold pick; now rewrite Es).
       rewrite !Hp. exact IH. }
  assert (forall test, pick test store p s = test ls p) as Hp
    by (intros test; unfold pick; now rewrite Es).
  rewrite !Hp.
  change (is_upper ls p) with (Point.compare (upper ls) p).
  change (is_lower ls p)
    with (negb (Point.compare (upper ls) p) && Point.compare (lower ls) p).
  change (is_inner ls p)
    with (negb (Point.compare (upper ls) p) && negb (Point.compare (lower ls) p)
          && FindIntersections.lies_on_segment ls p).
  change (touches ls p)
    with (Point.compare (upper ls) p
          || (Point.compare (lower ls) p || FindIntersections.lies_on_segment ls p)).
  destruct (Point.compare (upper ls) p); cbn [negb andb orb].
  { cbn [app]. now constructor. }
  destruct (Point.compare (lower ls) p); cbn [negb andb orb].
  { rewrite <- Permutation_middle. now constructor. }
  destruct (FindIntersections.lies_on_segment ls p); [|exact IH].
  rewrite <- app_assoc. cbn [app]. rewrite <- Permutation_middle. rewrite app_assoc.
  now constructor.
Qed.

Lemma kinds_apart (store : list (Line F)) p (line_segments : list nat) :
  NoDup line_segments ->
  NoDup (List.filter (pick is_upper store p) line_segments
         ++ List.filter (pick is_inner store p) line_segments).
Proof.
  intros Hnd. apply NoDup_app. split; [now apply filter_NoDup|].
  split; [|now apply filter_NoDup].
  intros s Hu%list_elem_of_In%filter_In Hi%list_elem_of_In%filter_In.
  destruct Hu as [_ Hu], Hi as [_ Hi]. unfold pick, is_upper, is_inner in *.
  destruct (store !! s) as [ls|]; [|discriminate].
  rewrite Hu in Hi. discriminate.
Qed.

Lemma handle_event_points_records fuel p (store : list (Line F))
    (line_segments : list nat) (intersection_list : list (Point F * list nat)) st :
  NoDup line_segments ->
  endpoints (line_store st) = endpoints store ->
  on_return (FindIntersections.handle_event_points fuel p line_segments
               intersection_list st)
    (fun res =>
       (fst res = intersection_list \/
        exists segments, fst res = intersection_list ++ [(p, segments)] /\
                         recorded store line_segments (p, segments)) /\
       endpoints (line_store (snd res)) = endpoints store).
Proof.
  intros Hnd Hst. unfold FindIntersections.handle_event_points. cbv zeta.
  eapply on_return_bind; [apply rekey_lines|]. cbv beta. intros st1 Hst1.
  cbn [line_store FindIntersections.set_sweepline_position] in Hst1.
  eapply on_return_bind with (P := classified store p line_segments).
  { apply (for_each_on_return_prefix _ (classified store p)
             (fun pre a b => classify_sorts fuel p store a pre b) line_segments []).
    repeat split. cbn [snd]. congruence. }
  cbv beta. intros [c st2] (Hst2 & Hup & Hin & Hlow). cbn [fst snd] in *.
  eapply on_return_bind.
  { apply on_return_and;
      [apply sort_by_sweepline_order_perm|apply sort_by_sweepline_order_lines].
    rewrite Hup, Hlow. now apply kinds_apart. }
  cbv beta. intros [upper_contains_p st3] [Hperm Hst3]. cbn [fst snd] in *.
  cbn [line_store FindIntersections.set_sweepline_position] in Hst3.
  eapply on_return_bind; [apply insert_ordered_lines|]. cbv beta. intros st4 Hst4.
  eapply on_return_bind; [apply test_neighbors_lines|]. cbv beta. intros st5 Hst5.
  apply on_return_Return. cbn [fst snd line_store FindIntersections.set_sweepline_position].
  split; [|congruence].
  destruct (Nat.ltb 1 _) eqn:Elen; [right|now left].
  eexists. split; [reflexivity|]. split; cbn [fst snd].
  - apply Nat.ltb_lt in Elen. lia.
  - rewrite Hperm, Hup, Hin, Hlow. apply kinds_touch.
Qed.

Lemma find_intersections_loop_records fuel (store : list (Line F))
    (line_segments : list nat) :
  NoDup line_segments ->
  forall turns recs st,
  endpoints (line_store st) = endpoints store ->
  Forall (recorded store line_segments) recs ->
  on_return (FindIntersections.find_intersections_loop turns fuel line_segments recs st)
            (Forall (recorded store line_segments)).
Proof.
  intros Hnd. induction turns as [|turns IH]; intros recs st Hst Hrecs;
    cbn [FindIntersections.find_intersections_loop];
    destruct (root (event_queue st)) as [top_event|];
    try (now apply on_return_Return);
    [apply on_return_Undefined|].
  eapply on_return_bind; [apply on_return_True|]. cbv beta. intros [next q] _.
  skip_bind.
  eapply on_return_bind.
  { apply (handle_event_points_records fuel _ store line_segments recs); [exact Hnd|].
    exact Hst. }
  cbv beta. intros [recs' st'] [Hrecs' Hst']. cbn [fst snd] in *.
  apply IH; [exact Hst'|].
  destruct Hrecs' as [->|(segments & -> & Hr)]; [exact Hrecs|].
  apply Forall_app. split; [exact Hrecs|]. constructor; [exact Hr|constructor].
Qed.

Lemma find_intersections_records fuel (store : list (Line F)) (line_segments : list nat)
    (event_points : list (Point F)) st :
  NoDup line_segments ->
  endpoints (line_store st) = endpoints store ->
  on_return (FindIntersections.find_intersections fuel line_segments event_points st)
            (Forall (recorded store line_segments)).
Proof.
  intros Hnd Hst. unfold FindIntersections.find_intersections.
  skip_bind. skip_bind.
  apply find_intersections_loop_records; [exact Hnd|exact Hst|constructor].
Qed.

Lemma line_factory_segments : forall (lines : list ((F * F) * (F * F))) st,
  fst (FindIntersections.line_factory lines st)
  = seq (length (line_store st)) (length lines) /\
  length (line_store (snd (FindIntersections.line_factory lines st)))
  = (length (line_store st) + length lines)%nat.
Proof.
  induction lines as [|line lines IH]; intros st; cbn [FindIntersections.line_factory].
  - cbn. split; [reflexivity|lia].
  - cbn [FindIntersections.new_Point line_store].
    match goal with
    | |- context [FindIntersections.line_factory lines ?st1] =>
      destruct (IH st1) as [IH1 IH2];
      destruct (FindIntersections.line_factory lines st1) as [line_segments st2]
    end.
    cbn [fst snd line_store length seq] in *. rewrite length_app in IH1, IH2.
    cbn [length] in IH1, IH2. split.
    + rewrite IH1. f_equal. f_equal. lia.
    + lia.
Qed.

Lemma event_point_factory_lines (event_points : list (F * F)) :
  forall (acc : list (Point F)) st,
  line_store
    (snd (fold_left (fun acc event_point =>
            let '(p, st) := FindIntersections.new_Point (fst event_point)
                              (snd event_point) (snd acc) in
            (fst acc ++ [p], st)) event_points (acc, st)))
  = line_store st.
Proof.
  induction event_points as [|[cx cy] event_points IH]; intros acc st; cbn [fold_left].
  - reflexivity.
  - cbn [FindIntersections.new_Point fst snd]. now rewrite IH.
Qed.

Lemma search_intersections_records fuel (lines : list ((F * F) * (F * F))) :
  on_return (FindIntersections.search_intersections fuel lines)
    (Forall (recorded
               (line_store (snd (FindIntersections.line_factory lines
                                   FindIntersections.fresh)))
               (seq 0 (length lines)))).
Proof.
  unfold FindIntersections.search_intersections. cbv zeta.
  pose proof (line_factory_segments lines FindIntersections.fresh) as [Hseg _].
  destruct (FindIntersections.line_factory lines FindIntersections.fresh)
    as [line_segments st].
  cbn [fst snd FindIntersections.fresh line_store length] in *. subst line_segments.
  pose proof (event_point_factory_lines
                (list_of_points
                   (distinct (fun p q : F * F => (fst p =? fst q) && (snd p =? snd q))
                             (map fst lines ++ map snd lines))) [] st) as Hst.
  unfold FindIntersections.event_point_factory. cbv zeta.
  match type of Hst with
  | line_store (snd ?made) = _ => destruct made as [event_points st']
  end.
  cbn [snd] in Hst.
  apply find_intersections_records; [apply NoDup_seq|now rewrite Hst].
Qed.

Lemma recorded_segments (store : list (Line F)) (r : Point F * list nat) :
  recorded store (seq 0 (length store)) r ->
  2 <= length (snd r) /\ NoDup (snd r) /\
  forall s, s ∈ snd r <-> touching store (fst r) s = true.
Proof.
  intros [Hlen Hperm]. split; [exact Hlen|]. split.
  - rewrite Hperm. apply filter_NoDup, NoDup_seq.
  - intros s. rewrite Hperm, list_elem_of_In, filter_In, in_seq.
    split; [tauto|]. intros Ht. split; [|exact Ht].
    unfold touching, pick in Ht. destruct (store !! s) as [l|] eqn:Es; [|discriminate].
    apply lookup_lt_Some in Es. lia.
Qed.

End Records.

(** X25.  Whatever segments [search_intersections] is given, every record
    it returns lists two segments or more, none of them twice, and lists
    exactly the input segments that [handle_event_points] takes for the
    point of the record: those with the point as upper endpoint, as lower
    endpoint, or on them by [lies_on_segment].  The numbers are any, and
    a set may be listed in any order. *)
Theorem records_list_the_segments_at_their_point {F : Type} `{Number F} (O : SetOrder F)
    (laws : SetOrderLaws O) (fuel : nat) (lines : list ((F * F) * (F * F)))
    (recs : list (Point F * list nat)) (p : Point F) (segments : list nat) :
  FindIntersections.search_intersections fuel lines = Return recs ->
  (p, segments) ∈ recs ->
  2 <= length segments /\ NoDup segments /\
  forall s, s ∈ segments <->
    touching (line_store (snd (FindIntersections.line_factory lines FindIntersections.fresh)))
             p s = true.
Proof.
  intros Hrun Hr.
  pose proof (search_intersections_records fuel lines recs Hrun) as Hrecs.
  rewrite Forall_forall in Hrecs. apply Hrecs in Hr.
  pose proof (line_factory_segments lines FindIntersections.fresh) as [_ Hlen].
  cbn [FindIntersections.fresh line_store length] in Hlen. cbn [Nat.add] in Hlen.
  rewrite <- Hlen in Hr. exact (recorded_segments _ _ Hr).
Qed.

Lemma records_list_the_segments_at_their_point_witness :
  exists recs p segments,
    @FindIntersections.search_intersections Qc _ (SetOrder_first_met Qc) 50 three_segments
      = Return recs /\
    recs !! 0%nat = Some (p, segments) /\
    2 <= length segments /\ NoDup segments /\
    forall s, s ∈ segments <->
      touching (line_store (snd (FindIntersections.line_factory three_segments
                                   FindIntersections.fresh)))
               p s = true.
Proof.
  assert (exists recs,
            @FindIntersections.search_intersections Qc _ (SetOrder_first_met Qc) 50
              three_segments = Return recs /\
            exists p segments, recs !! 0%nat = Some (p, segments))
    as (recs & Hrun & p & segments & H0).
  { vm_compute. eexists. split; [reflexivity|]. eexists. eexists. reflexivity. }
  exists recs, p, segments. split; [exact Hrun|]. split; [exact H0|].
  exact (@records_list_the_segments_at_their_point Qc _ (SetOrder_first_met Qc)
           (SetOrder_first_met_laws Qc) 50 three_segments recs p segments Hrun
           (list_elem_of_lookup_2 _ _ _ H0)).
Defined.

(** X26.  No point is recorded twice: whenever the comparisons of the
    numbers order them, two records that [search_intersections] returns
    at different places have points that [event_equals] tells apart. *)
Theorem records_have_different_points {F : Type} `{NumberOrder F} (O : SetOrder F)
    (laws : SetOrderLaws O) (fuel : nat) (lines : list ((F * F) * (F * F)))
    (recs : list (Point F * list nat)) (i j : nat) (r1 r2 : Point F * list nat) :
  FindIntersections.search_intersections fuel lines = Return recs ->
  i <> j -> recs !! i = Some r1 -> recs !! j = Some r2 ->
  FindIntersections.event_equals (fst r1) (fst r2) = false.
Proof.
  intros Hrun Hij H1 H2.
  pose proof (search_intersections_sorted fuel lines recs Hrun) as Hsorted.
  assert (forall i j r1 r2, (i < j)%nat -> recs !! i = Some r1 -> recs !! j = Some r2 ->
            FindIntersections.compare_events (fst r1) (fst r2) = true) as Hlt.
  { clear i j r1 r2 Hij H1 H2. intros i j r1 r2 Hij H1 H2.
    apply compare_events_iff.
    apply lookup_lt_Some in H1 as Hi.
    rewrite <- (take_drop_middle recs i r1 H1) in Hsorted, H2.
    apply StronglySorted_app in Hsorted as (_ & _ & Hsorted).
    apply StronglySorted_cons in Hsorted as [Hr1 _].
    rewrite Forall_forall in Hr1. apply Hr1.
    rewrite lookup_app_r in H2 by (rewrite length_take; lia).
    rewrite length_take, Nat.min_l in H2 by lia.
    destruct (j - i)%nat as [|n] eqn:E; [lia|]. cbn in H2.
    eapply list_elem_of_lookup_2; eauto. }
  pose proof (@events_ordered F _ _) as Hord.
  destruct (FindIntersections.event_equals (fst r1) (fst r2)) eqn:E; [|reflexivity].
  assert (i < j \/ j < i)%nat as [Hlt'|Hlt'] by lia.
  - pose proof (Hlt i j r1 r2 Hlt' H1 H2) as Hc.
    rewrite (same_less_l _ _ Hord _ _ _ E) in Hc.
    pose proof (less_asym _ _ Hord _ _ Hc). congruence.
  - pose proof (Hlt j i r2 r1 Hlt' H2 H1) as Hc.
    rewrite (same_less_r _ _ Hord _ _ _ E) in Hc.
    pose proof (less_asym _ _ Hord _ _ Hc). congruence.
Qed.

Lemma records_have_different_points_witness :
  exists recs r1 r2,
    @FindIntersections.search_intersections Qc _ (SetOrder_first_met Qc) 50 three_segments
      = Return recs /\
    recs !! 0%nat = Some r1 /\ recs !! 1%nat = Some r2 /\
    FindIntersections.event_equals (fst r1) (fst r2) = false.
Proof.
  assert (exists recs,
            @FindIntersections.search_intersections Qc _ (SetOrder_first_met Qc) 50
              three_segments = Return recs /\
            exists r1 r2, recs !! 0%nat = Some r1 /\ recs !! 1%nat = Some r2)
    as (recs & Hrun & r1 & r2 & H1 & H2).
  { vm_compute. eexists. split; [reflexivity|]. eexists. eexists. split; reflexivity. }
  exists recs, r1, r2. split; [exact Hrun|]. split; [exact H1|]. split; [exact H2|].
  exact (@records_have_different_points Qc _ NumberOrder_Qc (SetOrder_first_met Qc)
           (SetOrder_first_met_laws Qc) 50 three_segments recs 0 1 r1 r2
           Hrun (fun E : 0%nat = 1%nat => O_S 0 E) H1 H2).
Defined.

(** X27.  On the empty list of segments, [search_intersections] returns
    the empty list of records, with any numbers, any recursion budget and
    any order of the sets. *)
Theorem search_intersections_of_nothing {F : Type} `{Number F} (O : SetOrder F)
    (laws : SetOrderLaws O) (fuel : nat) :
  FindIntersections.search_intersections fuel [] = Return [].
Proof.
  unfold FindIntersections.search_intersections, FindIntersections.event_point_factory.
  cbn [FindIntersections.line_factory map app distinct].
  pose proof (list_of_points_perm (@nil (F * F))) as Hp.
  apply Permutation_nil_r in Hp. rewrite Hp. cbn [fold_left].
  unfold FindIntersections.find_intersections. cbn [map].
  destruct fuel; reflexivity.
Qed.

Lemma search_intersections_of_nothing_witness :
  @FindIntersections.search_intersections float _ (SetOrder_first_met float) 7 []
  = Return [].
Proof.
  exact (@search_intersections_of_nothing float _ (SetOrder_first_met float)
           (SetOrder_first_met_laws float) 7).
Defined.
